(** * plot_emissivities: a shallow embedding of [main.py]

    The script groups the wall boundaries of a loaded Fluent case by their
    radiative emissivity, registers one cell register per group, synthesises
    the named expressions [overlay] and [emiss], and draws one contour plot.

    The development has three layers:
    - [Py]: the Python built-ins the script calls on its data
      ([round], [float], [str] of a float, [str.replace], [str.join]),
      over IEEE-754 binary64 values ([spec_float] with [prec = 53] and
      [emax = 1024]) and exact integer arithmetic;
    - the solver session, the exceptions and a state-and-exception monad;
    - the classes of [main.py], one module per class, and [visualize_e].

    The properties follow: their vocabulary, the facts about the built-ins
    ([PyFacts] for rounding, [Numerals] for [str] and its inverse), the
    behaviour of the classes, the claims, and further properties of the
    classes. *)

From Stdlib Require Import ZArith Lia Bool List String Ascii Floats.
From stdpp Require Import base option list strings pretty gmap.

(** ** Python built-ins *)

Module Py.

Local Open Scope Z_scope.

(** A Python [float] is an IEEE-754 binary64 value: [S754_finite s m e] is
    [(-1)^s * m * 2^e]. *)
Definition float : Type := spec_float.

(** The canonical representations: a normal number has a 53-bit mantissa, a
    subnormal one the least exponent. *)
Definition is_binary64 (x : float) : bool :=
  match x with
  | S754_finite _ m e =>
      (Zpos m <? 2 ^ 53) && (-1074 <=? e) && (e <=? 971)
      && ((2 ^ 52 <=? Zpos m) || (e =? -1074))
  | _ => true
  end.

(** Structural equality of two floats (the same bits, NaN payloads apart). *)
Definition float_same (x y : float) : bool :=
  match x, y with
  | S754_zero a, S754_zero b => Bool.eqb a b
  | S754_infinity a, S754_infinity b => Bool.eqb a b
  | S754_nan, S754_nan => true
  | S754_finite a m e, S754_finite b m' e' =>
      Bool.eqb a b && Pos.eqb m m' && Z.eqb e e'
  | _, _ => false
  end.

(** Python's [==] on floats, the test a [dict] applies to its keys: IEEE
    equality, under which the two zeros are equal and NaN equals nothing. *)
Definition float_eq (x y : float) : bool := SFeqb x y.

(** [n / d] rounded to the nearest integer, ties to the even one. *)
Definition div_half_even (n d : Z) : Z :=
  let q := n / d in
  let r := n mod d in
  if 2 * r <? d then q
  else if 2 * r =? d then (if Z.even q then q else q + 1)
  else q + 1.

(** [floor (log2 (n / d))] for positive [n] and [d]. *)
Definition floor_log2_ratio (n d : Z) : Z :=
  let l := Z.log2 n - Z.log2 d in
  if n * 2 ^ Z.max 0 (- l) <? d * 2 ^ Z.max 0 l then l - 1 else l.

(** [2^a <= n / d], for an exponent of either sign and positive [d]. *)
Definition ratio_ge_pow2 (a n d : Z) : Prop :=
  d * 2 ^ Z.max 0 a <= n * 2 ^ Z.max 0 (- a).

(** The binary64 value nearest to the rational [n / d] (ties to even), with
    sign [s]: what [strtod] returns for a decimal numeral and what
    int-to-float conversion returns for an integer. *)
Definition round_ratio (s : bool) (n d : Z) : float :=
  if n <=? 0 then S754_zero s else
  let e := Z.max (floor_log2_ratio n d - 52) (-1074) in
  let q := div_half_even (n * 2 ^ Z.max 0 (- e)) (d * 2 ^ Z.max 0 e) in
  let '(m, e') := if q =? 2 ^ 53 then (2 ^ 52, e + 1) else (q, e) in
  match m with
  | Zpos p => if e' <=? 971 then S754_finite s p e' else S754_infinity s
  | _ => S754_zero s
  end.

(** [round(x, ndigits)] for a float [x] and [ndigits >= 0]: infinities and
    NaN round to themselves; a finite [x] is rounded, on its exact value and
    ties to even, to the decimal numeral with [ndigits] places, which is then
    read back as a float. *)
Definition round (x : float) (ndigits : nat) : float :=
  match x with
  | S754_finite s m e =>
      let t := 10 ^ Z.of_nat ndigits in
      let n := div_half_even (Zpos m * t * 2 ^ Z.max 0 e) (2 ^ Z.max 0 (- e)) in
      round_ratio s n t
  | _ => x
  end.

(** [float(n)] for an [int]: correctly rounded, [None] when Python raises
    [OverflowError]. *)
Definition float_of_int (n : Z) : option float :=
  match round_ratio (n <? 0) (Z.abs n) 1 with
  | S754_infinity _ => None
  | x => Some x
  end.

(** The float literals [0.0] and [1.0]. *)
Definition zero : float := S754_zero false.
Definition one : float := S754_finite false 4503599627370496 (-52).

(** [float(b)] for a [bool]. *)
Definition float_of_bool (b : bool) : float := if b then one else zero.

(** *** [str] of a float

    [str(x)] is [repr(x)]: the shortest decimal digit string that reads back
    as [x], the closest to [x] among the shortest, laid out in fixed notation
    when the decimal point position lies in [-3 .. 16] and in exponent
    notation otherwise. *)

Fixpoint count_digits (fuel : nat) (q p : Z) : Z :=
  match fuel with
  | O => p
  | S fuel' => if q <? 10 then p else count_digits fuel' (q / 10) (p + 1)
  end.

Fixpoint count_leading_zeros (fuel : nat) (n d p : Z) : Z :=
  match fuel with
  | O => p
  | S fuel' =>
      if d <=? 10 * n then p else count_leading_zeros fuel' (10 * n) d (p - 1)
  end.

(** The decimal point position [p] of [n / d > 0]:
    [10^(p-1) <= n / d < 10^p]. *)
Definition decimal_point (n d : Z) : Z :=
  if d <=? n then count_digits 400 (n / d) 1
  else count_leading_zeros 400 n d 0.

(** The [k]-digit decimals just below and just above [n / d] (in units of
    [10^(p-k)]): the one that reads back as the float [n / d], the nearer one
    when both do. *)
Definition digits_candidate (k p n d : Z) : option Z :=
  let num := n * 10 ^ Z.max 0 (k - p) in
  let den := d * 10 ^ Z.max 0 (p - k) in
  let lo := num / den in
  let back c :=
    round_ratio false (c * 10 ^ Z.max 0 (p - k)) (10 ^ Z.max 0 (k - p)) in
  let x := round_ratio false n d in
  match float_same (back lo) x, float_same (back (lo + 1)) x with
  | true, true => Some (div_half_even num den)
  | true, false => Some lo
  | false, true => Some (lo + 1)
  | false, false => None
  end.

(** The shortest digits, tried from [k] digits on; 17 digits always read
    back. *)
Fixpoint shortest_digits (fuel : nat) (k p n d : Z) : Z * Z :=
  match fuel with
  | O => (div_half_even (n * 10 ^ Z.max 0 (k - p)) (d * 10 ^ Z.max 0 (p - k)), k)
  | S fuel' =>
      match digits_candidate k p n d with
      | Some c => (c, k)
      | None => shortest_digits fuel' (k + 1) p n d
      end
  end.

(** Drops the trailing zeros of [c], counting them in [z]. *)
Fixpoint strip_zeros (fuel : nat) (c z : Z) : Z * Z :=
  match fuel with
  | O => (c, z)
  | S fuel' =>
      if (c mod 10 =? 0) && (0 <? c) then strip_zeros fuel' (c / 10) (z + 1)
      else (c, z)
  end.

Definition zeros (n : Z) : string :=
  String.concat "" (repeat "0"%string (Z.to_nat n)).

(** The exponent, as C's ["%+.02d"] prints it. *)
Definition exponent_text (e : Z) : string :=
  (if e <? 0 then "-" else "+") +:+ (if Z.abs e <? 10 then "0" else "")
  +:+ pretty (Z.abs_N e).

(** The layout of the digit string [ds] with decimal point position [decpt]
    (the value is [0.ds * 10^decpt]), as [repr] lays it out. *)
Definition format_repr (ds : string) (decpt : Z) : string :=
  let nd := Z.of_nat (String.length ds) in
  if (decpt <=? -4) || (16 <? decpt) then
    substring 0 1 ds
    +:+ (if nd =? 1 then "" else "." +:+ substring 1 (String.length ds - 1) ds)
    +:+ "e" +:+ exponent_text (decpt - 1)
  else if decpt <=? 0 then "0." +:+ zeros (- decpt) +:+ ds
  else if nd <=? decpt then ds +:+ zeros (decpt - nd) +:+ ".0"
  else
    substring 0 (Z.to_nat decpt) ds +:+ "."
    +:+ substring (Z.to_nat decpt) (String.length ds - Z.to_nat decpt) ds.

(** [str(x)] for a float. *)
Definition str (x : float) : string :=
  match x with
  | S754_zero s => if s then "-0.0" else "0.0"
  | S754_infinity s => if s then "-inf" else "inf"
  | S754_nan => "nan"
  | S754_finite s m e =>
      let n := Zpos m * 2 ^ Z.max 0 e in
      let d := 2 ^ Z.max 0 (- e) in
      let p := decimal_point n d in
      let '(c, k) := shortest_digits 16 1 p n d in
      let '(c', z) := strip_zeros 17 c 0 in
      let ds := pretty (Z.to_N c') in
      let decpt := p + (Z.of_nat (String.length ds) + z - k) in
      (if s then "-" else "") +:+ format_repr ds decpt
  end.

(** *** Strings *)

(** [s.replace(old, new)] for one-character [old] and [new]. *)
Fixpoint replace (old new : ascii) (s : string) : string :=
  match s with
  | EmptyString => EmptyString
  | String c s' =>
      String (if Ascii.eqb c old then new else c) (replace old new s')
  end.

(** [sep.join(l)]. *)
Definition join (sep : string) (l : list string) : string :=
  String.concat sep l.

End Py.

(** ** Values, exceptions and the solver session *)

(** The Python values an emissivity setting can hold. [bool] is a subclass
    of [int]. *)
Inductive PyType := TFloat | TInt | TBool | TStr | TNoneType.

Inductive PyValue :=
  | PyFloat (x : Py.float)
  | PyInt (n : Z)
  | PyBool (b : bool)
  | PyStr (s : string)
  | PyNone.

(** [type(v)]. *)
Definition type (v : PyValue) : PyType :=
  match v with
  | PyFloat _ => TFloat
  | PyInt _ => TInt
  | PyBool _ => TBool
  | PyStr _ => TStr
  | PyNone => TNoneType
  end.

(** [isinstance(v, t)]. *)
Definition isinstance (v : PyValue) (t : PyType) : bool :=
  match type v, t with
  | TFloat, TFloat | TInt, TInt | TBool, TBool | TBool, TInt
  | TStr, TStr | TNoneType, TNoneType => true
  | _, _ => false
  end.

(** The arguments an exception is raised with. *)
Inductive Arg :=
  | ArgStr (s : string)
  | ArgType (t : PyType)
  | ArgValue (v : PyValue).

Inductive Exception :=
  | BoundaryConditionError (args : list Arg)
  | ValueError (args : list Arg)
  | OverflowError (args : list Arg)
  | TypeError (args : list Arg)
  | KeyError (args : list Arg)
  | EOFError.

(** The result of a call: a value, or a raised exception. *)
Inductive outcome (A : Type) :=
  | Ok (a : A)
  | Raise (e : Exception).
Arguments Ok {A} a.
Arguments Raise {A} e.

(** The emissivity setting of a wall: the mapping [wall_data['in_emiss']],
    read at its key ['value'].  The settings of this model all have that
    key: a mapping without it, on which [emiss['value']] raises [KeyError],
    is outside the model. *)
Record EmissSetting := { value : PyValue }.

(** The state of one wall boundary; [in_emiss = None] when
    [wall_data.get('in_emiss')] is [None] (the wall takes no part in
    radiation). *)
Record WallData := { in_emiss : option EmissSetting }.

Record ColorMap := {
  cm_size : Z;
  cm_color : string;
  cm_log_scale : bool;
  cm_format : string;
  cm_length : Py.float;
  cm_user_skip : Z }.

(** A contour graphics object, as [create_contour_plot] configures it. *)
Record Contour := {
  field : string;
  filled : bool;
  surfaces_list : list string;
  coloring_option : string;
  node_values : bool;
  color_map : ColorMap }.

(** The solver session, the external collaborator of every class:
    - [bc_active]: [setup.boundary_conditions.is_active()];
    - [walls]: [setup.boundary_conditions.wall()], in the solver's order;
    - [named_expressions]: [setup.named_expressions], name to definition;
    - [expression_value]: what [named_expressions[name].get_value()] reports;
    - [cell_registers]: the arguments of each
      [tui.solve.cell_registers.add] call, in order;
    - [contour_active]: [results.graphics.contour.is_active()];
    - [initializations]: the calls of [solution.initialization.initialize()];
    - [contour]: [results.graphics.contour];
    - [displayed]: the contours [display()] was called on, in order. *)
Record Solver := {
  bc_active : bool;
  walls : list (string * WallData);
  named_expressions : gmap string string;
  expression_value : string -> Py.float;
  cell_registers : list (list string);
  contour_active : bool;
  initializations : nat;
  contour : gmap string Contour;
  displayed : list string }.

(** What the program acts on: the session, and the console. *)
Record World := {
  solver : Solver;
  stdout : list string;
  stdin : list string }.

Definition with_solver (f : Solver -> Solver) (w : World) : World :=
  {| solver := f (solver w); stdout := stdout w; stdin := stdin w |}.

Definition set_named_expression (name def : string) (s : Solver) : Solver :=
  {| bc_active := bc_active s;
     walls := walls s;
     named_expressions := <[name := def]> (named_expressions s);
     expression_value := expression_value s;
     cell_registers := cell_registers s;
     contour_active := contour_active s;
     initializations := initializations s;
     contour := contour s;
     displayed := displayed s |}.

Definition add_cell_register (args : list string) (s : Solver) : Solver :=
  {| bc_active := bc_active s;
     walls := walls s;
     named_expressions := named_expressions s;
     expression_value := expression_value s;
     cell_registers := cell_registers s ++ [args];
     contour_active := contour_active s;
     initializations := initializations s;
     contour := contour s;
     displayed := displayed s |}.

Definition run_initialization (s : Solver) : Solver :=
  {| bc_active := bc_active s;
     walls := walls s;
     named_expressions := named_expressions s;
     expression_value := expression_value s;
     cell_registers := cell_registers s;
     contour_active := contour_active s;
     initializations := S (initializations s);
     contour := contour s;
     displayed := displayed s |}.

Definition set_contour (name : string) (c : Contour) (s : Solver) : Solver :=
  {| bc_active := bc_active s;
     walls := walls s;
     named_expressions := named_expressions s;
     expression_value := expression_value s;
     cell_registers := cell_registers s;
     contour_active := contour_active s;
     initializations := initializations s;
     contour := <[name := c]> (contour s);
     displayed := displayed s |}.

Definition display_contour (name : string) (s : Solver) : Solver :=
  {| bc_active := bc_active s;
     walls := walls s;
     named_expressions := named_expressions s;
     expression_value := expression_value s;
     cell_registers := cell_registers s;
     contour_active := contour_active s;
     initializations := initializations s;
     contour := contour s;
     displayed := displayed s ++ [name] |}.

(** ** The monad of the program: state and exceptions *)

Definition M (A : Type) : Type := World -> outcome A * World.

#[global] Instance M_ret : MRet M := fun A a w => (Ok a, w).

#[global] Instance M_bind : MBind M := fun A B f m w =>
  match m w with
  | (Ok a, w') => f a w'
  | (Raise e, w') => (Raise e, w')
  end.

Definition raise {A : Type} (e : Exception) : M A := fun w => (Raise e, w).

(** Reads the session. *)
Definition gets {A : Type} (f : Solver -> A) : M A :=
  fun w => (Ok (f (solver w)), w).

(** Acts on the session. *)
Definition modify (f : Solver -> Solver) : M unit :=
  fun w => (Ok tt, with_solver f w).

(** [print(line)]. *)
Definition print (line : string) : M unit :=
  fun w => (Ok tt, {| solver := solver w;
                      stdout := stdout w ++ [line];
                      stdin := stdin w |}).

(** [input(prompt)]: writes the prompt and reads one line. *)
Definition input (prompt : string) : M string :=
  fun w =>
    match stdin w with
    | line :: rest =>
        (Ok line, {| solver := solver w;
                     stdout := stdout w ++ [prompt];
                     stdin := rest |})
    | [] =>
        (Raise EOFError, {| solver := solver w;
                            stdout := stdout w ++ [prompt];
                            stdin := [] |})
    end.

(** [for x in l: self = body(self, x)]: a loop that updates one object. *)
Fixpoint for_fold {A S : Type} (body : S -> A -> M S) (l : list A) (self : S)
  : M S :=
  match l with
  | [] => mret self
  | x :: l' => self' ← body self x; for_fold body l' self'
  end.

(** [for x in l: body(x)]. *)
Fixpoint for_each {A : Type} (body : A -> M unit) (l : list A) : M unit :=
  match l with
  | [] => mret tt
  | x :: l' => body x;; for_each body l'
  end.

(** ** The classes of [main.py] *)

(** The three processors; a [NamedExpressionEmissivityProcessor] holds the
    session, which is the one every object shares. *)
Inductive EmissivityProcessor :=
  | IntProcessor
  | FloatProcessor
  | NamedExpressionProcessor.

Module IntEmissivityProcessor.

(** [return float(emiss)]. *)
Definition process (emiss : Z) : M Py.float :=
  match Py.float_of_int emiss with
  | Some x => mret x
  | None => raise (OverflowError [ArgStr "int too large to convert to float"])
  end.

End IntEmissivityProcessor.

Module FloatEmissivityProcessor.

(** [return round(emiss, 3)]. *)
Definition process (emiss : Py.float) : M Py.float :=
  mret (Py.round emiss 3).

End FloatEmissivityProcessor.

Module NamedExpressionEmissivityProcessor.

(** [emiss_expr = float(self.solver.setup.named_expressions[emiss].get_value())]
    and [return round(emiss_expr, 3)]; [float] of a float is that float. *)
Definition process (emiss : string) : M Py.float :=
  exprs ← gets named_expressions;
  match exprs !! emiss with
  | None => raise (KeyError [ArgStr emiss])
  | Some _ =>
      emiss_expr ← gets (fun s => expression_value s emiss);
      mret (Py.round emiss_expr 3)
  end.

End NamedExpressionEmissivityProcessor.

(** [processor.process(emiss)]: the call on the processor's class. The
    factory pairs each processor with a value of its own shape; on any other
    pair this model raises [TypeError]. *)
Definition process (processor : EmissivityProcessor) (emiss : PyValue)
  : M Py.float :=
  match processor, emiss with
  | IntProcessor, PyInt n => IntEmissivityProcessor.process n
  | IntProcessor, PyBool b => IntEmissivityProcessor.process (Z.b2z b)
  | FloatProcessor, PyFloat x => FloatEmissivityProcessor.process x
  | NamedExpressionProcessor, PyStr name =>
      NamedExpressionEmissivityProcessor.process name
  | _, _ => raise (TypeError [ArgType (type emiss)])
  end.

Module EmissivityProcessorFactory.

(** [emiss in solver.setup.named_expressions], asked of a [str] only. *)
Definition is_named_expression (emiss : PyValue) : M bool :=
  match emiss with
  | PyStr name =>
      exprs ← gets named_expressions;
      mret (bool_decide (is_Some (exprs !! name)))
  | _ => mret false
  end.

Definition create (emiss : PyValue) : M EmissivityProcessor :=
  if isinstance emiss TFloat then mret FloatProcessor
  else if isinstance emiss TInt then mret IntProcessor
  else
    named ← is_named_expression emiss;
    if (named : bool) then mret NamedExpressionProcessor
    else raise (ValueError [ArgStr "Unsupported emissivity type: ";
                            ArgType (type emiss);
                            ArgStr " value: ";
                            ArgValue emiss]).

End EmissivityProcessorFactory.

(** Normalization of a raw emissivity value: the two calls
    [processor = EmissivityProcessorFactory.create(v, solver)] and
    [processor.process(v)] of [collect_emissivities]. *)
Definition normalize (v : PyValue) : M Py.float :=
  processor ← EmissivityProcessorFactory.create v;
  process processor v.

Module SolverManager.

Definition check_BCs : M unit :=
  active ← gets bc_active;
  if (active : bool) then mret tt
  else raise (BoundaryConditionError [ArgStr "Load case file first."]).

Definition is_initialized : M bool :=
  active ← gets contour_active;
  if (active : bool) then mret true
  else print "No data available.";; mret false.

Definition initialize : M unit :=
  print "Initialization...";;
  modify run_initialization;;
  print "Initialized.".

End SolverManager.

Module EmissivityManager.

(** [self.e_dict]: a [dict] from emissivity value to wall names, in insertion
    order; its keys are compared with [==]. *)
Record t := { e_dict : list (Py.float * list string) }.

(** [__init__]: [self.e_dict = {}]. *)
Definition init : t := {| e_dict := [] |}.

(** [d.setdefault(key, []).append(wall)]. *)
Fixpoint setdefault_append (key : Py.float) (wall : string)
    (d : list (Py.float * list string)) : list (Py.float * list string) :=
  match d with
  | [] => [(key, [wall])]
  | (k, ws) :: d' =>
      if Py.float_eq k key then (k, ws ++ [wall]) :: d'
      else (k, ws) :: setdefault_append key wall d'
  end.

(** The body of the loop of [collect_emissivities]; the two
    [logger.debug] calls emit nothing, no handler being configured for
    records below WARNING. *)
Definition collect_wall (self : t) (item : string * WallData) : M t :=
  let '(wall, wall_data) := item in
  match in_emiss wall_data with
  | Some emiss =>
      processor ← EmissivityProcessorFactory.create (value emiss);
      emiss_value ← process processor (value emiss);
      mret {| e_dict := setdefault_append emiss_value wall (e_dict self) |}
  | None => mret self
  end.

Definition collect_emissivities (self : t) : M t :=
  walls ← gets walls;
  for_fold collect_wall walls self.

Definition name_emiss (emiss : Py.float) : string :=
  "e__" +:+ Py.replace "." "_" (Py.str emiss).

Definition create_emissivities_cell_registers (self : t) : M unit :=
  for_each
    (fun '(emiss, wall_list) =>
       let cr_name := name_emiss emiss in
       let walls_str := "(" +:+ Py.join " " wall_list +:+ ")" in
       modify (add_cell_register
                 [cr_name; "type"; "boundary"; "boundary-list"; walls_str]))
    (e_dict self).

(** The two lists the loop of [create_emissivity_expression] builds. *)
Definition expression_terms (keys : list Py.float) : list string * list string :=
  fold_left
    (fun '(def_lst, overlay_lst) emiss =>
       let cr_name := name_emiss emiss in
       let def_overlay := "IF(" +:+ cr_name +:+ ",1,0)" in
       let def_emiss :=
         "IF(AND(overlay<2," +:+ cr_name +:+ ")," +:+ Py.str emiss +:+ ",0)" in
       (def_lst ++ [def_emiss], overlay_lst ++ [def_overlay]))
    keys ([], []).

Definition create_emissivity_expression (self : t) : M unit :=
  let '(def_lst, overlay_lst) := expression_terms (map fst (e_dict self)) in
  let full_def_overlay := Py.join "+" overlay_lst in
  let full_def_emiss := Py.join "+" def_lst in
  modify (set_named_expression "overlay" full_def_overlay);;
  modify (set_named_expression "emiss" full_def_emiss).

End EmissivityManager.

Module ContourPlotManager.

Definition contour_emissivity (surf_disp : list string) : Contour :=
  {| field := "expr:emiss";
     filled := true;
     surfaces_list := surf_disp;
     coloring_option := "banded";
     node_values := false;
     color_map :=
       {| cm_size := 10;
          cm_color := "sequential-black-body";
          cm_log_scale := false;
          cm_format := "%0.2f";
          cm_length := Py.round_ratio false 7 10;
          cm_user_skip := 0 |} |}.

Definition create_contour_plot (e_dict : list (Py.float * list string))
  : M unit :=
  let surf_disp := concat (map snd e_dict) in
  modify (set_contour "contour_emissivity" (contour_emissivity surf_disp));;
  modify (display_contour "contour_emissivity").

End ContourPlotManager.

(** ** [visualize_e] *)

Section Visualize.

(** [pyfluent.launch_fluent(precision, processor_count, mode, show_gui)] and
    [solver.file.read_case(file_name)]: the session they leave. *)
Variable launch_fluent : string -> Z -> string -> bool -> Solver.
Variable read_case : Solver -> string -> Solver.

(** The statements of [visualize_e] after the case is read. *)
Definition visualize_loaded : M unit :=
  SolverManager.check_BCs;;
  initialized ← SolverManager.is_initialized;
  (if (initialized : bool) then mret tt else SolverManager.initialize);;
  e_manager ← EmissivityManager.collect_emissivities EmissivityManager.init;
  EmissivityManager.create_emissivities_cell_registers e_manager;;
  EmissivityManager.create_emissivity_expression e_manager;;
  ContourPlotManager.create_contour_plot (EmissivityManager.e_dict e_manager);;
  input "Press Enter to continue...";;
  mret tt.

(** The session [visualize_e] works on: the one launched, with the case
    read into it. *)
Definition loaded (case_file : string) (cores : Z) (gui_mode : bool) : Solver :=
  let solver := launch_fluent "double" cores "solver" gui_mode in
  read_case solver case_file.

(** [visualize_e(case_file, cores, gui_mode)], run with the console lines
    [lines] waiting on standard input. *)
Definition visualize_e (case_file : string) (cores : Z) (gui_mode : bool)
    (lines : list string) : outcome unit * World :=
  visualize_loaded
    {| solver := loaded case_file cores gui_mode; stdout := []; stdin := lines |}.

End Visualize.

(** ** The vocabulary of the properties *)

(** A computation that only reads: the world it leaves is the one it found. *)
Definition read_only {A : Type} (m : M A) : Prop :=
  forall w, snd (m w) = w.

(** The world after the session checks of [visualize_e]: a session with no
    results yet is initialized first. *)
Definition prepared (w : World) : World :=
  if contour_active (solver w) then w
  else {| solver := run_initialization (solver w);
          stdout := stdout w ++ ["No data available."; "Initialization...";
                                 "Initialized."];
          stdin := stdin w |}.

(** The cell registers added for a grouping. *)
Definition registers_of (d : list (Py.float * list string)) : list (list string) :=
  map (fun '(emiss, wall_list) =>
         [EmissivityManager.name_emiss emiss; "type"; "boundary";
          "boundary-list"; "(" +:+ Py.join " " wall_list +:+ ")"]) d.

(** The definitions of [overlay] and [emiss] for a grouping. *)
Definition overlay_of (d : list (Py.float * list string)) : string :=
  Py.join "+" (snd (EmissivityManager.expression_terms (map fst d))).

Definition emiss_of (d : list (Py.float * list string)) : string :=
  Py.join "+" (fst (EmissivityManager.expression_terms (map fst d))).

(** The session after the registers, the expressions and the plot of the
    grouping [d] are created. *)
Definition synthesized (d : list (Py.float * list string)) (s : Solver) : Solver :=
  {| bc_active := bc_active s;
     walls := walls s;
     named_expressions :=
       <["emiss" := emiss_of d]> (<["overlay" := overlay_of d]> (named_expressions s));
     expression_value := expression_value s;
     cell_registers := cell_registers s ++ registers_of d;
     contour_active := contour_active s;
     initializations := initializations s;
     contour :=
       <["contour_emissivity" :=
           ContourPlotManager.contour_emissivity (concat (map snd d))]> (contour s);
     displayed := displayed s ++ ["contour_emissivity"] |}.

(** The world a run that reaches the prompt leaves. *)
Definition finished (d : list (Py.float * list string)) (w : World) : World :=
  {| solver := synthesized d (solver (prepared w));
     stdout := stdout (prepared w) ++ ["Press Enter to continue..."];
     stdin := tail (stdin w) |}.

(** The result of normalizing [v] in the session [s]. *)
Definition normalized (s : Solver) (v : PyValue) : outcome Py.float :=
  fst (normalize v {| solver := s; stdout := []; stdin := [] |}).

(** The inputs the factory has a processor for: a float, an int, or a string
    that names a named expression of the session. *)
Definition supported (s : Solver) (v : PyValue) : bool :=
  isinstance v TFloat || isinstance v TInt
  || match v with
     | PyStr name => bool_decide (is_Some (named_expressions s !! name))
     | _ => false
     end.

(** The exception the factory raises for [v]. *)
Definition unsupported_error (v : PyValue) : Exception :=
  ValueError [ArgStr "Unsupported emissivity type: "; ArgType (type v);
              ArgStr " value: "; ArgValue v].

(** A wall whose setting, if it has one, normalizes to a float. *)
Definition normalizable (s : Solver) (item : string * WallData) : Prop :=
  forall emiss, in_emiss (snd item) = Some emiss ->
    exists x, normalized s (value emiss) = Ok x.

(** The names of the walls that have an emissivity setting, in the solver's
    order. *)
Definition radiating_walls (walls : list (string * WallData)) : list string :=
  map fst (filter (fun item : string * WallData => is_Some (in_emiss (snd item))) walls).

(** The groups whose list holds [wall]. *)
Definition groups_with (wall : string) (d : list (Py.float * list string))
  : list (Py.float * list string) :=
  filter (fun g : Py.float * list string => wall ∈ snd g) d.

(** All the walls of a grouping, group after group. *)
Definition grouped_walls (d : list (Py.float * list string)) : list string :=
  concat (map snd d).

Definition is_letter (c : ascii) : bool :=
  let n := nat_of_ascii c in
  ((65 <=? n) && (n <=? 90))%nat || ((97 <=? n) && (n <=? 122))%nat.

Definition is_digit (c : ascii) : bool :=
  let n := nat_of_ascii c in ((48 <=? n) && (n <=? 57))%nat.

Fixpoint all_chars (p : ascii -> bool) (s : string) : bool :=
  match s with
  | EmptyString => true
  | String c s' => p c && all_chars p s'
  end.

(** An identifier of the expression language: a letter or an underscore,
    then letters, digits and underscores. *)
Definition is_identifier (s : string) : bool :=
  match s with
  | EmptyString => false
  | String c s' =>
      (is_letter c || Ascii.eqb c "_")
      && all_chars (fun c => is_letter c || is_digit c || Ascii.eqb c "_") s'
  end.

(** The floats of the physical range of an emissivity, [0 <= x <= 1] as
    Python compares floats: the two zeros, and the positive floats up to 1. *)
Definition unit_interval (x : Py.float) : bool :=
  match x with
  | S754_zero _ => true
  | S754_finite false m e =>
      (Zpos m * 2 ^ Z.max 0 e <=? 2 ^ Z.max 0 (- e))%Z
  | _ => false
  end.

(** The floats read from the numerals [0.000], [0.001], ..., [1.000]. *)
Definition unit_keys : list Py.float :=
  map (fun n => Py.round_ratio false (Z.of_nat n) 1000) (seq 0 1001).

(** The float literals [0.8], [0.5] and [-0.5]. *)
Definition emissivity_0_8 : Py.float := Py.round_ratio false 8 10.
Definition emissivity_0_5 : Py.float := Py.round_ratio false 5 10.

(** A wall whose emissivity is the float [x]. *)
Definition radiating (x : Py.float) : WallData :=
  {| in_emiss := Some {| value := PyFloat x |} |}.

(** The scenario: walls [A] and [B] at 0.8, wall [C] at 0.5, wall [D] with no
    setting. *)
Definition scenario_walls : list (string * WallData) :=
  [("A", radiating emissivity_0_8); ("B", radiating emissivity_0_8);
   ("C", radiating emissivity_0_5); ("D", {| in_emiss := None |})].

Definition scenario_groups : list (Py.float * list string) :=
  [(emissivity_0_8, ["A"; "B"]); (emissivity_0_5, ["C"])].

(** A session of the scenario, fresh from its case file. *)
Definition scenario_session : Solver :=
  {| bc_active := true;
     walls := scenario_walls;
     named_expressions := ∅;
     expression_value := fun _ => Py.zero;
     cell_registers := [];
     contour_active := false;
     initializations := 0;
     contour := ∅;
     displayed := [] |}.
(** The scenario with wall [B] set to a string that names no expression. *)
Definition unsupported_session : Solver :=
  {| bc_active := true;
     walls := [("A", radiating emissivity_0_8);
               ("B", {| in_emiss := Some {| value := PyStr "steel" |} |});
               ("C", radiating emissivity_0_5)];
     named_expressions := ∅;
     expression_value := fun _ => Py.zero;
     cell_registers := [];
     contour_active := true;
     initializations := 0;
     contour := ∅;
     displayed := [] |}.

(** A session whose case is not loaded. *)
Definition inactive_session : Solver :=
  {| bc_active := false;
     walls := [];
     named_expressions := ∅;
     expression_value := fun _ => Py.zero;
     cell_registers := [];
     contour_active := false;
     initializations := 0;
     contour := ∅;
     displayed := [] |}.

(** A session none of whose walls takes part in radiation. *)
Definition dark_session : Solver :=
  {| bc_active := true;
     walls := [("D", {| in_emiss := None |}); ("E", {| in_emiss := None |})];
     named_expressions := ∅;
     expression_value := fun _ => Py.zero;
     cell_registers := [];
     contour_active := true;
     initializations := 0;
     contour := ∅;
     displayed := [] |}.

(** A session with the named expression [eps], whose value is 0.8004. *)
Definition named_session : Solver :=
  {| bc_active := true;
     walls := [("A", {| in_emiss := Some {| value := PyStr "eps" |} |})];
     named_expressions := {["eps" := "0.8004"]};
     expression_value := fun _ => Py.round_ratio false 8004 10000;
     cell_registers := [];
     contour_active := true;
     initializations := 0;
     contour := ∅;
     displayed := [] |}.

(** *** Reading a group name back

    [str] writes the shortest numeral that reads back as the float; the
    reader below is the inverse the names of the groups are checked
    against.  It reads the numerals [str] writes, with the decimal point
    or with the underscore that replaces it in a name. *)

Definition digit_value (c : ascii) : Z := (Z.of_nat (nat_of_ascii c) - 48)%Z.

(** The decimal point of a numeral; in a group name it is an underscore. *)
Definition is_point (c : ascii) : bool := Ascii.eqb c "." || Ascii.eqb c "_".

(** The integer a string of digits spells, after [acc]. *)
Fixpoint read_digits (s : string) (acc : Z) : Z :=
  match s with
  | EmptyString => acc
  | String c s' =>
      if is_point c then read_digits s' acc
      else read_digits s' (10 * acc + digit_value c)%Z
  end.

(** The digits of a numeral up to its exponent mark: the integer they
    spell, minus the number of digits after the point, and the text after
    the mark. *)
Fixpoint read_mantissa (s : string) (acc scale : Z) (after_point : bool)
  : Z * Z * option string :=
  match s with
  | EmptyString => (acc, scale, None)
  | String c s' =>
      if is_point c then read_mantissa s' acc scale true
      else if Ascii.eqb c "e" then (acc, scale, Some s')
      else read_mantissa s' (10 * acc + digit_value c)%Z
             (if after_point then scale - 1 else scale)%Z after_point
  end.

(** The exponent after the mark: a sign and digits. *)
Definition read_exponent (s : option string) : Z :=
  match s with
  | Some (String c s') =>
      if Ascii.eqb c "-" then (- read_digits s' 0)%Z else read_digits s' 0
  | _ => 0%Z
  end.

(** The digits and the decimal exponent of a numeral: it denotes
    [fst * 10^snd]. *)
Definition read_numeral (s : string) : Z * Z :=
  let '(acc, scale, rest) := read_mantissa s 0 0 false in
  (acc, (scale + read_exponent rest)%Z).

(** The float an unsigned numeral denotes, with the sign [sign]. *)
Definition read_unsigned (sign : bool) (s : string) : Py.float :=
  match s with
  | String c _ =>
      if Ascii.eqb c "i" then S754_infinity sign
      else if Ascii.eqb c "n" then S754_nan
      else
        let '(acc, t) := read_numeral s in
        Py.round_ratio sign (acc * 10 ^ Z.max 0 t) (10 ^ Z.max 0 (- t))
  | EmptyString => S754_nan
  end.

(** The float a numeral denotes, as [str] writes it or as a group name
    carries it. *)
Definition read_float (s : string) : Py.float :=
  match s with
  | String c s' =>
      if Ascii.eqb c "-" then read_unsigned true s' else read_unsigned false s
  | EmptyString => S754_nan
  end.

(** The emissivity a group name was made from. *)
Definition value_of_name (name : string) : option Py.float :=
  match name with
  | String "e" (String "_" (String "_" s)) => Some (read_float s)
  | _ => None
  end.

(** The decimal [c * 10^(p-k)], read as a float. *)
Definition read_back (k p c : Z) : Py.float :=
  Py.round_ratio false (c * 10 ^ Z.max 0 (p - k))%Z (10 ^ Z.max 0 (k - p))%Z.

(** [u] is a string of digits that spells [N]. *)
Definition spells (u : string) (N : Z) : Prop :=
  all_chars is_digit u = true
  /\ forall acc, read_digits u acc = (acc * 10 ^ Z.of_nat (String.length u) + N)%Z.

(** *** The grouping as a function of the walls *)

(** The key a wall is grouped under: its setting, normalized; [None] for a
    wall without a setting or with one that normalization rejects. *)
Definition wall_key (s : Solver) (item : string * WallData) : option Py.float :=
  match in_emiss (snd item) with
  | Some emiss =>
      match normalized s (value emiss) with
      | Ok x => Some x
      | Raise _ => None
      end
  | None => None
  end.

(** The walls that have a key, each with its key, in the solver's order. *)
Definition keyed_walls (s : Solver) (walls : list (string * WallData))
  : list (string * Py.float) :=
  omap (fun item => x ← wall_key s item; Some (fst item, x)) walls.

(** The walls whose key is [==] to [q], in the solver's order. *)
Definition walls_at (q : Py.float) (l : list (string * Py.float)) : list string :=
  map fst (filter (fun wx : string * Py.float => Py.float_eq q (snd wx) = true) l).

(** [d.get(q, [])]: the list of the group whose key is [==] to [q]. *)
Definition get (q : Py.float) (d : list (Py.float * list string)) : list string :=
  match find (fun g : Py.float * list string => Py.float_eq (fst g) q) d with
  | Some g => snd g
  | None => []
  end.

(** The grouping after the walls [l], with their keys, are added to [d]. *)
Definition add_walls (l : list (string * Py.float))
    (d : list (Py.float * list string)) : list (Py.float * list string) :=
  fold_left (fun d wx => EmissivityManager.setdefault_append (snd wx) (fst wx) d) l d.

(** No key of [d] is [==] to a later one. *)
Fixpoint distinct_keys (ks : list Py.float) : Prop :=
  match ks with
  | [] => True
  | k :: ks' => Forall (fun k' => Py.float_eq k k' = false) ks' /\ distinct_keys ks'
  end.

(** A group over the walls [l]: its key is the key of its first wall, and
    the keys of its other walls are [==] to it. *)
Definition group_of_walls (l : list (string * Py.float))
    (g : Py.float * list string) : Prop :=
  exists w0 rest,
    snd g = w0 :: rest /\ (w0, fst g) ∈ l
    /\ Forall (fun w => exists x, (w, x) ∈ l /\ Py.float_eq (fst g) x = true) rest.

(** The exception [float(n)] raises for an [int] beyond the floats. *)
Definition too_large : Exception :=
  OverflowError [ArgStr "int too large to convert to float"].

(** The characters of the text of a float: digits, the point, the exponent
    mark, the signs, and the letters of [inf] and [nan]. *)
Definition is_float_char (c : ascii) : bool :=
  is_digit c
  || existsb (Ascii.eqb c) ["."; "e"; "-"; "+"; "i"; "n"; "f"; "a"]%char.

(** A character other than the two signs. *)
Definition is_unsigned_char (c : ascii) : bool :=
  negb (Ascii.eqb c "-") && negb (Ascii.eqb c "+").

(** A character of an identifier. *)
Definition is_identifier_char (c : ascii) : bool :=
  is_letter c || is_digit c || Ascii.eqb c "_".

(** The grouping of the walls of a session: what a fresh manager holds after
    [collect_emissivities]. *)
Definition grouping (s : Solver) : list (Py.float * list string) :=
  add_walls (keyed_walls s (walls s)) [].



(** ** Facts about the built-ins *)

Module PyFacts.
Import Py.
Local Open Scope Z_scope.

(** *** The model against the kernel's binary64 *)

(** The literals of the scenario, as the parser of float literals reads
    them, and their text. *)
Example literal_0_8 : round_ratio false 8 10 = Prim2SF 0x1.999999999999ap-1%float.
Proof. vm_compute. reflexivity. Qed.

Example literal_0_5 : round_ratio false 5 10 = Prim2SF 0x1p-1%float.
Proof. vm_compute. reflexivity. Qed.

Example literal_0_85 : round_ratio false 85 100 = Prim2SF 0x1.b333333333333p-1%float.
Proof. vm_compute. reflexivity. Qed.

Example str_0_8 : str (round_ratio false 8 10) = "0.8"%string.
Proof. vm_compute. reflexivity. Qed.

Example str_sum : str (Prim2SF (0x1.999999999999ap-4 + 0x1.999999999999ap-3)%float)
                  = "0.30000000000000004"%string.
Proof. vm_compute. reflexivity. Qed.

Example str_exponent : str (round_ratio false 15 (10 ^ 8)) = "1.5e-07"%string.
Proof. vm_compute. reflexivity. Qed.

Example round_half_even : round (round_ratio false 2675 1000) 2
                          = round_ratio false 267 100.
Proof. vm_compute. reflexivity. Qed.

(** *** Rounding to the nearest integer *)

Lemma div_half_even_bounds (n d : Z) :
  0 < d -> - d <= 2 * (div_half_even n d * d - n) <= d.
Proof.
  intros Hd. unfold div_half_even.
  pose proof (Z.div_mod n d ltac:(lia)) as Hn.
  pose proof (Z.mod_pos_bound n d Hd) as Hr.
  destruct (2 * (n mod d) <? d) eqn:E1; [apply Z.ltb_lt in E1; nia|].
  apply Z.ltb_ge in E1.
  destruct (2 * (n mod d) =? d) eqn:E2.
  - apply Z.eqb_eq in E2. destruct (Z.even (n / d)); nia.
  - apply Z.eqb_neq in E2. nia.
Qed.

Lemma div_half_even_unique (n d k : Z) :
  0 < d -> Z.abs (2 * (k * d - n)) < d -> div_half_even n d = k.
Proof.
  intros Hd Hk. pose proof (div_half_even_bounds n d Hd) as Hq.
  assert (Z.abs (div_half_even n d - k) * d < 1 * d) by nia.
  nia.
Qed.

Lemma div_half_even_exact (k d : Z) : 0 < d -> div_half_even (k * d) d = k.
Proof. intros Hd. apply div_half_even_unique; [exact Hd|]. rewrite Z.sub_diag. simpl. lia. Qed.

Lemma div_half_even_nonneg (n d : Z) : 0 <= n -> 0 < d -> 0 <= div_half_even n d.
Proof.
  intros Hn Hd. pose proof (div_half_even_bounds n d Hd). nia.
Qed.

(** *** Powers of two against a ratio *)

Lemma pow2_pos (a : Z) : 0 < 2 ^ Z.max 0 a.
Proof. apply Z.pow_pos_nonneg; lia. Qed.

Lemma ratio_ge_pow2_shift (a k n d : Z) :
  0 <= k -> 0 <= k + a ->
  ratio_ge_pow2 a n d <-> d * 2 ^ (k + a) <= n * 2 ^ k.
Proof.
  intros Hk Hka. unfold ratio_ge_pow2.
  destruct (Z.le_gt_cases 0 a) as [Ha|Ha].
  - rewrite (Z.max_r 0 a), (Z.max_l 0 (- a)) by lia.
    rewrite Z.pow_add_r by lia. change (2 ^ 0) with 1.
    pose proof (Z.pow_pos_nonneg 2 k ltac:(lia) Hk).
    pose proof (Z.pow_pos_nonneg 2 a ltac:(lia) Ha). nia.
  - rewrite (Z.max_l 0 a), (Z.max_r 0 (- a)) by lia.
    replace k with ((k + a) + - a) at 2 by lia.
    rewrite (Z.pow_add_r 2 (k + a) (- a)) by lia. change (2 ^ 0) with 1.
    pose proof (Z.pow_pos_nonneg 2 (k + a) ltac:(lia) Hka).
    pose proof (Z.pow_pos_nonneg 2 (- a) ltac:(lia) ltac:(lia)). nia.
Qed.

Lemma ratio_ge_pow2_mono (a b n d : Z) :
  0 < d -> a <= b -> ratio_ge_pow2 b n d -> ratio_ge_pow2 a n d.
Proof.
  intros Hd Hab Hb.
  set (k := Z.max 0 (- a)).
  apply (ratio_ge_pow2_shift a k); [lia | lia |].
  apply (ratio_ge_pow2_shift b k) in Hb; [|lia|lia].
  replace (k + b) with ((k + a) + (b - a)) in Hb by lia.
  rewrite Z.pow_add_r in Hb by lia.
  pose proof (Z.pow_pos_nonneg 2 (k + a) ltac:(lia) ltac:(lia)).
  pose proof (Z.pow_pos_nonneg 2 (b - a) ltac:(lia) ltac:(lia)).
  nia.
Qed.

Lemma floor_log2_ratio_spec (n d : Z) :
  0 < n -> 0 < d ->
  ratio_ge_pow2 (floor_log2_ratio n d) n d
  /\ ~ ratio_ge_pow2 (floor_log2_ratio n d + 1) n d.
Proof.
  intros Hn Hd. unfold floor_log2_ratio.
  pose proof (Z.log2_spec n Hn) as [Hn1 Hn2].
  pose proof (Z.log2_spec d Hd) as [Hd1 Hd2].
  pose proof (Z.log2_nonneg n) as Hln. pose proof (Z.log2_nonneg d) as Hld.
  set (ln := Z.log2 n) in *. set (ld := Z.log2 d) in *.
  rewrite Z.pow_succ_r in Hn2, Hd2 by lia.
  pose proof (Z.pow_pos_nonneg 2 ln ltac:(lia) Hln) as Pn.
  pose proof (Z.pow_pos_nonneg 2 ld ltac:(lia) Hld) as Pd.
  destruct (n * 2 ^ Z.max 0 (- (ln - ld)) <? d * 2 ^ Z.max 0 (ln - ld)) eqn:E.
  - apply Z.ltb_lt in E. split.
    + apply (ratio_ge_pow2_shift _ (ld + 1)); [lia|lia|].
      replace (ld + 1 + (ln - ld - 1)) with ln by lia.
      rewrite Z.pow_add_r by lia. change (2 ^ 1) with 2. nia.
    + replace (ln - ld - 1 + 1) with (ln - ld) by lia.
      unfold ratio_ge_pow2. lia.
  - apply Z.ltb_ge in E. split.
    + exact E.
    + rewrite (ratio_ge_pow2_shift _ (ld + 1)) by lia.
      replace (ld + 1 + (ln - ld + 1)) with (ln + 1 + 1) by lia.
      rewrite !Z.pow_add_r by lia. change (2 ^ 1) with 2. nia.
Qed.

Lemma floor_log2_ratio_unique (n d g : Z) :
  0 < n -> 0 < d ->
  ratio_ge_pow2 g n d -> ~ ratio_ge_pow2 (g + 1) n d ->
  floor_log2_ratio n d = g.
Proof.
  intros Hn Hd Hg Hg1.
  destruct (floor_log2_ratio_spec n d Hn Hd) as [Hl Hl1].
  destruct (Z.lt_trichotomy (floor_log2_ratio n d) g) as [Hlt|[Heq|Hgt]].
  - exfalso. apply Hl1. apply (ratio_ge_pow2_mono _ g); [exact Hd|lia|exact Hg].
  - exact Heq.
  - exfalso. apply Hg1.
    apply (ratio_ge_pow2_mono _ (floor_log2_ratio n d)); [exact Hd|lia|exact Hl].
Qed.


Lemma ratio_ge_pow2_scaled (e b n d : Z) :
  0 <= b ->
  ratio_ge_pow2 (e + b) n d
  <-> 2 ^ b * (d * 2 ^ Z.max 0 e) <= n * 2 ^ Z.max 0 (- e).
Proof.
  intros Hb. rewrite (ratio_ge_pow2_shift _ (Z.max 0 (- e))) by lia.
  replace (Z.max 0 (- e) + (e + b)) with (Z.max 0 e + b) by lia.
  rewrite Z.pow_add_r by lia. split; intros H; nia.
Qed.

(** *** The nearest float *)

(** A canonical normal float within half a unit in the last place of
    [n / d] is what [round_ratio] returns. *)
Lemma round_ratio_normal (s : bool) (n d m e : Z) :
  0 < n -> 0 < d ->
  2 ^ 52 <= m < 2 ^ 53 -> -1074 <= e <= 971 ->
  ratio_ge_pow2 (e + 52) n d ->
  Z.abs (2 * (m * (d * 2 ^ Z.max 0 e) - n * 2 ^ Z.max 0 (- e)))
    < d * 2 ^ Z.max 0 e ->
  round_ratio s n d = S754_finite s (Z.to_pos m) e.
Proof.
  intros Hn Hd Hm He Hge Hnear.
  pose proof (pow2_pos e) as Pe.
  assert (Hlg : floor_log2_ratio n d = e + 52).
  { apply floor_log2_ratio_unique; [exact Hn|exact Hd|exact Hge|].
    replace (e + 52 + 1) with (e + 53) by lia.
    rewrite ratio_ge_pow2_scaled by lia. nia. }
  unfold round_ratio.
  destruct (n <=? 0) eqn:E0; [apply Z.leb_le in E0; lia|].
  rewrite Hlg. replace (Z.max (e + 52 - 52) (-1074)) with e by lia.
  rewrite (div_half_even_unique _ _ m) by (try exact Hnear; nia).
  destruct (m =? 2 ^ 53) eqn:E1; [apply Z.eqb_eq in E1; lia|].
  destruct m as [|p|p]; try lia.
  destruct (e <=? 971) eqn:E2; [reflexivity|apply Z.leb_gt in E2; lia].
Qed.

(** What a finite result of [round_ratio] was computed from. *)
Lemma round_ratio_finite_inv (s s' : bool) (n d : Z) (p : positive) (e : Z) :
  round_ratio s n d = S754_finite s' p e ->
  let e0 := Z.max (floor_log2_ratio n d - 52) (-1074) in
  let q := div_half_even (n * 2 ^ Z.max 0 (- e0)) (d * 2 ^ Z.max 0 e0) in
  s' = s /\ e <= 971
  /\ ((q = 2 ^ 53 /\ Zpos p = 2 ^ 52 /\ e = e0 + 1)
      \/ (q <> 2 ^ 53 /\ Zpos p = q /\ e = e0)).
Proof.
  intros H e0 q. unfold round_ratio in H.
  destruct (n <=? 0); [discriminate H|].
  fold e0 in H. fold q in H.
  destruct (q =? 2 ^ 53) eqn:Eq.
  - apply Z.eqb_eq in Eq. simpl in H.
    destruct (e0 + 1 <=? 971) eqn:E2; [|discriminate H].
    apply Z.leb_le in E2. injection H as <- <- <-. split; [reflexivity|].
    split; [exact E2|]. left. repeat split. exact Eq.
  - apply Z.eqb_neq in Eq.
    destruct q as [|q'|q']; try discriminate H.
    destruct (e0 <=? 971) eqn:E2; [|discriminate H].
    apply Z.leb_le in E2. injection H as <- <- <-. split; [reflexivity|].
    split; [exact E2|]. right. repeat split. exact Eq.
Qed.

Lemma normal_quotient_range (n d : Z) :
  0 < n -> 0 < d ->
  let e0 := floor_log2_ratio n d - 52 in
  2 ^ 52 <= div_half_even (n * 2 ^ Z.max 0 (- e0)) (d * 2 ^ Z.max 0 e0) <= 2 ^ 53.
Proof.
  intros Hn Hd e0.
  destruct (floor_log2_ratio_spec n d Hn Hd) as [Hl Hl1].
  replace (floor_log2_ratio n d) with (e0 + 52) in Hl by (unfold e0; lia).
  replace (floor_log2_ratio n d + 1) with (e0 + 53) in Hl1 by (unfold e0; lia).
  rewrite ratio_ge_pow2_scaled in Hl, Hl1 by lia.
  pose proof (pow2_pos e0) as Pe.
  pose proof (div_half_even_bounds (n * 2 ^ Z.max 0 (- e0)) (d * 2 ^ Z.max 0 e0)
                ltac:(nia)) as Hq.
  set (q := div_half_even _ _) in *. nia.
Qed.


(** *** [round(x, 3)] *)

Lemma round_ratio_zero (s : bool) (n d : Z) :
  n <= 0 -> round_ratio s n d = S754_zero s.
Proof.
  intros Hn. unfold round_ratio.
  destruct (n <=? 0) eqn:E; [reflexivity|apply Z.leb_gt in E; lia].
Qed.

(** *** Binary64 values *)

Lemma digits2_pos_size (m : positive) : digits2_pos m = Pos.size m.
Proof. induction m as [m IH|m IH|]; simpl; now rewrite ?IH. Qed.

Lemma size_bounds (m : positive) :
  2 ^ (Zpos (Pos.size m) - 1) <= Zpos m < 2 ^ Zpos (Pos.size m).
Proof.
  induction m as [m IH|m IH|].
  - change (Pos.size m~1) with (Pos.succ (Pos.size m)).
    rewrite Pos2Z.inj_succ.
    replace (Z.succ (Zpos (Pos.size m)) - 1) with (Z.succ (Zpos (Pos.size m) - 1)) by lia.
    rewrite !Z.pow_succ_r by lia. lia.
  - change (Pos.size m~0) with (Pos.succ (Pos.size m)).
    rewrite Pos2Z.inj_succ.
    replace (Z.succ (Zpos (Pos.size m)) - 1) with (Z.succ (Zpos (Pos.size m) - 1)) by lia.
    rewrite !Z.pow_succ_r by lia. lia.
  - simpl. lia.
Qed.

(** [is_binary64] is the validity predicate of the Standard Library at
    [prec = 53] and [emax = 1024]. *)
Lemma is_binary64_valid_binary (x : float) :
  is_binary64 x = SpecFloat.valid_binary 53 1024 x.
Proof.
  destruct x as [| | |s m e]; try reflexivity.
  unfold is_binary64, SpecFloat.valid_binary, bounded, canonical_mantissa, fexp, emin.
  rewrite digits2_pos_size.
  pose proof (size_bounds m) as [Hlo Hhi].
  set (b := Zpos (Pos.size m)) in *.
  assert (Hb : 0 < b) by (unfold b; lia).
  change (3 - 1024 - 53) with (-1074). change (1024 - 53) with 971.
  assert (H53 : Zpos m < 2 ^ 53 <-> b <= 53).
  { split; intros H.
    - destruct (Z.le_gt_cases b 53) as [|Hgt]; [assumption|].
      assert (2 ^ 53 <= 2 ^ (b - 1)) by (apply Z.pow_le_mono_r; lia). lia.
    - assert (2 ^ b <= 2 ^ 53) by (apply Z.pow_le_mono_r; lia). lia. }
  assert (H52 : 2 ^ 52 <= Zpos m <-> 53 <= b).
  { split; intros H.
    - destruct (Z.le_gt_cases 53 b) as [|Hlt]; [assumption|].
      assert (2 ^ b <= 2 ^ 52) by (apply Z.pow_le_mono_r; lia). lia.
    - assert (2 ^ 52 <= 2 ^ (b - 1)) by (apply Z.pow_le_mono_r; lia). lia. }
  destruct (Zpos m <? 2 ^ 53) eqn:E1; destruct (-1074 <=? e) eqn:E2;
    destruct (e <=? 971) eqn:E3; destruct (2 ^ 52 <=? Zpos m) eqn:E4;
    destruct (e =? -1074) eqn:E5;
    destruct (Z.max (b + e - 53) (-1074) =? e) eqn:E6;
    simpl; try reflexivity; exfalso;
    rewrite ?Z.ltb_lt, ?Z.ltb_ge, ?Z.leb_le, ?Z.leb_gt, ?Z.eqb_eq, ?Z.eqb_neq in *;
    lia.
Qed.

(** What [round_ratio] returns is a binary64 value. *)
Lemma round_ratio_binary64 (s : bool) (n d : Z) :
  0 < d -> is_binary64 (round_ratio s n d) = true.
Proof.
  intros Hd.
  destruct (round_ratio s n d) as [| | |s' p e] eqn:E; try reflexivity.
  assert (Hn : 0 < n).
  { destruct (Z.le_gt_cases n 0) as [H|H]; [|lia].
    rewrite round_ratio_zero in E by exact H. discriminate E. }
  pose proof (round_ratio_finite_inv _ _ _ _ _ _ E) as (_ & He971 & Hq).
  cbv zeta in Hq.
  set (lg := floor_log2_ratio n d) in *.
  set (e0 := Z.max (lg - 52) (-1074)) in *.
  assert (Hrange : (e0 = lg - 52 -> 2 ^ 52 <= div_half_even (n * 2 ^ Z.max 0 (- e0)) (d * 2 ^ Z.max 0 e0))
                   /\ div_half_even (n * 2 ^ Z.max 0 (- e0)) (d * 2 ^ Z.max 0 e0) <= 2 ^ 53).
  { destruct (floor_log2_ratio_spec n d Hn Hd) as [Hl Hl1]. fold lg in Hl, Hl1.
    pose proof (pow2_pos e0) as Pe.
    pose proof (div_half_even_bounds (n * 2 ^ Z.max 0 (- e0)) (d * 2 ^ Z.max 0 e0)
                  ltac:(nia)) as Hb.
    set (q := div_half_even _ _) in *.
    split.
    - intros He0. replace lg with (e0 + 52) in Hl by lia.
      rewrite ratio_ge_pow2_scaled in Hl by lia. nia.
    - assert (Hl2 : ~ ratio_ge_pow2 (e0 + 53) n d).
      { intros H. apply Hl1. apply (ratio_ge_pow2_mono _ (e0 + 53)); [exact Hd|lia|exact H]. }
      rewrite ratio_ge_pow2_scaled in Hl2 by lia. nia. }
  destruct Hrange as [Hlo Hhi].
  set (q := div_half_even _ _) in *.
  unfold is_binary64.
  destruct Hq as [(Hq1 & Hp & He)|(Hq1 & Hp & He)].
  - rewrite Hp. subst e.
    destruct (-1074 <=? e0 + 1) eqn:E2; [|apply Z.leb_gt in E2; lia].
    destruct (e0 + 1 <=? 971) eqn:E3; [|apply Z.leb_gt in E3; lia].
    reflexivity.
  - rewrite Hp. subst e.
    destruct (q <? 2 ^ 53) eqn:E1; [|apply Z.ltb_ge in E1; lia].
    destruct (-1074 <=? e0) eqn:E2; [|apply Z.leb_gt in E2; lia].
    destruct (e0 <=? 971) eqn:E3; [|apply Z.leb_gt in E3; lia].
    simpl.
    destruct (2 ^ 52 <=? q) eqn:E4; [reflexivity|]. apply Z.leb_gt in E4.
    destruct (e0 =? -1074) eqn:E5; [reflexivity|]. apply Z.eqb_neq in E5.
    exfalso. assert (e0 = lg - 52) by lia. specialize (Hlo ltac:(assumption)). lia.
Qed.

Lemma round_binary64 (x : float) (ndigits : nat) :
  is_binary64 x = true -> is_binary64 (round x ndigits) = true.
Proof.
  intros Hx. destruct x as [| | |s m e]; try reflexivity.
  unfold round. apply round_ratio_binary64.
  apply Z.pow_pos_nonneg; lia.
Qed.

(** A float read from a numeral with three decimals is rounded to itself. *)
Lemma round_of_thousandths (s : bool) (N : Z) :
  round (round_ratio s N 1000) 3 = round_ratio s N 1000.
Proof.
  destruct (round_ratio s N 1000) as [| | |s' p e] eqn:E; try reflexivity.
  assert (HN : 0 < N).
  { destruct (Z.le_gt_cases N 0) as [H|H]; [|lia].
    rewrite round_ratio_zero in E by exact H. discriminate E. }
  pose proof (round_ratio_finite_inv _ _ _ _ _ _ E) as (-> & He971 & Hq).
  pose proof (normal_quotient_range N 1000 HN ltac:(lia)) as Hrange.
  cbv zeta in Hq, Hrange.
  set (lg := floor_log2_ratio N 1000) in *.
  set (e0 := Z.max (lg - 52) (-1074)) in *.
  unfold round. change (10 ^ Z.of_nat 3) with 1000.
  set (N' := div_half_even _ _).
  destruct (Z.le_gt_cases e (-10)) as [Hsmall|Hbig].
  - (* the float has a spacing below 1/1000: N is recovered *)
    assert (He0 : e0 <= -10) by lia.
    rewrite (Z.max_l 0 e0), (Z.max_r 0 (- e0)) in Hq by lia.
    change (2 ^ 0) with 1 in Hq.
    pose proof (div_half_even_bounds (N * 2 ^ (- e0)) (1000 * 1) ltac:(lia)) as Hb.
    set (q := div_half_even (N * 2 ^ (- e0)) (1000 * 1)) in *.
    assert (Hpow : 1024 <= 2 ^ (- e)).
    { change 1024 with (2 ^ 10). apply Z.pow_le_mono_r; lia. }
    assert (HN' : N' = N).
    { unfold N'. rewrite (Z.max_l 0 e), (Z.max_r 0 (- e)) by lia.
      apply div_half_even_unique; [lia|].
      destruct Hq as [(Hq1 & Hp & He)|(Hq1 & Hp & He)].
      - replace (- e0) with (- e + 1) in Hb by lia.
        rewrite Z.pow_add_r in Hb by lia. change (2 ^ 1) with 2 in Hb.
        change (2 ^ 0) with 1. lia.
      - subst e. change (2 ^ 0) with 1. lia. }
    rewrite HN'. exact E.
  - (* the float has a spacing above 1/1000: it is the nearest to N' / 1000 *)
    assert (He0 : e0 = lg - 52) by lia.
    rewrite <- He0 in Hrange.
    assert (Hm : 2 ^ 52 <= Zpos p < 2 ^ 53) by lia.
    destruct (Z.le_gt_cases 0 e) as [Hpos|Hneg].
    + assert (HN' : N' = Zpos p * 1000 * 2 ^ e).
      { unfold N'. rewrite (Z.max_r 0 e), (Z.max_l 0 (- e)) by lia.
        change (2 ^ 0) with 1.
        rewrite <- (Z.mul_1_r (Zpos p * 1000 * 2 ^ e)) at 1.
        apply div_half_even_exact. lia. }
      pose proof (Z.pow_pos_nonneg 2 e ltac:(lia) Hpos) as Pe.
      assert (H1 : 0 < N') by (rewrite HN'; apply Z.mul_pos_pos; lia).
      assert (H2 : ratio_ge_pow2 (e + 52) N' 1000).
      { rewrite ratio_ge_pow2_scaled by lia.
        rewrite (Z.max_r 0 e), (Z.max_l 0 (- e)) by lia.
        change (2 ^ 0) with 1. rewrite HN'. nia. }
      assert (H3 : Z.abs (2 * (Zpos p * (1000 * 2 ^ Z.max 0 e) - N' * 2 ^ Z.max 0 (- e)))
                   < 1000 * 2 ^ Z.max 0 e).
      { rewrite (Z.max_r 0 e), (Z.max_l 0 (- e)) by lia.
        change (2 ^ 0) with 1. rewrite HN'.
        replace (Zpos p * (1000 * 2 ^ e) - Zpos p * 1000 * 2 ^ e * 1) with 0 by ring.
        simpl. lia. }
      apply (round_ratio_normal s N' 1000 (Zpos p) e); first [assumption | lia].
    + assert (Hb : - 2 ^ (- e) <= 2 * (N' * 2 ^ (- e) - Zpos p * 1000) <= 2 ^ (- e)).
      { unfold N'. rewrite (Z.max_l 0 e), (Z.max_r 0 (- e)) by lia.
        change (2 ^ 0) with 1. rewrite Z.mul_1_r.
        apply div_half_even_bounds. apply Z.pow_pos_nonneg; lia. }
      clearbody N'.
      assert (HD : exists D, 2 ^ (- e) = D
                /\ (D = 512 \/ D = 256 \/ D = 128 \/ D = 64 \/ D = 32
                    \/ D = 16 \/ D = 8 \/ D = 4 \/ D = 2)).
      { assert (Hcases : e = -9 \/ e = -8 \/ e = -7 \/ e = -6 \/ e = -5
                         \/ e = -4 \/ e = -3 \/ e = -2 \/ e = -1) by lia.
        destruct Hcases as [->|[->|[->|[->|[->|[->|[->|[->| ->]]]]]]]];
          eexists; (split; [reflexivity|]); lia. }
      destruct HD as (D & HD & HDcases). rewrite HD in Hb.
      assert (H1 : 0 < N') by lia.
      assert (H2 : ratio_ge_pow2 (e + 52) N' 1000).
      { rewrite ratio_ge_pow2_scaled by lia.
        rewrite (Z.max_l 0 e), (Z.max_r 0 (- e)) by lia.
        change (2 ^ 0) with 1. rewrite HD. lia. }
      assert (H3 : Z.abs (2 * (Zpos p * (1000 * 2 ^ Z.max 0 e) - N' * 2 ^ Z.max 0 (- e)))
                   < 1000 * 2 ^ Z.max 0 e).
      { rewrite (Z.max_l 0 e), (Z.max_r 0 (- e)) by lia.
        change (2 ^ 0) with 1. rewrite HD. lia. }
      apply (round_ratio_normal s N' 1000 (Zpos p) e); first [assumption | lia].
Qed.

(** [round(x, 3)] is idempotent. *)
Lemma round_idempotent (x : float) : round (round x 3) 3 = round x 3.
Proof.
  destruct x as [| | |s m e]; try reflexivity.
  unfold round at 2 3. change (10 ^ Z.of_nat 3) with 1000.
  apply round_of_thousandths.
Qed.

(** The result of [round(x, 3)] on a finite [x = m * 2^e] is read from the
    numeral [N / 1000], for an integer [N] nearest to [1000 * x]. *)
Lemma round_nearest_thousandth (s : bool) (m : positive) (e : Z) :
  exists N : Z,
    round (S754_finite s m e) 3 = round_ratio s N 1000
    /\ Z.abs (2 * (N * 2 ^ Z.max 0 (- e) - 1000 * Zpos m * 2 ^ Z.max 0 e))
       <= 2 ^ Z.max 0 (- e).
Proof.
  unfold round. change (10 ^ Z.of_nat 3) with 1000.
  eexists. split; [reflexivity|].
  pose proof (div_half_even_bounds (Zpos m * 1000 * 2 ^ Z.max 0 e)
                (2 ^ Z.max 0 (- e)) (pow2_pos (- e))) as Hb.
  set (N := div_half_even _ _) in *. lia.
Qed.

End PyFacts.

(** ** Numerals: what [str] writes reads back as the float *)

Module Numerals.
Import Py PyFacts.
Local Open Scope Z_scope.

Lemma floor_log2_ratio_lt (n d g : Z) :
  0 < n -> 0 < d -> ~ ratio_ge_pow2 g n d -> floor_log2_ratio n d < g.
Proof.
  intros Hn Hd Hg. destruct (floor_log2_ratio_spec n d Hn Hd) as [Hl _].
  destruct (Z.lt_ge_cases (floor_log2_ratio n d) g) as [H|H]; [exact H|].
  exfalso. apply Hg.
  apply (ratio_ge_pow2_mono _ (floor_log2_ratio n d)); [exact Hd|lia|exact Hl].
Qed.

Lemma is_binary64_finite (s : bool) (m : positive) (e : Z) :
  is_binary64 (S754_finite s m e) = true ->
  Zpos m < 2 ^ 53 /\ -1074 <= e <= 971 /\ (2 ^ 52 <= Zpos m \/ e = -1074).
Proof.
  unfold is_binary64. intros H.
  apply andb_true_iff in H. destruct H as [H H4].
  apply andb_true_iff in H. destruct H as [H H3].
  apply andb_true_iff in H. destruct H as [H1 H2].
  apply orb_true_iff in H4.
  rewrite Z.ltb_lt in H1. rewrite Z.leb_le in H2, H3, H4. rewrite Z.eqb_eq in H4.
  lia.
Qed.

(** A binary64 value strictly nearer to [n / d] than its neighbours is what
    [round_ratio] returns; below a power of two the lower neighbour is at
    half the distance. *)
Lemma round_ratio_nearest (s : bool) (n d : Z) (m : positive) (e : Z) :
  0 < n -> 0 < d ->
  is_binary64 (S754_finite s m e) = true ->
  2 * Z.abs (Zpos m * (d * 2 ^ Z.max 0 e) - n * 2 ^ Z.max 0 (- e))
    < d * 2 ^ Z.max 0 e ->
  (Zpos m = 2 ^ 52 ->
   4 * (Zpos m * (d * 2 ^ Z.max 0 e) - n * 2 ^ Z.max 0 (- e)) < d * 2 ^ Z.max 0 e) ->
  round_ratio s n d = S754_finite s m e.
Proof.
  intros Hn Hd Hx Hnear Hpow2.
  apply is_binary64_finite in Hx. destruct Hx as (Hm53 & He & Hnorm).
  pose proof (pow2_pos e) as Pe. pose proof (pow2_pos (- e)) as Pne.
  set (A := n * 2 ^ Z.max 0 (- e)) in *. set (B := d * 2 ^ Z.max 0 e) in *.
  assert (HB : 0 < B) by (unfold B; nia).
  destruct (Z.le_gt_cases (2 ^ 52 * B) A) as [Hge|Hlt].
  - (* the ratio lies in the binade of the float *)
    assert (Hm52 : 2 ^ 52 <= Zpos m) by nia.
    assert (H1 : ratio_ge_pow2 (e + 52) n d)
      by (rewrite ratio_ge_pow2_scaled by lia; exact Hge).
    assert (H2 : Z.abs (2 * (Zpos m * B - A)) < B) by lia.
    apply (round_ratio_normal s n d (Zpos m) e); first [assumption | lia].
  - (* the ratio lies below the binade, or the float is subnormal *)
    assert (Hnot : ~ ratio_ge_pow2 (e + 52) n d).
    { rewrite ratio_ge_pow2_scaled by lia. fold A B. lia. }
    pose proof (floor_log2_ratio_lt n d _ Hn Hd Hnot) as Hlg.
    unfold round_ratio.
    destruct (n <=? 0) eqn:E0; [apply Z.leb_le in E0; lia|].
    destruct (Z.eq_dec e (-1074)) as [He74|He74].
    + replace (Z.max (floor_log2_ratio n d - 52) (-1074)) with e by lia.
      fold A B.
      rewrite (div_half_even_unique A B (Zpos m)) by lia.
      destruct (Zpos m =? 2 ^ 53) eqn:E1; [apply Z.eqb_eq in E1; lia|].
      destruct (e <=? 971) eqn:E2; [reflexivity|apply Z.leb_gt in E2; lia].
    + assert (Hm : Zpos m = 2 ^ 52) by nia.
      specialize (Hpow2 Hm).
      assert (Hlg' : floor_log2_ratio n d = e + 51).
      { apply floor_log2_ratio_unique; [exact Hn|exact Hd| |].
        - rewrite ratio_ge_pow2_scaled by lia. fold A B. nia.
        - replace (e + 51 + 1) with (e + 52) by lia. exact Hnot. }
      rewrite Hlg'. replace (Z.max (e + 51 - 52) (-1074)) with (e - 1) by lia.
      assert (Hq : div_half_even (n * 2 ^ Z.max 0 (- (e - 1))) (d * 2 ^ Z.max 0 (e - 1))
                   = 2 ^ 53).
      { pose proof (pow2_pos (e - 1)) as Pe1.
        apply div_half_even_unique; [nia|].
        destruct (Z.le_gt_cases 1 e) as [Hpos|Hneg].
        - assert (HB2 : B = 2 * (d * 2 ^ Z.max 0 (e - 1))).
          { unfold B. rewrite !Z.max_r by lia.
            replace e with (Z.succ (e - 1)) at 1 by lia.
            rewrite Z.pow_succ_r by lia. ring. }
          assert (HA2 : A = n * 2 ^ Z.max 0 (- (e - 1))).
          { unfold A. rewrite !Z.max_l by lia. reflexivity. }
          rewrite <- HA2. set (B' := d * 2 ^ Z.max 0 (e - 1)) in *. lia.
        - assert (HB2 : B = d * 2 ^ Z.max 0 (e - 1)).
          { unfold B. rewrite !Z.max_l by lia. reflexivity. }
          assert (HA2 : n * 2 ^ Z.max 0 (- (e - 1)) = 2 * A).
          { unfold A. rewrite !Z.max_r by lia.
            replace (- (e - 1)) with (Z.succ (- e)) by lia.
            rewrite Z.pow_succ_r by lia. ring. }
          rewrite <- HB2, HA2. lia. }
      rewrite Hq. simpl (2 ^ 53 =? 2 ^ 53).
      replace (e - 1 + 1) with e by lia.
      destruct (e <=? 971) eqn:E2; [|apply Z.leb_gt in E2; lia].
      change (2 ^ 52) with (Zpos 4503599627370496) in *.
      injection Hm as <-. reflexivity.
Qed.

(** A binary64 value is the nearest float of its own ratio. *)
Lemma round_ratio_exact (s : bool) (m : positive) (e : Z) :
  is_binary64 (S754_finite s m e) = true ->
  round_ratio s (Zpos m * 2 ^ Z.max 0 e) (2 ^ Z.max 0 (- e)) = S754_finite s m e.
Proof.
  intros Hx. pose proof (pow2_pos e) as Pe. pose proof (pow2_pos (- e)) as Pne.
  assert (H0 : Zpos m * (2 ^ Z.max 0 (- e) * 2 ^ Z.max 0 e)
               - Zpos m * 2 ^ Z.max 0 e * 2 ^ Z.max 0 (- e) = 0) by ring.
  apply round_ratio_nearest; try nia; try exact Hx.
Qed.

Lemma div_half_even_scale (n d t : Z) :
  0 < d -> 0 < t -> div_half_even (n * t) (d * t) = div_half_even n d.
Proof.
  intros Hd Ht. unfold div_half_even.
  rewrite Z.div_mul_cancel_r by lia.
  rewrite Zmult_mod_distr_r.
  pose proof (Z.mod_pos_bound n d Hd) as Hr.
  replace (2 * (n mod d * t) <? d * t) with (2 * (n mod d) <? d)
    by (destruct (2 * (n mod d) <? d) eqn:E1; symmetry;
        [apply Z.ltb_lt in E1; apply Z.ltb_lt; nia
        |apply Z.ltb_ge in E1; apply Z.ltb_ge; nia]).
  replace (2 * (n mod d * t) =? d * t) with (2 * (n mod d) =? d)
    by (destruct (2 * (n mod d) =? d) eqn:E1; symmetry;
        [apply Z.eqb_eq in E1; apply Z.eqb_eq; nia
        |apply Z.eqb_neq in E1; apply Z.eqb_neq; nia]).
  reflexivity.
Qed.

Lemma ratio_ge_pow2_scale (a n d t : Z) :
  0 < t -> ratio_ge_pow2 a (n * t) (d * t) <-> ratio_ge_pow2 a n d.
Proof.
  intros Ht. unfold ratio_ge_pow2.
  pose proof (pow2_pos a). pose proof (pow2_pos (- a)). split; intros; nia.
Qed.

Lemma round_ratio_scale (s : bool) (n d t : Z) :
  0 < d -> 0 < t -> round_ratio s (n * t) (d * t) = round_ratio s n d.
Proof.
  intros Hd Ht.
  destruct (Z.le_gt_cases n 0) as [Hn|Hn].
  - rewrite !round_ratio_zero by nia. reflexivity.
  - assert (Hlg : floor_log2_ratio (n * t) (d * t) = floor_log2_ratio n d).
    { destruct (floor_log2_ratio_spec n d Hn Hd) as [Hl Hl1].
      apply floor_log2_ratio_unique; try nia.
      - now apply ratio_ge_pow2_scale.
      - now rewrite ratio_ge_pow2_scale. }
    unfold round_ratio. rewrite Hlg.
    destruct (n <=? 0) eqn:E0; [apply Z.leb_le in E0; lia|].
    destruct (n * t <=? 0) eqn:E1; [apply Z.leb_le in E1; nia|].
    set (e := Z.max (floor_log2_ratio n d - 52) (-1074)).
    replace (n * t * 2 ^ Z.max 0 (- e)) with (n * 2 ^ Z.max 0 (- e) * t) by ring.
    replace (d * t * 2 ^ Z.max 0 e) with (d * 2 ^ Z.max 0 e * t) by ring.
    rewrite div_half_even_scale; [reflexivity| |exact Ht].
    pose proof (pow2_pos e). nia.
Qed.

(** Equal ratios have the same nearest float. *)
Lemma round_ratio_ext (s : bool) (n1 d1 n2 d2 : Z) :
  0 < d1 -> 0 < d2 -> n1 * d2 = n2 * d1 ->
  round_ratio s n1 d1 = round_ratio s n2 d2.
Proof.
  intros H1 H2 Heq.
  rewrite <- (round_ratio_scale s n1 d1 d2) by assumption.
  rewrite <- (round_ratio_scale s n2 d2 d1) by assumption.
  rewrite Heq. f_equal. ring.
Qed.


(** *** The digits of [str] *)

Lemma count_digits_lower (fuel : nat) : forall q p : Z,
  1 <= q ->
  p <= count_digits fuel q p /\ 10 ^ (count_digits fuel q p - p) <= q.
Proof.
  induction fuel as [|fuel IH]; intros q p Hq; simpl.
  - rewrite Z.sub_diag. simpl. lia.
  - destruct (q <? 10) eqn:E.
    + rewrite Z.sub_diag. simpl. lia.
    + apply Z.ltb_ge in E.
      assert (Hq10 : 1 <= q / 10) by (apply Z.div_le_lower_bound; lia).
      destruct (IH (q / 10) (p + 1) Hq10) as [Hp Hpow]. split; [lia|].
      replace (count_digits fuel (q / 10) (p + 1) - p)
        with (Z.succ (count_digits fuel (q / 10) (p + 1) - (p + 1))) by lia.
      rewrite Z.pow_succ_r by lia.
      pose proof (Z.mul_div_le q 10 ltac:(lia)). lia.
Qed.

Lemma count_leading_zeros_lower (fuel : nat) : forall n d p : Z,
  0 < n -> d <= n * 10 ^ Z.of_nat fuel ->
  count_leading_zeros fuel n d p <= p
  /\ d <= n * 10 ^ (p - count_leading_zeros fuel n d p + 1).
Proof.
  induction fuel as [|fuel IH]; intros n d p Hn Hd; simpl count_leading_zeros.
  - rewrite Z.sub_diag. simpl in *. lia.
  - destruct (d <=? 10 * n) eqn:E.
    + apply Z.leb_le in E. rewrite Z.sub_diag. simpl. lia.
    + rewrite Nat2Z.inj_succ, Z.pow_succ_r in Hd by lia.
      destruct (IH (10 * n) d (p - 1) ltac:(lia) ltac:(lia)) as [Hp Hpow].
      split; [lia|].
      replace (p - count_leading_zeros fuel (10 * n) d (p - 1) + 1)
        with (Z.succ (p - 1 - count_leading_zeros fuel (10 * n) d (p - 1) + 1)) by lia.
      rewrite Z.pow_succ_r by lia. lia.
Qed.

(** The decimal point position is not too high: [10^(p-1) <= n / d]. *)
Lemma decimal_point_lower (n d : Z) :
  0 < n -> 0 < d -> d <= n * 10 ^ 400 ->
  d * 10 ^ Z.max 0 (decimal_point n d - 1) <= n * 10 ^ Z.max 0 (1 - decimal_point n d).
Proof.
  intros Hn Hd Hfuel. unfold decimal_point.
  destruct (d <=? n) eqn:E.
  - apply Z.leb_le in E.
    assert (Hq : 1 <= n / d) by (apply Z.div_le_lower_bound; lia).
    destruct (count_digits_lower 400 (n / d) 1 Hq) as [Hp Hpow].
    set (p := count_digits 400 (n / d) 1) in *.
    rewrite (Z.max_r 0 (p - 1)), (Z.max_l 0 (1 - p)) by lia.
    change (10 ^ 0) with 1.
    pose proof (Z.mul_div_le n d Hd). nia.
  - destruct (count_leading_zeros_lower 400 n d 0 Hn Hfuel) as [Hp Hpow].
    set (p := count_leading_zeros 400 n d 0) in *.
    rewrite (Z.max_l 0 (p - 1)), (Z.max_r 0 (1 - p)) by lia.
    change (10 ^ 0) with 1. replace (1 - p) with (0 - p + 1) by lia. lia.
Qed.

Lemma pow10_pos (a : Z) : 0 < 10 ^ Z.max 0 a.
Proof. apply Z.pow_pos_nonneg; lia. Qed.

Lemma pow10_shift (p : Z) :
  10 ^ Z.max 0 (p - 17) * 10 ^ 16 * 10 ^ Z.max 0 (1 - p)
  = 10 ^ Z.max 0 (17 - p) * 10 ^ Z.max 0 (p - 1).
Proof.
  rewrite <- !Z.pow_add_r by lia. f_equal. lia.
Qed.

(** The arithmetic of seventeen digits: with [X] half a unit of the 17th
    digit and [Y] a unit in the last place (scaled alike), [X * 10^16] is at
    most [m * Y], so an integer [c] within [X / 2] of [m * Y / X] puts
    [c * X] within [Y / 2] of [m * Y]. *)
Lemma seventeen_digits_arith (m c X Y : Z) :
  0 < X -> 0 < Y -> 0 < m < 2 ^ 53 ->
  X * 10 ^ 16 <= m * Y ->
  - X <= 2 * (c * X - m * Y) <= X ->
  0 < c
  /\ 2 * Z.abs (m * Y - c * X) < Y
  /\ (m = 2 ^ 52 -> 4 * (m * Y - c * X) < Y).
Proof.
  intros HX HY Hm HK Hc.
  change (10 ^ 16) with 10000000000000000 in HK.
  change (2 ^ 53) with 9007199254740992 in Hm.
  change (2 ^ 52) with 4503599627370496.
  assert (HmY : m * Y <= 9007199254740991 * Y)
    by (apply Z.mul_le_mono_nonneg_r; lia).
  set (W := c * X) in *. set (V := m * Y) in *.
  assert (HW : 0 < W) by lia.
  split; [|split].
  - destruct (Z.le_gt_cases c 0) as [Hle|Hgt]; [|exact Hgt].
    exfalso. assert (W <= 0) by (unfold W; apply Z.mul_nonpos_nonneg; lia). lia.
  - lia.
  - intros Hm52. assert (V = 4503599627370496 * Y) by (unfold V; now rewrite Hm52).
    lia.
Qed.

(** Seventeen digits read back: the nearest 17-digit decimal of a binary64
    value rounds to it. *)
Lemma seventeen_digits (m : positive) (e p : Z) :
  is_binary64 (S754_finite false m e) = true ->
  let n := Zpos m * 2 ^ Z.max 0 e in
  let d := 2 ^ Z.max 0 (- e) in
  d * 10 ^ Z.max 0 (p - 1) <= n * 10 ^ Z.max 0 (1 - p) ->
  let c := div_half_even (n * 10 ^ Z.max 0 (17 - p)) (d * 10 ^ Z.max 0 (p - 17)) in
  round_ratio false (c * 10 ^ Z.max 0 (p - 17)) (10 ^ Z.max 0 (17 - p))
  = S754_finite false m e.
Proof.
  intros Hx n d Hp c.
  pose proof (is_binary64_finite _ _ _ Hx) as (Hm53 & He & Hnorm).
  pose proof (pow2_pos e) as PE1. pose proof (pow2_pos (- e)) as PE2.
  pose proof (pow10_pos (p - 17)) as PP1. pose proof (pow10_pos (17 - p)) as PP2.
  pose proof (pow10_pos (p - 1)) as PT1. pose proof (pow10_pos (1 - p)) as PT2.
  pose proof (pow10_shift p) as Hshift.
  assert (Hden : 0 < d * 10 ^ Z.max 0 (p - 17))
    by (apply Z.mul_pos_pos; assumption).
  pose proof (div_half_even_bounds (n * 10 ^ Z.max 0 (17 - p))
                (d * 10 ^ Z.max 0 (p - 17)) Hden) as Hc.
  fold c in Hc. unfold n, d in *. clear n d.
  set (E1 := 2 ^ Z.max 0 e) in *. set (E2 := 2 ^ Z.max 0 (- e)) in *.
  set (P1 := 10 ^ Z.max 0 (p - 17)) in *. set (P2 := 10 ^ Z.max 0 (17 - p)) in *.
  set (T1 := 10 ^ Z.max 0 (p - 1)) in *. set (T2 := 10 ^ Z.max 0 (1 - p)) in *.
  clearbody c.
  assert (HY : 0 < P2 * E1) by (apply Z.mul_pos_pos; assumption).
  (* half a unit of the 17th digit against a unit in the last place *)
  assert (K : E2 * P1 * 10 ^ 16 <= Zpos m * (P2 * E1)).
  { apply (Z.mul_le_mono_pos_r _ _ T2 PT2).
    replace (E2 * P1 * 10 ^ 16 * T2) with (E2 * (P1 * 10 ^ 16 * T2)) by ring.
    rewrite Hshift.
    replace (E2 * (P2 * T1)) with (P2 * (E2 * T1)) by ring.
    replace (Zpos m * (P2 * E1) * T2) with (P2 * (Zpos m * E1 * T2)) by ring.
    apply Z.mul_le_mono_nonneg_l; lia. }
  assert (Hc' : - (E2 * P1) <= 2 * (c * (E2 * P1) - Zpos m * (P2 * E1)) <= E2 * P1).
  { replace (Zpos m * (P2 * E1)) with (Zpos m * E1 * P2) by ring. exact Hc. }
  destruct (seventeen_digits_arith (Zpos m) c (E2 * P1) (P2 * E1)
              Hden HY ltac:(lia) K Hc') as (Hcpos & Hnear & Hpow2).
  apply round_ratio_nearest.
  - apply Z.mul_pos_pos; assumption.
  - exact PP2.
  - exact Hx.
  - fold E1 E2. replace (c * P1 * E2) with (c * (E2 * P1)) by ring. exact Hnear.
  - intros Hm. fold E1 E2. replace (c * P1 * E2) with (c * (E2 * P1)) by ring.
    now apply Hpow2.
Qed.

Lemma float_same_eq (x y : float) : float_same x y = true -> x = y.
Proof.
  destruct x as [a|a| |a m e], y as [b|b| |b m' e']; simpl; try discriminate;
    try reflexivity.
  - intros H. apply eqb_prop in H. now subst.
  - intros H. apply eqb_prop in H. now subst.
  - intros H. apply andb_true_iff in H. destruct H as [H H3].
    apply andb_true_iff in H. destruct H as [H1 H2].
    apply eqb_prop in H1. apply Pos.eqb_eq in H2. apply Z.eqb_eq in H3.
    now subst.
Qed.


Lemma digits_candidate_back (k p n d c : Z) :
  digits_candidate k p n d = Some c -> read_back k p c = round_ratio false n d.
Proof.
  unfold digits_candidate, read_back.
  set (num := n * 10 ^ Z.max 0 (k - p)). set (den := d * 10 ^ Z.max 0 (p - k)).
  destruct (float_same _ (round_ratio false n d)) eqn:Elo;
    destruct (float_same (round_ratio false ((num / den + 1) * _) _) _) eqn:Ehi;
    intros H; try discriminate H; injection H as <-.
  - unfold div_half_even.
    destruct (2 * (num mod den) <? den); [now apply float_same_eq|].
    destruct (2 * (num mod den) =? den); [|now apply float_same_eq].
    destruct (Z.even (num / den)); now apply float_same_eq.
  - now apply float_same_eq.
  - now apply float_same_eq.
Qed.

Lemma shortest_digits_back (fuel : nat) : forall k p n d : Z,
  k + Z.of_nat fuel = 17 ->
  read_back 17 p (div_half_even (n * 10 ^ Z.max 0 (17 - p)) (d * 10 ^ Z.max 0 (p - 17)))
  = round_ratio false n d ->
  read_back (snd (shortest_digits fuel k p n d)) p (fst (shortest_digits fuel k p n d))
  = round_ratio false n d.
Proof.
  induction fuel as [|fuel IH]; intros k p n d Hk H17; simpl shortest_digits.
  - simpl in Hk. replace k with 17 by lia. exact H17.
  - destruct (digits_candidate k p n d) as [c|] eqn:E.
    + simpl. now apply digits_candidate_back.
    + apply IH; [lia|exact H17].
Qed.

Lemma strip_zeros_value (fuel : nat) : forall c z : Z,
  0 <= c ->
  let r := strip_zeros fuel c z in
  0 <= fst r /\ z <= snd r /\ c = fst r * 10 ^ (snd r - z).
Proof.
  induction fuel as [|fuel IH]; intros c z Hc; simpl.
  - rewrite Z.sub_diag. simpl. lia.
  - destruct ((c mod 10 =? 0) && (0 <? c)) eqn:E.
    + apply andb_true_iff in E. destruct E as [E1 E2].
      apply Z.eqb_eq in E1. apply Z.ltb_lt in E2.
      assert (Hc10 : 0 <= c / 10) by (apply Z.div_pos; lia).
      destruct (IH (c / 10) (z + 1) Hc10) as (H1 & H2 & H3).
      cbv zeta. split; [exact H1|]. split; [lia|].
      set (r := strip_zeros fuel (c / 10) (z + 1)) in *.
      replace (snd r - z) with (Z.succ (snd r - (z + 1))) by lia.
      rewrite Z.pow_succ_r by lia.
      pose proof (Z.div_mod c 10 ltac:(lia)). lia.
    + simpl. rewrite Z.sub_diag. simpl. lia.
Qed.

Example value_of_name_0_8 : value_of_name "e__0_8" = Some (round_ratio false 8 10).
Proof. vm_compute. reflexivity. Qed.
Example value_of_name_exp : value_of_name "e__1_5e-07" = Some (round_ratio false 15 (10 ^ 8)).
Proof. vm_compute. reflexivity. Qed.
Example value_of_name_neg : value_of_name "e__-0_5" = Some (round_ratio true 5 10).
Proof. vm_compute. reflexivity. Qed.
Example value_of_name_big : value_of_name "e__1e+16" = Some (round_ratio false (10 ^ 16) 1).
Proof. vm_compute. reflexivity. Qed.
Example value_of_name_inf : value_of_name "e__-inf" = Some (S754_infinity true).
Proof. vm_compute. reflexivity. Qed.
Example value_of_name_zero : value_of_name "e__-0_0" = Some (S754_zero true).
Proof. vm_compute. reflexivity. Qed.

Lemma append_cons (x : ascii) (a b : string) :
  String x a +:+ b = String x (a +:+ b).
Proof. reflexivity. Qed.

Lemma append_nil (b : string) : "" +:+ b = b.
Proof. reflexivity. Qed.

Lemma append_assoc (a b c : string) : (a +:+ b) +:+ c = a +:+ (b +:+ c).
Proof.
  induction a as [|x a IH]; rewrite ?append_nil, ?append_cons;
    [reflexivity|now rewrite IH].
Qed.

Lemma length_append (a b : string) :
  String.length (a +:+ b) = (String.length a + String.length b)%nat.
Proof.
  induction a as [|x a IH]; rewrite ?append_nil, ?append_cons; simpl;
    [reflexivity|now rewrite IH].
Qed.

Lemma all_chars_append (p : ascii -> bool) (a b : string) :
  all_chars p (a +:+ b) = all_chars p a && all_chars p b.
Proof.
  induction a as [|x a IH]; rewrite ?append_nil, ?append_cons; simpl;
    [reflexivity|].
  rewrite IH. now rewrite andb_assoc.
Qed.

Lemma read_digits_append (a b : string) (acc : Z) :
  read_digits (a +:+ b) acc = read_digits b (read_digits a acc).
Proof.
  revert acc.
  induction a as [|x a IH]; intros acc; rewrite ?append_nil, ?append_cons; simpl;
    [reflexivity|].
  destruct (is_point x); apply IH.
Qed.

Lemma is_digit_plain (c : ascii) :
  is_digit c = true ->
  is_point c = false /\ Ascii.eqb c "e" = false /\ Ascii.eqb c "-" = false
  /\ Ascii.eqb c "i" = false /\ Ascii.eqb c "n" = false.
Proof.
  destruct c as [[|] [|] [|] [|] [|] [|] [|] [|]]; vm_compute; intros H;
    try discriminate H; repeat split.
Qed.

Lemma read_mantissa_digits (a : string) : forall (b : string) (acc scale : Z) (ap : bool),
  all_chars is_digit a = true ->
  read_mantissa (a +:+ b) acc scale ap
  = read_mantissa b (read_digits a acc)
      (if ap then scale - Z.of_nat (String.length a) else scale)%Z ap.
Proof.
  induction a as [|x a IH]; intros b acc scale ap Ha.
  - rewrite append_nil. simpl.
    destruct ap; [f_equal; lia|reflexivity].
  - simpl in Ha. apply andb_true_iff in Ha. destruct Ha as [Hx Ha].
    destruct (is_digit_plain x Hx) as (H1 & H2 & _).
    rewrite append_cons. cbn [read_mantissa read_digits]. rewrite H1, H2.
    rewrite IH by exact Ha.
    destruct ap; [|reflexivity]. f_equal.
    change (String.length (String x a)) with (S (String.length a)). lia.
Qed.




Lemma spells_nil : spells "" 0.
Proof. split; [reflexivity|]. intros acc. simpl. lia. Qed.

Lemma spells_append (u v : string) (M N : Z) :
  spells u M -> spells v N ->
  spells (u +:+ v) (M * 10 ^ Z.of_nat (String.length v) + N).
Proof.
  intros [Hu1 Hu2] [Hv1 Hv2]. split.
  - now rewrite all_chars_append, Hu1, Hv1.
  - intros acc. rewrite read_digits_append, Hu2, Hv2, length_append.
    rewrite Nat2Z.inj_add, Z.pow_add_r by lia. ring.
Qed.

Lemma zeros_succ (n : nat) :
  String.concat "" (repeat "0"%string (S n))
  = String "0" (String.concat "" (repeat "0"%string n)).
Proof. destruct n; reflexivity. Qed.

Lemma zeros_spells (k : Z) :
  spells (zeros k) 0 /\ String.length (zeros k) = Z.to_nat k.
Proof.
  unfold zeros. induction (Z.to_nat k) as [|n [IH1 IH2]].
  - split; [apply spells_nil|reflexivity].
  - rewrite zeros_succ. split.
    + destruct IH1 as [H1 H2]. split.
      * simpl. exact H1.
      * intros acc. cbn [read_digits String.length].
        change (is_point "0") with false. cbv iota. rewrite H2.
        rewrite Nat2Z.inj_succ, Z.pow_succ_r by lia.
        change (digit_value "0") with 0. ring.
    + simpl. now rewrite IH2.
Qed.

Lemma pretty_N_char_digit (x : N) :
  (x < 10)%N ->
  is_digit (pretty_N_char x) = true /\ digit_value (pretty_N_char x) = Z.of_N x.
Proof.
  intros Hx.
  assert (H : (x = 0 \/ x = 1 \/ x = 2 \/ x = 3 \/ x = 4 \/ x = 5 \/ x = 6
               \/ x = 7 \/ x = 8 \/ x = 9)%N) by lia.
  destruct H as [->|[->|[->|[->|[->|[->|[->|[->|[->| ->]]]]]]]]];
    split; reflexivity.
Qed.

Lemma pretty_N_go_spells (x : N) : forall s : string,
  exists u, pretty_N_go x s = u +:+ s /\ spells u (Z.of_N x)
            /\ ((0 < x)%N -> (0 < String.length u)%nat).
Proof.
  induction (N.lt_wf_0 x) as [x _ IH]. intros s.
  destruct (N.eq_dec x 0%N) as [->|Hx].
  - exists ""%string. rewrite pretty_N_go_0. split; [reflexivity|].
    split; [apply spells_nil|lia].
  - rewrite pretty_N_go_step by lia.
    assert (Hdiv : (x `div` 10 < x)%N) by (apply N.div_lt; lia).
    destruct (IH _ Hdiv (String (pretty_N_char (x `mod` 10)) s)) as (u & Hu & Hsp & _).
    destruct (pretty_N_char_digit (x `mod` 10)%N) as [Hd1 Hd2];
      [apply N.mod_lt; lia|].
    exists (u +:+ String (pretty_N_char (x `mod` 10)) ""). split; [|split].
    + rewrite Hu, append_assoc. reflexivity.
    + assert (Hlast : spells (String (pretty_N_char (x `mod` 10)) "")
                        (Z.of_N (x `mod` 10))).
      { split; [simpl; now rewrite Hd1|].
        intros acc. simpl. rewrite (proj1 (is_digit_plain _ Hd1)), Hd2. lia. }
      pose proof (spells_append _ _ _ _ Hsp Hlast) as H.
      replace (Z.of_N x)
        with (Z.of_N (x `div` 10)
              * 10 ^ Z.of_nat (String.length (String (pretty_N_char (x `mod` 10)) ""))
              + Z.of_N (x `mod` 10)); [exact H|].
      simpl String.length. change (10 ^ Z.of_nat 1) with 10.
      rewrite (N.div_mod x 10%N) at 3 by lia. lia.
    + intros _. rewrite length_append. simpl. lia.
Qed.

(** The decimal text of a natural number spells it, in at least one digit. *)
Lemma pretty_spells (x : N) :
  spells (pretty x) (Z.of_N x) /\ (0 < String.length (pretty x))%nat.
Proof.
  unfold pretty, pretty_N. destruct (decide (x = 0)%N) as [->|Hx].
  - split; [|simpl; lia]. split; [reflexivity|]. intros acc.
    cbn [read_digits String.length]. change (is_point "0") with false.
    cbv iota. change (digit_value "0") with 0.
    change (10 ^ Z.of_nat 1) with 10. change (Z.of_N 0) with 0. lia.
  - destruct (pretty_N_go_spells x "") as (u & Hu & Hsp & Hlen).
    assert (Hnil : forall v : string, v +:+ "" = v).
    { induction v as [|c v IHv]; [reflexivity|].
      rewrite append_cons. now rewrite IHv. }
    rewrite Hu, Hnil. split; [exact Hsp|]. apply Hlen. lia.
Qed.


Lemma append_nil_r (v : string) : v +:+ "" = v.
Proof.
  induction v as [|c v IHv]; [reflexivity|]. rewrite append_cons. now rewrite IHv.
Qed.

Lemma substring_all (s : string) : substring 0 (String.length s) s = s.
Proof. induction s as [|c s IH]; simpl; [reflexivity|now rewrite IH]. Qed.

Lemma substring_split (s : string) : forall a : nat,
  (a <= String.length s)%nat ->
  s = substring 0 a s +:+ substring a (String.length s - a) s
  /\ String.length (substring 0 a s) = a.
Proof.
  induction s as [|c s IH]; intros a Ha.
  - simpl in Ha. assert (a = 0%nat) as -> by lia. split; reflexivity.
  - destruct a as [|a].
    + split; [|reflexivity].
      change (substring 0 0 (String c s)) with ""%string. rewrite append_nil.
      rewrite Nat.sub_0_r. now rewrite substring_all.
    + simpl in Ha. destruct (IH a ltac:(lia)) as [H1 H2].
      change (substring 0 (S a) (String c s)) with (String c (substring 0 a s)).
      change (substring (S a) (String.length (String c s) - S a) (String c s))
        with (substring a (String.length s - a) s).
      split; [rewrite append_cons; now rewrite <- H1|simpl; now rewrite H2].
Qed.

(** A step of [read_mantissa] over the text after a string of digits. *)
Lemma read_mantissa_point (s : string) (acc scale : Z) (ap : bool) :
  read_mantissa (String "." s) acc scale ap = read_mantissa s acc scale true.
Proof. reflexivity. Qed.

Lemma read_mantissa_zero (s : string) (acc scale : Z) (ap : bool) :
  read_mantissa (String "0" s) acc scale ap
  = read_mantissa s (10 * acc + 0) (if ap then scale - 1 else scale) ap.
Proof. reflexivity. Qed.

Lemma read_mantissa_end (acc scale : Z) (ap : bool) :
  read_mantissa "" acc scale ap = (acc, scale, None).
Proof. reflexivity. Qed.

Lemma read_mantissa_mark (s : string) (acc scale : Z) (ap : bool) :
  read_mantissa (String "e" s) acc scale ap = (acc, scale, Some s).
Proof. reflexivity. Qed.

Lemma read_exponent_text (e : Z) : read_exponent (Some (exponent_text e)) = e.
Proof.
  unfold exponent_text.
  destruct (pretty_spells (Z.abs_N e)) as [[_ Hsp] _].
  assert (Hpad : forall pad : string, pad = "0"%string \/ pad = ""%string ->
            read_digits (pad +:+ pretty (Z.abs_N e)) 0 = Z.abs e).
  { intros pad Hpad. rewrite read_digits_append.
    assert (read_digits pad 0 = 0) as -> by (destruct Hpad as [->| ->]; reflexivity).
    rewrite Hsp, N2Z.inj_abs_N. lia. }
  assert (Hp : read_digits ((if Z.abs e <? 10 then "0" else "") +:+ pretty (Z.abs_N e)) 0
               = Z.abs e).
  { apply Hpad. destruct (Z.abs e <? 10); auto. }
  destruct (e <? 0) eqn:E.
  - apply Z.ltb_lt in E. rewrite append_cons, append_nil.
    cbn [read_exponent]. change (Ascii.eqb "-" "-") with true. cbv iota.
    rewrite Hp. lia.
  - apply Z.ltb_ge in E. rewrite append_cons, append_nil.
    cbn [read_exponent]. change (Ascii.eqb "+" "-") with false. cbv iota.
    rewrite Hp. lia.
Qed.

(** What [read_numeral] makes of the layout of the digits [ds], which spell
    [N], with the point at [decpt]: [N * 10^(decpt - length ds)], the
    integers of fixed notation with one more digit. *)
Lemma read_numeral_format (ds : string) (N decpt : Z) :
  spells ds N -> (0 < String.length ds)%nat ->
  let len := Z.of_nat (String.length ds) in
  read_numeral (format_repr ds decpt) = (N, decpt - len)
  \/ (len <= decpt
      /\ read_numeral (format_repr ds decpt) = (N * 10 ^ (decpt - len) * 10, -1)).
Proof.
  intros [Hdig Hsp] Hlen len. unfold format_repr. fold len.
  assert (HN : read_digits ds 0 = N) by (rewrite Hsp; lia).
  destruct ((decpt <=? -4) || (16 <? decpt)) eqn:Eexp.
  - (* exponent notation *)
    left. destruct (substring_split ds 1 ltac:(lia)) as [Hsplit Hl1].
    set (u := substring 0 1 ds) in *. set (v := substring 1 (String.length ds - 1) ds) in *.
    assert (Hall : all_chars is_digit u = true /\ all_chars is_digit v = true).
    { rewrite Hsplit, all_chars_append in Hdig. now apply andb_true_iff in Hdig. }
    destruct Hall as [Hu Hv].
    assert (Hlv : Z.of_nat (String.length v) = len - 1).
    { unfold len. rewrite Hsplit at 1. rewrite length_append, Hl1. lia. }
    unfold read_numeral. rewrite read_mantissa_digits by exact Hu.
    destruct (len =? 1) eqn:E1.
    + apply Z.eqb_eq in E1. rewrite append_nil, append_cons, read_mantissa_mark.
      assert (v = ""%string) as Hvnil.
      { destruct v; [reflexivity|]. simpl in Hlv. lia. }
      cbv beta iota zeta.
      rewrite Hvnil, append_nil_r in Hsplit. rewrite <- Hsplit, HN.
      rewrite ?append_nil, read_exponent_text. f_equal. lia.
    + rewrite append_assoc, append_cons, append_nil, read_mantissa_point.
      rewrite read_mantissa_digits by exact Hv.
      rewrite append_cons, read_mantissa_mark. cbv beta iota zeta.
      rewrite <- read_digits_append, <- Hsplit, HN.
      rewrite ?append_nil, read_exponent_text. f_equal. lia.
  - destruct (decpt <=? 0) eqn:E0.
    + (* a fraction below one *)
      left. apply Z.leb_le in E0.
      destruct (zeros_spells (- decpt)) as [[Hz1 Hz2] Hzl].
      unfold read_numeral.
      change ("0." +:+ zeros (- decpt) +:+ ds)
        with (String "0" (String "." (zeros (- decpt) +:+ ds))).
      rewrite read_mantissa_zero, read_mantissa_point.
      rewrite read_mantissa_digits by exact Hz1.
      rewrite <- (append_nil_r ds) at 1. rewrite read_mantissa_digits by exact Hdig.
      rewrite read_mantissa_end. cbv beta iota zeta. cbn [read_exponent].
      rewrite Hz2.
      replace ((10 * 0 + 0) * 10 ^ Z.of_nat (String.length (zeros (- decpt))) + 0)
        with 0 by lia.
      rewrite HN, Hzl. f_equal. unfold len. lia.
    + apply Z.leb_gt in E0. destruct (len <=? decpt) eqn:E2.
      * (* an integer *)
        right. apply Z.leb_le in E2. split; [exact E2|].
        destruct (zeros_spells (decpt - len)) as [[Hz1 Hz2] Hzl].
        unfold read_numeral. rewrite read_mantissa_digits by exact Hdig.
        rewrite read_mantissa_digits by exact Hz1.
        change ".0"%string with (String "." (String "0" "")).
        rewrite read_mantissa_point, read_mantissa_zero, read_mantissa_end.
        cbv beta iota zeta. cbn [read_exponent].
        rewrite Hz2, HN, Hzl. rewrite Z2Nat.id by lia.
        f_equal; first [ring | lia].
      * (* digits on both sides of the point *)
        left. apply Z.leb_gt in E2.
        destruct (substring_split ds (Z.to_nat decpt) ltac:(unfold len in E2; lia))
          as [Hsplit Hl1].
        set (u := substring 0 (Z.to_nat decpt) ds) in *.
        set (v := substring (Z.to_nat decpt) (String.length ds - Z.to_nat decpt) ds) in *.
        assert (Hall : all_chars is_digit u = true /\ all_chars is_digit v = true).
        { rewrite Hsplit, all_chars_append in Hdig. now apply andb_true_iff in Hdig. }
        destruct Hall as [Hu Hv].
        assert (Hlv : Z.of_nat (String.length v) = len - decpt).
        { unfold len. rewrite Hsplit at 1. rewrite length_append, Hl1. lia. }
        unfold read_numeral. rewrite read_mantissa_digits by exact Hu.
        rewrite append_cons, append_nil, read_mantissa_point.
        rewrite <- (append_nil_r v) at 1. rewrite read_mantissa_digits by exact Hv.
        rewrite read_mantissa_end. cbv beta iota zeta. cbn [read_exponent].
        rewrite <- read_digits_append, <- Hsplit, HN. f_equal. lia.
Qed.


Lemma format_repr_first (ds : string) (decpt : Z) :
  all_chars is_digit ds = true -> (0 < String.length ds)%nat ->
  exists c rest, format_repr ds decpt = String c rest /\ is_digit c = true.
Proof.
  intros Hdig Hlen. destruct ds as [|c0 ds']; [simpl in Hlen; lia|].
  simpl in Hdig. apply andb_true_iff in Hdig. destruct Hdig as [Hc0 _].
  unfold format_repr.
  destruct ((decpt <=? -4) || (16 <? decpt)).
  - exists c0. eexists. split; [|exact Hc0].
    change (substring 0 1 (String c0 ds')) with (String c0 (substring 0 0 ds')).
    rewrite append_cons. reflexivity.
  - destruct (decpt <=? 0) eqn:E0.
    + exists "0"%char. eexists. split; [|reflexivity].
      change "0."%string with (String "0" "."). rewrite append_cons. reflexivity.
    + apply Z.leb_gt in E0.
      destruct (Z.of_nat (String.length (String c0 ds')) <=? decpt).
      * exists c0. eexists. split; [|exact Hc0]. rewrite append_cons. reflexivity.
      * destruct (Z.to_nat decpt) as [|k] eqn:Ek; [lia|].
        exists c0. eexists. split; [|exact Hc0].
        change (substring 0 (S k) (String c0 ds')) with (String c0 (substring 0 k ds')).
        rewrite append_cons. reflexivity.
Qed.

Lemma round_ratio_sign (s : bool) (n d : Z) (m : positive) (e : Z) :
  round_ratio false n d = S754_finite false m e ->
  round_ratio s n d = S754_finite s m e.
Proof.
  unfold round_ratio. destruct (n <=? 0); [discriminate|].
  destruct (_ =? 2 ^ 53).
  - simpl. destruct (_ <=? 971); [|discriminate]. intros H. injection H as <- <-.
    reflexivity.
  - destruct (div_half_even _ _); try discriminate.
    destruct (_ <=? 971); [|discriminate]. intros H. injection H as <- <-.
    reflexivity.
Qed.

Lemma pow10_exponents (a b c d : Z) :
  0 <= a -> 0 <= b -> 0 <= c -> 0 <= d -> a + b = c + d ->
  10 ^ a * 10 ^ b = 10 ^ c * 10 ^ d.
Proof. intros. rewrite <- !Z.pow_add_r by lia. f_equal. lia. Qed.

(** The float of a numeral that denotes the decimal [c * 10^(p-k)]. *)
Lemma read_unsigned_format (sign : bool) (ds : string) (c' z p k : Z) :
  spells ds c' -> (0 < String.length ds)%nat -> 0 <= z ->
  let decpt := p + (Z.of_nat (String.length ds) + z - k) in
  read_unsigned sign (format_repr ds decpt)
  = round_ratio sign (c' * 10 ^ z * 10 ^ Z.max 0 (p - k)) (10 ^ Z.max 0 (k - p)).
Proof.
  intros Hsp Hlen Hz decpt.
  destruct (format_repr_first ds decpt (proj1 Hsp) Hlen) as (c & rest & Hfmt & Hc).
  destruct (is_digit_plain c Hc) as (_ & _ & _ & Hi & Hn).
  unfold read_unsigned. rewrite Hfmt, Hi, Hn. rewrite <- Hfmt.
  pose proof (pow10_pos (k - p)) as Pkp.
  destruct (read_numeral_format ds c' decpt Hsp Hlen) as [Hnum|[Hint Hnum]];
    rewrite Hnum.
  - set (t := decpt - Z.of_nat (String.length ds)).
    assert (Ht : t = p + z - k) by (unfold t, decpt; lia).
    apply round_ratio_ext; [apply pow10_pos|exact Pkp|].
    replace (c' * 10 ^ Z.max 0 t * 10 ^ Z.max 0 (k - p))
      with (c' * (10 ^ Z.max 0 t * 10 ^ Z.max 0 (k - p))) by ring.
    replace (c' * 10 ^ z * 10 ^ Z.max 0 (p - k) * 10 ^ Z.max 0 (- t))
      with (c' * (10 ^ (z + Z.max 0 (p - k)) * 10 ^ Z.max 0 (- t)))
      by (rewrite Z.pow_add_r by lia; ring).
    f_equal. apply pow10_exponents; lia.
  - set (t := decpt - Z.of_nat (String.length ds)) in *.
    assert (Ht : t = p + z - k) by (unfold t, decpt; lia).
    assert (Ht0 : 0 <= t) by (unfold t; lia).
    change (Z.max 0 (-1)) with 0. change (Z.max 0 (- -1)) with 1.
    change (10 ^ 0) with 1. change (10 ^ 1) with 10.
    apply round_ratio_ext; [lia|exact Pkp|].
    replace (c' * 10 ^ t * 10 * 1 * 10 ^ Z.max 0 (k - p))
      with (c' * 10 * (10 ^ t * 10 ^ Z.max 0 (k - p))) by ring.
    replace (c' * 10 ^ z * 10 ^ Z.max 0 (p - k) * 10)
      with (c' * 10 * (10 ^ z * 10 ^ Z.max 0 (p - k))) by ring.
    f_equal. apply pow10_exponents; lia.
Qed.

Lemma pow2_le_pow10 (e : Z) : -1074 <= e -> 2 ^ Z.max 0 (- e) <= 10 ^ 400.
Proof.
  intros He. transitivity (2 ^ 1074).
  - apply Z.pow_le_mono_r; lia.
  - apply Z.leb_le. vm_compute. reflexivity.
Qed.

(** [str] can be read back: the numeral it writes denotes the float. *)
Theorem read_float_str (x : float) :
  is_binary64 x = true -> read_float (str x) = x.
Proof.
  intros Hx. destruct x as [[|]|[|]| |s m e]; try reflexivity.
  pose proof (is_binary64_finite _ _ _ Hx) as (Hm53 & He & Hnorm).
  assert (Hx' : is_binary64 (S754_finite false m e) = true) by exact Hx.
  unfold str.
  set (n := Zpos m * 2 ^ Z.max 0 e). set (d := 2 ^ Z.max 0 (- e)).
  set (p := decimal_point n d).
  pose proof (pow2_pos e) as PE1. pose proof (pow2_pos (- e)) as PE2.
  assert (Hn : 0 < n) by (unfold n; apply Z.mul_pos_pos; lia).
  assert (Hexact : round_ratio false n d = S754_finite false m e)
    by (apply round_ratio_exact; exact Hx').
  assert (Hp : d * 10 ^ Z.max 0 (p - 1) <= n * 10 ^ Z.max 0 (1 - p)).
  { apply decimal_point_lower; [exact Hn|exact PE2|].
    pose proof (pow2_le_pow10 e ltac:(lia)) as H400. fold d in H400.
    assert (0 < 10 ^ 400) by (apply Z.pow_pos_nonneg; lia). nia. }
  assert (H17 : read_back 17 p (div_half_even (n * 10 ^ Z.max 0 (17 - p))
                                  (d * 10 ^ Z.max 0 (p - 17)))
                = round_ratio false n d).
  { rewrite Hexact. apply (seventeen_digits m e p Hx' Hp). }
  pose proof (shortest_digits_back 16 1 p n d eq_refl H17) as Hback.
  destruct (shortest_digits 16 1 p n d) as [c k]. cbn [fst snd] in Hback.
  assert (Hc : 0 < c).
  { destruct (Z.le_gt_cases c 0) as [Hle|Hgt]; [|exact Hgt]. exfalso.
    unfold read_back in Hback. rewrite round_ratio_zero, Hexact in Hback.
    - discriminate Hback.
    - pose proof (pow10_pos (p - k)). apply Z.mul_nonpos_nonneg; lia. }
  pose proof (strip_zeros_value 17 c 0 ltac:(lia)) as Hstrip. cbv zeta in Hstrip.
  destruct (strip_zeros 17 c 0) as [c' z]. cbn [fst snd] in Hstrip.
  destruct Hstrip as (Hc' & Hz & Hcz). rewrite Z.sub_0_r in Hcz.
  destruct (pretty_spells (Z.to_N c')) as [Hsp Hlen].
  rewrite Z2N.id in Hsp by exact Hc'.
  set (ds := pretty (Z.to_N c')) in *.
  assert (Hread : forall sign,
            read_unsigned sign
              (format_repr ds (p + (Z.of_nat (String.length ds) + z - k)))
            = S754_finite sign m e).
  { intros sign. rewrite (read_unsigned_format sign ds c' z p k Hsp Hlen Hz).
    apply round_ratio_sign. rewrite <- Hcz.
    unfold read_back in Hback. rewrite Hback. exact Hexact. }
  destruct s.
  - rewrite append_cons, append_nil. cbn [read_float].
    change (Ascii.eqb "-" "-") with true. cbv iota. apply Hread.
  - rewrite append_nil.
    destruct (format_repr_first ds (p + (Z.of_nat (String.length ds) + z - k))
                (proj1 Hsp) Hlen) as (c0 & rest & Hfmt & Hc0).
    destruct (is_digit_plain c0 Hc0) as (_ & _ & Hminus & _).
    specialize (Hread false). rewrite Hfmt in *. cbn [read_float].
    rewrite Hminus. exact Hread.
Qed.

Lemma read_digits_replace (s : string) : forall acc : Z,
  read_digits (replace "." "_" s) acc = read_digits s acc.
Proof.
  induction s as [|c s IH]; intros acc; [reflexivity|].
  cbn [replace read_digits].
  destruct (Ascii.eqb c ".") eqn:E.
  - apply Ascii.eqb_eq in E. subst c. apply IH.
  - destruct (is_point c); apply IH.
Qed.

Lemma read_mantissa_replace (s : string) : forall (acc scale : Z) (ap : bool),
  match read_mantissa (replace "." "_" s) acc scale ap,
        read_mantissa s acc scale ap with
  | (a1, s1, r1), (a2, s2, r2) =>
      a1 = a2 /\ s1 = s2 /\ read_exponent r1 = read_exponent r2
  end.
Proof.
  induction s as [|c s IH]; intros acc scale ap; [repeat split|].
  cbn [replace read_mantissa].
  destruct (Ascii.eqb c ".") eqn:E.
  - apply Ascii.eqb_eq in E. subst c. apply IH.
  - destruct (is_point c); [apply IH|].
    destruct (Ascii.eqb c "e"); [|apply IH].
    repeat split. destruct s as [|c' s']; [reflexivity|].
    cbn [replace read_exponent].
    destruct (Ascii.eqb c' ".") eqn:E'.
    + apply Ascii.eqb_eq in E'. subst c'.
      change (Ascii.eqb "_" "-") with false. change (Ascii.eqb "." "-") with false.
      cbv iota. now rewrite read_digits_replace.
    + destruct (Ascii.eqb c' "-"); now rewrite read_digits_replace.
Qed.

(** A numeral reads the same with its point written as an underscore. *)
Lemma read_float_replace (s : string) :
  read_float (replace "." "_" s) = read_float s.
Proof.
  assert (Hun : forall sign t,
            read_unsigned sign (replace "." "_" t) = read_unsigned sign t).
  { intros sign t. destruct t as [|c t]; [reflexivity|].
    unfold read_unsigned, read_numeral.
    pose proof (read_mantissa_replace (String c t) 0 0 false) as H.
    destruct (read_mantissa (replace "." "_" (String c t)) 0 0 false) as [[a1 s1] r1].
    destruct (read_mantissa (String c t) 0 0 false) as [[a2 s2] r2].
    destruct H as (-> & -> & ->).
    cbn [replace]. destruct (Ascii.eqb c ".") eqn:E; [|reflexivity].
    apply Ascii.eqb_eq in E. subst c. reflexivity. }
  destruct s as [|c s]; [reflexivity|].
  cbn [replace read_float]. destruct (Ascii.eqb c ".") eqn:E.
  - apply Ascii.eqb_eq in E. subst c.
    change (Ascii.eqb "_" "-") with false. change (Ascii.eqb "." "-") with false.
    cbv iota. apply (Hun false (String "." s)).
  - destruct (Ascii.eqb c "-"); [apply Hun|].
    pose proof (Hun false (String c s)) as H. cbn [replace] in H.
    now rewrite E in H.
Qed.

(** A group name can be read back: it determines the emissivity. *)
Theorem value_of_name_emiss (x : float) :
  is_binary64 x = true -> value_of_name (EmissivityManager.name_emiss x) = Some x.
Proof.
  intros Hx. unfold EmissivityManager.name_emiss.
  change ("e__" +:+ replace "." "_" (str x))
    with (String "e" (String "_" (String "_" (replace "." "_" (str x))))).
  cbn [value_of_name]. now rewrite read_float_replace, read_float_str.
Qed.

End Numerals.


(** ** The monad and the helpers of the classes *)

Create HintDb read_only.

Lemma bind_ok {A B : Type} (m : M A) (k : A -> M B) (a : A) (w w' : World) :
  m w = (Ok a, w') -> (m ≫= k) w = k a w'.
Proof. intros H. unfold mbind, M_bind. now rewrite H. Qed.

Lemma bind_raise {A B : Type} (m : M A) (k : A -> M B) (e : Exception)
    (w w' : World) :
  m w = (Raise e, w') -> (m ≫= k) w = (Raise e, w').
Proof. intros H. unfold mbind, M_bind. now rewrite H. Qed.

Lemma read_only_ret {A : Type} (a : A) : read_only (mret a).
Proof. intros w. reflexivity. Qed.

Lemma read_only_raise {A : Type} (e : Exception) : read_only (@raise A e).
Proof. intros w. reflexivity. Qed.

Lemma read_only_gets {A : Type} (f : Solver -> A) : read_only (gets f).
Proof. intros w. reflexivity. Qed.

Lemma read_only_bind {A B : Type} (m : M A) (k : A -> M B) :
  read_only m -> (forall a, read_only (k a)) -> read_only (m ≫= k).
Proof.
  intros Hm Hk w. unfold mbind, M_bind.
  specialize (Hm w). destruct (m w) as [[a|e] w']; simpl in Hm; subst w'.
  - apply Hk.
  - reflexivity.
Qed.

Lemma read_only_for_fold {A S : Type} (body : S -> A -> M S) (l : list A) :
  (forall self x, read_only (body self x)) ->
  forall self, read_only (for_fold body l self).
Proof.
  intros Hbody. induction l as [|x l IH]; intros self; simpl.
  - apply read_only_ret.
  - apply read_only_bind; [apply Hbody | apply IH].
Qed.

#[local] Hint Resolve read_only_ret read_only_raise read_only_gets : read_only.

Lemma read_only_process processor v : read_only (process processor v).
Proof.
  destruct processor, v; simpl; auto with read_only.
  - unfold IntEmissivityProcessor.process.
    destruct (Py.float_of_int n); auto with read_only.
  - unfold IntEmissivityProcessor.process.
    destruct (Py.float_of_int (Z.b2z b)); auto with read_only.
  - unfold FloatEmissivityProcessor.process. auto with read_only.
  - intros w. unfold NamedExpressionEmissivityProcessor.process.
    unfold mbind, M_bind, gets. simpl.
    destruct (named_expressions (solver w) !! s); reflexivity.
Qed.

Lemma read_only_create v : read_only (EmissivityProcessorFactory.create v).
Proof.
  unfold EmissivityProcessorFactory.create.
  destruct (isinstance v TFloat); auto with read_only.
  destruct (isinstance v TInt); auto with read_only.
  apply read_only_bind.
  - destruct v; simpl; auto with read_only.
    apply read_only_bind; auto with read_only.
  - intros [|]; auto with read_only.
Qed.

Lemma read_only_normalize v : read_only (normalize v).
Proof.
  apply read_only_bind; [apply read_only_create | intros; apply read_only_process].
Qed.

Lemma read_only_collect_wall self item :
  read_only (EmissivityManager.collect_wall self item).
Proof.
  destruct item as [wall [[emiss|]]]; simpl; auto with read_only.
  apply read_only_bind; [apply read_only_create | intros processor].
  apply read_only_bind; [apply read_only_process | auto with read_only].
Qed.

Lemma read_only_collect_emissivities (self : EmissivityManager.t) :
  read_only (EmissivityManager.collect_emissivities self).
Proof.
  apply read_only_bind; [apply read_only_gets | intros walls].
  apply read_only_for_fold. apply read_only_collect_wall.
Qed.

(** *** What a run does to the session *)

Lemma check_BCs_active (w : World) :
  bc_active (solver w) = true -> SolverManager.check_BCs w = (Ok tt, w).
Proof.
  intros H. unfold SolverManager.check_BCs, mbind, M_bind, gets. simpl.
  now rewrite H.
Qed.

Lemma check_BCs_inactive (w : World) :
  bc_active (solver w) = false ->
  SolverManager.check_BCs w
  = (Raise (BoundaryConditionError [ArgStr "Load case file first."]), w).
Proof.
  intros H. unfold SolverManager.check_BCs, mbind, M_bind, gets. simpl.
  now rewrite H.
Qed.

Lemma session_checks {B : Type} (k : unit -> M B) (w : World) :
  (initialized ← SolverManager.is_initialized;
   (if (initialized : bool) then mret tt else SolverManager.initialize) ≫= k) w
  = k tt (prepared w).
Proof.
  unfold prepared, SolverManager.is_initialized, SolverManager.initialize.
  unfold mbind, M_bind, gets, print, modify, with_solver. simpl.
  destruct (contour_active (solver w)); simpl.
  - reflexivity.
  - now rewrite <- !app_assoc.
Qed.

Lemma create_registers_spec (d : list (Py.float * list string)) (w : World) :
  EmissivityManager.create_emissivities_cell_registers
    {| EmissivityManager.e_dict := d |} w
  = (Ok tt,
     with_solver (fun s => fold_left (fun s args => add_cell_register args s)
                             (registers_of d) s) w).
Proof.
  unfold EmissivityManager.create_emissivities_cell_registers. simpl.
  revert w. induction d as [|[emiss wall_list] d IH]; intros w; simpl.
  - destruct w as [s out inp]. reflexivity.
  - unfold mbind, M_bind, modify at 1. simpl.
    unfold mbind, M_bind in IH. rewrite IH. destruct w. reflexivity.
Qed.

Lemma cell_registers_fold (l : list (list string)) (s : Solver) :
  fold_left (fun s args => add_cell_register args s) l s
  = {| bc_active := bc_active s;
       walls := walls s;
       named_expressions := named_expressions s;
       expression_value := expression_value s;
       cell_registers := cell_registers s ++ l;
       contour_active := contour_active s;
       initializations := initializations s;
       contour := contour s;
       displayed := displayed s |}.
Proof.
  revert s. induction l as [|args l IH]; intros s; simpl.
  - rewrite app_nil_r. now destruct s.
  - rewrite IH. simpl. now rewrite <- app_assoc.
Qed.

(** The creating half of a run, for the grouping [d]. *)
Lemma creation_spec (d : list (Py.float * list string)) (w : World) :
  (EmissivityManager.create_emissivities_cell_registers
     {| EmissivityManager.e_dict := d |};;
   EmissivityManager.create_emissivity_expression
     {| EmissivityManager.e_dict := d |};;
   ContourPlotManager.create_contour_plot d) w
  = (Ok tt, with_solver (synthesized d) w).
Proof.
  unfold mbind at 1, M_bind at 1. rewrite create_registers_spec.
  unfold EmissivityManager.create_emissivity_expression,
    ContourPlotManager.create_contour_plot, synthesized, overlay_of, emiss_of.
  simpl. destruct (EmissivityManager.expression_terms (map fst d)) as [defs overlays].
  unfold mbind, M_bind, modify, with_solver. simpl.
  rewrite cell_registers_fold. reflexivity.
Qed.

Lemma stdin_prepared (w : World) : stdin (prepared w) = stdin w.
Proof. unfold prepared. now destruct (contour_active (solver w)). Qed.

Lemma visualize_loaded_spec (d : list (Py.float * list string)) (w : World) :
  bc_active (solver w) = true ->
  fst (EmissivityManager.collect_emissivities EmissivityManager.init (prepared w))
  = Ok {| EmissivityManager.e_dict := d |} ->
  visualize_loaded w
  = (match stdin w with [] => Raise EOFError | _ => Ok tt end, finished d w).
Proof.
  intros Hbc Hcollect. unfold visualize_loaded.
  rewrite (bind_ok _ _ tt w w (check_BCs_active w Hbc)).
  rewrite session_checks.
  pose proof (read_only_collect_emissivities EmissivityManager.init (prepared w)) as Hro.
  destruct (EmissivityManager.collect_emissivities EmissivityManager.init (prepared w))
    as [r w1] eqn:E.
  simpl in Hro, Hcollect. subst w1 r.
  rewrite (bind_ok _ _ _ _ _ E). simpl EmissivityManager.e_dict.
  pose proof (creation_spec d (prepared w)) as Hc.
  unfold mbind at 1 2, M_bind at 1 2 in Hc.
  unfold mbind at 1 2 3, M_bind at 1 2 3.
  destruct (EmissivityManager.create_emissivities_cell_registers _ (prepared w))
    as [[[]|e1] w1]; [|discriminate Hc].
  destruct (EmissivityManager.create_emissivity_expression _ w1)
    as [[[]|e2] w2]; [|discriminate Hc].
  rewrite Hc. unfold mbind, M_bind, input, finished. simpl.
  rewrite stdin_prepared. destruct (stdin w); reflexivity.
Qed.


(** *** Normalization as a function of the session *)

Lemma normalize_normalized (v : PyValue) (w : World) :
  normalize v w = (normalized (solver w) v, w).
Proof.
  unfold normalized, normalize, EmissivityProcessorFactory.create.
  destruct v as [x|n|b|name|]; try reflexivity; simpl;
    unfold mbind, M_bind, gets; simpl.
  - unfold IntEmissivityProcessor.process.
    destruct (Py.float_of_int n); reflexivity.
  - unfold IntEmissivityProcessor.process.
    destruct (Py.float_of_int (Z.b2z b)); reflexivity.
  - destruct (named_expressions (solver w) !! name) as [def|] eqn:E.
    + rewrite !bool_decide_eq_true_2 by eauto. simpl.
      unfold NamedExpressionEmissivityProcessor.process, mbind, M_bind, gets.
      simpl. now rewrite E.
    + rewrite !bool_decide_eq_false_2 by (intros [? ?]; discriminate).
      reflexivity.
Qed.

Lemma normalized_unsupported (s : Solver) (v : PyValue) :
  supported s v = false -> normalized s v = Raise (unsupported_error v).
Proof.
  unfold supported, normalized. intros H.
  destruct v as [x|n|b|name|]; try discriminate H; try reflexivity.
  simpl in H. unfold normalize, EmissivityProcessorFactory.create; simpl.
  unfold mbind, M_bind, gets; simpl.
  rewrite bool_decide_eq_false in H.
  rewrite bool_decide_eq_false_2 by exact H. reflexivity.
Qed.

(** Normalization reads the named expressions of the session, nothing else. *)
Lemma normalized_ext (s1 s2 : Solver) (v : PyValue) :
  named_expressions s1 = named_expressions s2 ->
  expression_value s1 = expression_value s2 ->
  normalized s1 v = normalized s2 v.
Proof.
  intros Hne Hval.
  unfold normalized, normalize, EmissivityProcessorFactory.create.
  destruct v as [x|n|b|name|]; try reflexivity; simpl;
    unfold mbind, M_bind, gets; simpl.
  - unfold IntEmissivityProcessor.process.
    destruct (Py.float_of_int n); reflexivity.
  - unfold IntEmissivityProcessor.process.
    destruct (Py.float_of_int (Z.b2z b)); reflexivity.
  - rewrite Hne.
    destruct (bool_decide (is_Some (named_expressions s2 !! name))); [|reflexivity].
    simpl. unfold NamedExpressionEmissivityProcessor.process, mbind, M_bind, gets.
    simpl. rewrite Hne. destruct (named_expressions s2 !! name); [|reflexivity].
    simpl. now rewrite Hval.
Qed.

Lemma normalized_prepared (w : World) (v : PyValue) :
  normalized (solver (prepared w)) v = normalized (solver w) v.
Proof.
  unfold prepared. destruct (contour_active (solver w)); [reflexivity|].
  now apply normalized_ext.
Qed.

Lemma collect_wall_normalized self wall (wall_data : WallData) (w : World) :
  EmissivityManager.collect_wall self (wall, wall_data) w
  = match in_emiss wall_data with
    | None => (Ok self, w)
    | Some emiss =>
        match normalized (solver w) (value emiss) with
        | Ok x =>
            (Ok {| EmissivityManager.e_dict :=
                     EmissivityManager.setdefault_append x wall
                       (EmissivityManager.e_dict self) |}, w)
        | Raise e => (Raise e, w)
        end
    end.
Proof.
  unfold EmissivityManager.collect_wall.
  destruct (in_emiss wall_data) as [emiss|]; [|reflexivity].
  pose proof (normalize_normalized (value emiss) w) as Hn.
  unfold normalize in Hn. unfold mbind, M_bind in *.
  destruct (EmissivityProcessorFactory.create (value emiss) w) as [[p|e] w1].
  - rewrite Hn. now destruct (normalized (solver w) (value emiss)).
  - injection Hn as <- ->. reflexivity.
Qed.

Lemma collect_normalizable walls self (w : World) :
  Forall (normalizable (solver w)) walls ->
  exists self', for_fold EmissivityManager.collect_wall walls self w = (Ok self', w).
Proof.
  intros H. revert self. induction H as [|[wall wall_data] walls Hx _ IH]; intros self.
  - now exists self.
  - cbn [for_fold]. unfold mbind, M_bind. rewrite collect_wall_normalized.
    unfold normalizable in Hx. simpl in Hx.
    destruct (in_emiss wall_data) as [emiss|].
    + destruct (Hx emiss eq_refl) as [x ->]. apply IH.
    + apply IH.
Qed.

Lemma collect_raises pre wall emiss post e self (w : World) :
  Forall (normalizable (solver w)) pre ->
  normalized (solver w) (value emiss) = Raise e ->
  for_fold EmissivityManager.collect_wall
    (pre ++ (wall, {| in_emiss := Some emiss |}) :: post) self w
  = (Raise e, w).
Proof.
  intros Hpre He. revert self.
  induction Hpre as [|[wall' wall_data] pre Hx _ IH]; intros self.
  - cbn [app for_fold]. unfold mbind, M_bind. rewrite collect_wall_normalized.
    simpl. now rewrite He.
  - cbn [app for_fold]. unfold mbind, M_bind. rewrite collect_wall_normalized.
    unfold normalizable in Hx. simpl in Hx.
    destruct (in_emiss wall_data) as [emiss'|].
    + destruct (Hx emiss' eq_refl) as [x ->]. apply IH.
    + apply IH.
Qed.

Lemma collect_no_settings walls self (w : World) :
  Forall (fun item : string * WallData => in_emiss (snd item) = None) walls ->
  for_fold EmissivityManager.collect_wall walls self w = (Ok self, w).
Proof.
  intros H. induction H as [|[wall wall_data] walls Hx _ IH].
  - reflexivity.
  - cbn [for_fold]. unfold mbind, M_bind. rewrite collect_wall_normalized.
    simpl in Hx. now rewrite Hx.
Qed.

Lemma solver_prepared_fields (w : World) :
  bc_active (solver (prepared w)) = bc_active (solver w)
  /\ walls (solver (prepared w)) = walls (solver w)
  /\ named_expressions (solver (prepared w)) = named_expressions (solver w)
  /\ cell_registers (solver (prepared w)) = cell_registers (solver w)
  /\ contour (solver (prepared w)) = contour (solver w)
  /\ displayed (solver (prepared w)) = displayed (solver w).
Proof. unfold prepared. now destruct (contour_active (solver w)). Qed.

Lemma normalizable_prepared (w : World) item :
  normalizable (solver w) item -> normalizable (solver (prepared w)) item.
Proof.
  intros H emiss He. destruct (H emiss He) as [x Hx]. exists x.
  now rewrite normalized_prepared.
Qed.

(** *** The walls of a grouping *)

Lemma setdefault_append_walls key wall d :
  grouped_walls (EmissivityManager.setdefault_append key wall d)
  ≡ₚ wall :: grouped_walls d.
Proof.
  unfold grouped_walls. induction d as [|[k ws] d IH]; simpl.
  - reflexivity.
  - destruct (Py.float_eq k key); simpl.
    + rewrite <- app_assoc. simpl.
      rewrite <- Permutation_middle. reflexivity.
    + rewrite IH. rewrite <- Permutation_middle. reflexivity.
Qed.

Lemma collected_walls walls : forall self self' (w w' : World),
  for_fold EmissivityManager.collect_wall walls self w = (Ok self', w') ->
  grouped_walls (EmissivityManager.e_dict self')
  ≡ₚ radiating_walls walls ++ grouped_walls (EmissivityManager.e_dict self).
Proof.
  induction walls as [|[wall wall_data] walls IH]; intros self self' w w' H.
  - injection H as <- _. reflexivity.
  - cbn [for_fold] in H. unfold mbind, M_bind in H.
    rewrite collect_wall_normalized in H.
    unfold radiating_walls. rewrite filter_cons. simpl.
    destruct (in_emiss wall_data) as [emiss|].
    + destruct (normalized (solver w) (value emiss)) as [x|e]; [|discriminate H].
      apply IH in H. rewrite H. simpl.
      rewrite setdefault_append_walls.
      fold (radiating_walls walls).
      rewrite <- Permutation_middle. reflexivity.
    + apply IH in H. rewrite H. reflexivity.
Qed.

Lemma groups_with_absent wall d :
  count_occ string_dec (grouped_walls d) wall = 0%nat -> groups_with wall d = [].
Proof.
  unfold grouped_walls, groups_with. induction d as [|[k ws] d IH]; intros H.
  - reflexivity.
  - simpl in H. rewrite count_occ_app in H. rewrite filter_cons. simpl.
    rewrite decide_False.
    + apply IH. lia.
    + intros Hin. apply list_elem_of_In in Hin.
      apply (count_occ_In string_dec) in Hin. lia.
Qed.

Lemma groups_with_once wall d :
  count_occ string_dec (grouped_walls d) wall = 1%nat ->
  exists key ws, groups_with wall d = [(key, ws)]
                 /\ count_occ string_dec ws wall = 1%nat.
Proof.
  unfold grouped_walls, groups_with. induction d as [|[k ws] d IH]; intros H.
  - discriminate H.
  - simpl in H. rewrite count_occ_app in H. rewrite filter_cons. simpl.
    destruct (decide (wall ∈ ws)) as [Hin|Hout].
    + apply list_elem_of_In in Hin. apply (count_occ_In string_dec) in Hin.
      exists k, ws. split; [|lia].
      f_equal. apply groups_with_absent. unfold grouped_walls. lia.
    + assert (count_occ string_dec ws wall = 0%nat) as H0.
      { apply count_occ_not_In. now rewrite <- list_elem_of_In. }
      apply IH. lia.
Qed.

Lemma radiating_walls_NoDup walls :
  NoDup (map fst walls) -> NoDup (radiating_walls walls).
Proof.
  unfold radiating_walls. intros H.
  eapply sublist_NoDup; [exact H|].
  apply fmap_sublist, sublist_filter.
Qed.

Lemma radiating_walls_elem wall walls :
  wall ∈ radiating_walls walls
  <-> exists wall_data emiss,
        (wall, wall_data) ∈ walls /\ in_emiss wall_data = Some emiss.
Proof.
  unfold radiating_walls. rewrite list_elem_of_fmap. split.
  - intros [[wall' wall_data] [-> Hin]]. apply list_elem_of_filter in Hin.
    destruct Hin as [[emiss He] Hin]. simpl in *. eauto.
  - intros (wall_data & emiss & Hin & He). exists (wall, wall_data).
    split; [reflexivity|]. apply list_elem_of_filter. split; [|exact Hin].
    simpl. eauto.
Qed.

(** *** The names of the groups of the physical range *)

Lemma round_unit_interval (x : Py.float) :
  unit_interval x = true -> x <> S754_zero true -> Py.round x 3 ∈ unit_keys.
Proof.
  intros Hx Hzero. unfold unit_keys.
  assert (H : exists N, (0 <= N <= 1000)%Z /\ Py.round x 3 = Py.round_ratio false N 1000).
  { destruct x as [[|]| | |[|] m e]; try discriminate Hx.
    - now contradiction Hzero.
    - exists 0%Z. split; [lia|reflexivity].
    - simpl in Hx. apply Z.leb_le in Hx.
      unfold Py.round. change (10 ^ Z.of_nat 3)%Z with 1000%Z.
      pose proof (PyFacts.pow2_pos e) as Pe.
      pose proof (PyFacts.pow2_pos (- e)) as Pne.
      pose proof (PyFacts.div_half_even_bounds
                    (Zpos m * 1000 * 2 ^ Z.max 0 e) (2 ^ Z.max 0 (- e)) Pne) as Hb.
      eexists. split; [|reflexivity].
      set (N := Py.div_half_even _ _) in *. nia. }
  destruct H as (N & HN & ->).
  apply list_elem_of_fmap. exists (Z.to_nat N). split.
  - now rewrite Z2Nat.id by lia.
  - apply list_elem_of_In, in_seq. lia.
Qed.


(** *** The names of the groups, read back *)

(** A group name carries its value: no two floats share a name. *)
Lemma name_emiss_injective (u v : Py.float) :
  Py.is_binary64 u = true -> Py.is_binary64 v = true ->
  EmissivityManager.name_emiss u = EmissivityManager.name_emiss v -> u = v.
Proof.
  intros Hu Hv Hnames.
  pose proof (Numerals.value_of_name_emiss u Hu) as Eu.
  pose proof (Numerals.value_of_name_emiss v Hv) as Ev.
  rewrite Hnames, Ev in Eu. now injection Eu.
Qed.

(** [round] returns a binary64 value whatever it is given. *)
Lemma round_is_binary64 (x : Py.float) (ndigits : nat) :
  Py.is_binary64 (Py.round x ndigits) = true.
Proof.
  destruct x as [| | |s m e]; try reflexivity.
  unfold Py.round. apply PyFacts.round_ratio_binary64.
  apply Z.pow_pos_nonneg; lia.
Qed.

(** [==] holds between a float and itself, NaN apart. *)
Lemma float_eq_refl (x : Py.float) : x <> S754_nan -> Py.float_eq x x = true.
Proof.
  intros Hx. destruct x as [[|]|[|]| |[|] m e]; try reflexivity.
  - now contradiction Hx.
  - unfold Py.float_eq, SFeqb. simpl. now rewrite Z.compare_refl, Pos.compare_cont_refl.
  - unfold Py.float_eq, SFeqb. simpl. now rewrite Z.compare_refl, Pos.compare_cont_refl.
Qed.

(** *** The characters of [str] and of a group name *)

Lemma all_chars_impl (p q : ascii -> bool) (s : string) :
  (forall c, p c = true -> q c = true) ->
  all_chars p s = true -> all_chars q s = true.
Proof.
  intros Hpq. induction s as [|c s IH]; simpl; [reflexivity|].
  intros H. apply andb_true_iff in H. destruct H as [Hc Hs].
  now rewrite (Hpq c Hc), IH.
Qed.

Lemma all_chars_substring (p : ascii -> bool) (s : string) : forall a b : nat,
  all_chars p s = true -> all_chars p (substring a b s) = true.
Proof.
  induction s as [|c s IH]; intros a b H.
  - now destruct a, b.
  - simpl in H. apply andb_true_iff in H. destruct H as [Hc Hs].
    destruct a as [|a]; simpl.
    + destruct b as [|b]; simpl; [reflexivity|]. now rewrite Hc, IH.
    + now apply IH.
Qed.

Lemma is_digit_float_char (c : ascii) : is_digit c = true -> is_float_char c = true.
Proof. unfold is_float_char. now intros ->. Qed.

Lemma digits_float_chars (s : string) :
  all_chars is_digit s = true -> all_chars is_float_char s = true.
Proof. apply all_chars_impl, is_digit_float_char. Qed.

Lemma exponent_text_chars (e : Z) :
  all_chars is_float_char (Py.exponent_text e) = true.
Proof.
  unfold Py.exponent_text. rewrite !Numerals.all_chars_append.
  rewrite (digits_float_chars (pretty (Z.abs_N e)))
    by apply (Numerals.pretty_spells (Z.abs_N e)).
  now destruct (e <? 0)%Z, (Z.abs e <? 10)%Z.
Qed.

Lemma format_repr_chars (ds : string) (decpt : Z) :
  all_chars is_digit ds = true ->
  all_chars is_float_char (Py.format_repr ds decpt) = true.
Proof.
  intros Hds. unfold Py.format_repr.
  assert (Hsub : forall a b, all_chars is_float_char (substring a b ds) = true).
  { intros a b. apply digits_float_chars. now apply all_chars_substring. }
  assert (Hz : forall k, all_chars is_float_char (Py.zeros k) = true).
  { intros k. apply digits_float_chars. apply (Numerals.zeros_spells k). }
  destruct ((decpt <=? -4)%Z || (16 <? decpt)%Z).
  - rewrite !Numerals.all_chars_append, Hsub, exponent_text_chars.
    destruct (Z.of_nat (String.length ds) =? 1)%Z; [reflexivity|].
    rewrite Numerals.all_chars_append, Hsub. reflexivity.
  - destruct (decpt <=? 0)%Z.
    + rewrite !Numerals.all_chars_append, Hz, (digits_float_chars ds Hds).
      reflexivity.
    + destruct (Z.of_nat (String.length ds) <=? decpt)%Z.
      * rewrite !Numerals.all_chars_append, Hz, (digits_float_chars ds Hds).
        reflexivity.
      * rewrite !Numerals.all_chars_append, !Hsub. reflexivity.
Qed.

Lemma str_chars (x : Py.float) : all_chars is_float_char (Py.str x) = true.
Proof.
  destruct x as [[|]|[|]| |s m e]; try reflexivity.
  unfold Py.str.
  destruct (Py.shortest_digits _ _ _ _ _) as [c k].
  destruct (Py.strip_zeros _ _ _) as [c' z].
  rewrite Numerals.all_chars_append, format_repr_chars
    by apply (Numerals.pretty_spells (Z.to_N c')).
  now destruct s.
Qed.

Lemma identifier_char_replaced (c : ascii) :
  is_float_char c = true ->
  is_identifier_char (if Ascii.eqb c "." then "_"%char else c)
  = is_unsigned_char c.
Proof.
  destruct c as [[|] [|] [|] [|] [|] [|] [|] [|]]; vm_compute; intros H;
    first [reflexivity | discriminate H].
Qed.

Lemma identifier_chars_replaced (s : string) :
  all_chars is_float_char s = true ->
  all_chars is_identifier_char (Py.replace "." "_" s)
  = all_chars is_unsigned_char s.
Proof.
  induction s as [|c s IH]; simpl; [reflexivity|].
  intros H. apply andb_true_iff in H. destruct H as [Hc Hs].
  now rewrite identifier_char_replaced, IH.
Qed.

Lemma replace_no_old (old new : ascii) (s : string) :
  Ascii.eqb new old = false ->
  all_chars (fun c => negb (Ascii.eqb c old)) (Py.replace old new s) = true.
Proof.
  intros Hne. induction s as [|c s IH]; simpl; [reflexivity|].
  rewrite IH, andb_true_r. destruct (Ascii.eqb c old) eqn:E.
  - now rewrite Hne.
  - now rewrite E.
Qed.

Lemma unit_keys_in_range : forallb unit_interval unit_keys = true.
Proof. vm_compute. reflexivity. Qed.

(** *** The physical range *)

(** On a binary64 value the range is Python's [0 <= x <= 1]. *)
Lemma unit_interval_leb (x : Py.float) :
  Py.is_binary64 x = true ->
  unit_interval x = SFleb Py.zero x && SFleb x Py.one.
Proof.
  intros Hx. destruct x as [[|]|[|]| |[|] m e].
  1-6: reflexivity.
  destruct (Numerals.is_binary64_finite _ _ _ Hx) as (Hm & He & Hn). clear Hx.
  unfold unit_interval, SFleb, Py.zero, Py.one. cbn [SFcompare andb].
  rewrite Pos.compare_cont_spec. unfold Pos.switch_Eq.
  change (2 ^ 53)%Z with 9007199254740992%Z in Hm.
  change (2 ^ 52)%Z with 4503599627370496%Z in Hn.
  destruct (Z.compare_spec e (-52)) as [->|Hlt|Hgt].
  - change (Z.max 0 (-52)) with 0%Z. change (Z.max 0 (- -52)) with 52%Z.
    change (2 ^ 0)%Z with 1%Z. change (2 ^ 52)%Z with 4503599627370496%Z.
    rewrite Z.mul_1_r.
    rewrite Pos2Z.inj_compare.
    destruct (Z.compare_spec (Zpos m) 4503599627370496) as [Heq|H|H].
    + rewrite Heq. reflexivity.
    + apply Z.leb_le. lia.
    + apply Z.leb_gt. lia.
  - apply Z.leb_le. rewrite (Z.max_l 0 e), (Z.max_r 0 (- e)) by lia.
    change (2 ^ 0)%Z with 1%Z. rewrite Z.mul_1_r.
    assert (2 ^ 53 <= 2 ^ (- e))%Z by (apply Z.pow_le_mono_r; lia).
    change (2 ^ 53)%Z with 9007199254740992%Z in *. lia.
  - apply Z.leb_gt. assert (Hm52 : (4503599627370496 <= Zpos m)%Z) by lia.
    destruct (Z.le_gt_cases 0 e) as [Hpos|Hneg].
    + rewrite (Z.max_r 0 e), (Z.max_l 0 (- e)) by lia.
      change (2 ^ 0)%Z with 1%Z.
      assert (1 <= 2 ^ e)%Z by (apply (Z.pow_le_mono_r 2 0 e); lia).
      nia.
    + rewrite (Z.max_l 0 e), (Z.max_r 0 (- e)) by lia.
      change (2 ^ 0)%Z with 1%Z. rewrite Z.mul_1_r.
      assert (2 ^ (- e) <= 2 ^ 51)%Z by (apply Z.pow_le_mono_r; lia).
      change (2 ^ 51)%Z with 2251799813685248%Z in *. lia.
Qed.


(** *** The scenario *)

Lemma scenario_collect (w : World) :
  walls (solver w) = scenario_walls ->
  EmissivityManager.collect_emissivities EmissivityManager.init w
  = (Ok {| EmissivityManager.e_dict := scenario_groups |}, w).
Proof.
  intros Hw. unfold EmissivityManager.collect_emissivities, mbind, M_bind, gets.
  rewrite Hw. unfold scenario_walls. cbn [for_fold]. unfold mbind, M_bind.
  rewrite !collect_wall_normalized. reflexivity.
Qed.

(** ** The claims *)

(** C2: a float is normalized to [round(x, 3)]: the float itself when it is
    an infinity, NaN or a zero, and otherwise the float read from the
    numeral [N / 1000], for an integer [N] nearest to [1000 * x]. *)
Theorem normalize_float (x : Py.float) (w : World) :
  normalize (PyFloat x) w = (Ok (Py.round x 3), w)
  /\ match x with
     | S754_finite s m e =>
         exists N : Z,
           Py.round x 3 = Py.round_ratio s N 1000
           /\ (Z.abs (2 * (N * 2 ^ Z.max 0 (- e) - 1000 * Zpos m * 2 ^ Z.max 0 e))
               <= 2 ^ Z.max 0 (- e))%Z
     | _ => Py.round x 3 = x
     end.
Proof.
  split; [reflexivity|].
  destruct x as [| | |s m e]; try reflexivity.
  apply PyFacts.round_nearest_thousandth.
Qed.

(** C4: a string that names a named expression of the session is normalized
    to the value the solver reports for it, rounded to 3 places. *)
Theorem normalize_named_expression (name def : string) (w : World) :
  named_expressions (solver w) !! name = Some def ->
  normalize (PyStr name) w
  = (Ok (Py.round (expression_value (solver w) name) 3), w).
Proof.
  intros Hdef. unfold normalize, EmissivityProcessorFactory.create. simpl.
  unfold mbind, M_bind, gets. simpl.
  rewrite bool_decide_eq_true_2 by eauto. simpl.
  unfold NamedExpressionEmissivityProcessor.process, mbind, M_bind, gets. simpl.
  now rewrite Hdef.
Qed.

Lemma normalize_named_expression_witness :
  let w := {| solver := named_session; stdout := []; stdin := [] |} in
  normalize (PyStr "eps") w = (Ok (Py.round_ratio false 8 10), w).
Proof.
  exact (normalize_named_expression "eps" "0.8004"
           {| solver := named_session; stdout := []; stdin := [] |} eq_refl).
Defined.

(** C8: normalization is idempotent on floats: the float [y] that a float
    [x] is normalized to is normalized to itself. *)
Theorem normalize_idempotent (x : Py.float) (w : World) :
  let y := Py.round x 3 in
  normalize (PyFloat x) w = (Ok y, w)
  /\ normalize (PyFloat y) w = (Ok y, w).
Proof.
  intros y. split; [reflexivity|].
  change (normalize (PyFloat y) w) with (Ok (Py.round y 3) : outcome Py.float, w).
  unfold y. now rewrite PyFacts.round_idempotent.
Qed.

(** C9: [collect_emissivities] only reads the session. Whatever it returns,
    a grouping or an exception, the world it leaves (boundary conditions,
    named expressions, cell registers, graphics objects, console) is the
    world it was called in; what it builds is the manager it returns. *)
Theorem collect_emissivities_reads_only (self : EmissivityManager.t) (w : World) :
  let w' := snd (EmissivityManager.collect_emissivities self w) in
  w' = w
  /\ bc_active (solver w') = bc_active (solver w)
  /\ walls (solver w') = walls (solver w)
  /\ named_expressions (solver w') = named_expressions (solver w)
  /\ cell_registers (solver w') = cell_registers (solver w)
  /\ contour (solver w') = contour (solver w)
  /\ displayed (solver w') = displayed (solver w).
Proof.
  intros w'. assert (H : w' = w) by apply read_only_collect_emissivities.
  rewrite H. repeat split.
Qed.

(** C5: the grouping built from the walls of a session is a partition of
    the walls that have an emissivity setting. The walls are the keys of a
    mapping, so their names are distinct. When the collection returns, a wall
    with a setting is in the list of exactly one group, exactly once, and a
    wall without one (or a name that is no wall) is in no group. *)
Theorem grouping_is_partition (w w' : World) (e_manager : EmissivityManager.t) :
  NoDup (map fst (walls (solver w))) ->
  EmissivityManager.collect_emissivities EmissivityManager.init w
  = (Ok e_manager, w') ->
  forall wall : string,
    ((exists wall_data emiss,
        (wall, wall_data) ∈ walls (solver w) /\ in_emiss wall_data = Some emiss) ->
     exists key ws,
       groups_with wall (EmissivityManager.e_dict e_manager) = [(key, ws)]
       /\ count_occ string_dec ws wall = 1%nat)
    /\ ((forall wall_data, (wall, wall_data) ∈ walls (solver w) ->
           in_emiss wall_data = None) ->
        groups_with wall (EmissivityManager.e_dict e_manager) = []).
Proof.
  intros Hkeys Hcollect wall.
  unfold EmissivityManager.collect_emissivities, mbind, M_bind, gets in Hcollect.
  apply collected_walls in Hcollect. simpl in Hcollect.
  rewrite app_nil_r in Hcollect.
  pose proof (radiating_walls_NoDup _ Hkeys) as Hnodup.
  rewrite NoDup_ListNoDup, (NoDup_count_occ string_dec) in Hnodup.
  specialize (Hnodup wall).
  split.
  - intros Hin. apply radiating_walls_elem in Hin.
    apply groups_with_once.
    rewrite (Permutation_count_occ string_dec) in Hcollect. rewrite Hcollect.
    apply list_elem_of_In, (count_occ_In string_dec) in Hin. lia.
  - intros Hnone. apply groups_with_absent.
    rewrite (Permutation_count_occ string_dec) in Hcollect. rewrite Hcollect.
    apply count_occ_not_In. rewrite <- list_elem_of_In, radiating_walls_elem.
    intros (wall_data & emiss & Hin & He).
    rewrite (Hnone _ Hin) in He. discriminate He.
Qed.

Lemma grouping_is_partition_witness :
  (exists key ws,
     groups_with "A" scenario_groups = [(key, ws)]
     /\ count_occ string_dec ws "A" = 1%nat)
  /\ groups_with "D" scenario_groups = [].
Proof.
  pose (w := {| solver := scenario_session; stdout := []; stdin := [] |}).
  assert (Hkeys : NoDup (map fst (walls (solver w)))).
  { apply (bool_decide_unpack _). vm_compute. exact I. }
  assert (Hcollect : EmissivityManager.collect_emissivities EmissivityManager.init w
                     = (Ok {| EmissivityManager.e_dict := scenario_groups |}, w))
    by reflexivity.
  split.
  - apply (proj1 (grouping_is_partition w w _ Hkeys Hcollect "A")).
    exists (radiating emissivity_0_8), {| value := PyFloat emissivity_0_8 |}.
    split; [|reflexivity]. simpl. apply list_elem_of_here.
  - apply (proj2 (grouping_is_partition w w _ Hkeys Hcollect "D")).
    intros wall_data Hin. simpl in Hin.
    repeat (apply elem_of_cons in Hin; destruct Hin as [Hin|Hin];
            [first [discriminate Hin | injection Hin as ->; reflexivity]|]).
    inversion Hin.
Defined.




(** *** The claims about a whole run *)

Section RunProperties.

Variable launch_fluent : string -> Z -> string -> bool -> Solver.
Variable read_case : Solver -> string -> Solver.

(** C7: with inactive boundary conditions the run raises
    [BoundaryConditionError("Load case file first.")] at its first statement:
    the world it leaves is the loaded session, untouched, with nothing
    printed; and whatever follows [check_BCs] is not run, so no grouping is
    collected and no register, expression or plot is created. *)
Theorem inactive_boundary_conditions_abort
    (case_file : string) (cores : Z) (gui_mode : bool) (lines : list string) :
  bc_active (loaded launch_fluent read_case case_file cores gui_mode) = false ->
  let w0 := {| solver := loaded launch_fluent read_case case_file cores gui_mode;
               stdout := []; stdin := lines |} in
  let error := BoundaryConditionError [ArgStr "Load case file first."] in
  visualize_e launch_fluent read_case case_file cores gui_mode lines = (Raise error, w0)
  /\ forall rest : unit -> M unit,
       (SolverManager.check_BCs ≫= rest) w0 = (Raise error, w0).
Proof.
  intros Hbc w0 error.
  assert (Hcheck : SolverManager.check_BCs w0 = (Raise error, w0))
    by now apply check_BCs_inactive.
  split.
  - unfold visualize_e, visualize_loaded. fold w0. now apply bind_raise.
  - intros rest. now apply bind_raise.
Qed.

(** C3: an input that is neither a float, nor an int, nor a string naming a
    named expression of the session makes normalization raise
    [ValueError] with the input's type and the input itself among its
    arguments, leaving the world as it was. In a run, the first wall whose
    value is such an input ends the run with that error during collection:
    the cell registers, named expressions and graphics objects of the
    session are those of the loaded case. *)
Theorem unsupported_value_rejected
    (case_file : string) (cores : Z) (gui_mode : bool) (lines : list string)
    (pre : list (string * WallData)) (wall : string) (v : PyValue)
    (post : list (string * WallData)) :
  let s := loaded launch_fluent read_case case_file cores gui_mode in
  bc_active s = true ->
  walls s = pre ++ (wall, {| in_emiss := Some {| value := v |} |}) :: post ->
  Forall (normalizable s) pre ->
  supported s v = false ->
  let error := ValueError [ArgStr "Unsupported emissivity type: ";
                           ArgType (type v); ArgStr " value: "; ArgValue v] in
  (forall w, supported (solver w) v = false -> normalize v w = (Raise error, w))
  /\ exists w',
       visualize_e launch_fluent read_case case_file cores gui_mode lines = (Raise error, w')
       /\ cell_registers (solver w') = cell_registers s
       /\ named_expressions (solver w') = named_expressions s
       /\ contour (solver w') = contour s
       /\ displayed (solver w') = displayed s.
Proof.
  intros s Hbc Hwalls Hpre Hv error. split.
  - intros w Hw. rewrite normalize_normalized.
    now rewrite (normalized_unsupported _ _ Hw).
  - set (w0 := {| solver := s; stdout := []; stdin := lines |}).
    exists (prepared w0).
    destruct (solver_prepared_fields w0) as (_ & Hw & Hne & Hcr & Hco & Hdi).
    split; [|now rewrite Hcr, Hne, Hco, Hdi].
    unfold visualize_e, visualize_loaded. fold s. fold w0.
    rewrite (bind_ok _ _ tt w0 w0 (check_BCs_active w0 Hbc)).
    rewrite session_checks.
    apply bind_raise.
    unfold EmissivityManager.collect_emissivities, mbind, M_bind, gets.
    rewrite Hw. simpl walls. rewrite Hwalls.
    apply collect_raises.
    + eapply Forall_impl; [exact Hpre|].
      intros item. apply (normalizable_prepared w0).
    + rewrite normalized_prepared. simpl. now apply normalized_unsupported.
Qed.

(** C10: when no wall has an emissivity setting the grouping is empty, and
    the creating steps, run on the empty grouping, add no cell register, bind
    [overlay] and [emiss] to the empty definition and create the contour
    with an empty surfaces list. *)
Theorem empty_grouping_run
    (case_file : string) (cores : Z) (gui_mode : bool) (lines : list string) :
  let s := loaded launch_fluent read_case case_file cores gui_mode in
  bc_active s = true ->
  Forall (fun item : string * WallData => in_emiss (snd item) = None) (walls s) ->
  let w' := snd (visualize_e launch_fluent read_case case_file cores gui_mode lines) in
  (forall w, solver w = s ->
     EmissivityManager.collect_emissivities EmissivityManager.init w
     = (Ok {| EmissivityManager.e_dict := [] |}, w))
  /\ cell_registers (solver w') = cell_registers s
  /\ named_expressions (solver w')
     = <["emiss" := ""]> (<["overlay" := ""]> (named_expressions s))
  /\ contour (solver w')
     = <["contour_emissivity" := ContourPlotManager.contour_emissivity []]>
         (contour s)
  /\ surfaces_list (ContourPlotManager.contour_emissivity []) = []
  /\ displayed (solver w') = displayed s ++ ["contour_emissivity"].
Proof.
  intros s Hbc Hnone w'.
  assert (Hcollect : forall w, walls (solver w) = walls s ->
            EmissivityManager.collect_emissivities EmissivityManager.init w
            = (Ok {| EmissivityManager.e_dict := [] |}, w)).
  { intros w Hw. unfold EmissivityManager.collect_emissivities, mbind, M_bind, gets.
    rewrite Hw. now apply collect_no_settings. }
  split; [intros w Hw; apply Hcollect; now rewrite Hw|].
  set (w0 := {| solver := s; stdout := []; stdin := lines |}).
  destruct (solver_prepared_fields w0) as (_ & Hw & Hne & Hcr & Hco & Hdi).
  assert (Hrun : visualize_loaded w0
                 = (match stdin w0 with [] => Raise EOFError | _ => Ok tt end,
                    finished [] w0)).
  { apply visualize_loaded_spec; [exact Hbc|]. now rewrite Hcollect. }
  subst w'. unfold visualize_e. fold s. fold w0. rewrite Hrun. simpl.
  rewrite Hcr, Hne, Hco, Hdi, app_nil_r. repeat split; reflexivity.
Qed.

(** C1: the end-to-end scenario. With walls [A] and [B] at 0.8, [C] at 0.5
    and [D] without a setting, the grouping is [{0.8: [A, B], 0.5: [C]}];
    the run adds exactly the two cell registers [e__0_8] over [(A B)] and
    [e__0_5] over [(C)], binds [overlay] and [emiss] to the two sums, and
    creates and displays the contour over the surfaces [A], [B], [C]. *)
Theorem end_to_end_scenario
    (case_file : string) (cores : Z) (gui_mode : bool) (lines : list string) :
  let s := loaded launch_fluent read_case case_file cores gui_mode in
  bc_active s = true ->
  walls s = scenario_walls ->
  let w' := snd (visualize_e launch_fluent read_case case_file cores gui_mode lines) in
  (forall w, solver w = s ->
     EmissivityManager.collect_emissivities EmissivityManager.init w
     = (Ok {| EmissivityManager.e_dict :=
                [(emissivity_0_8, ["A"; "B"]); (emissivity_0_5, ["C"])] |}, w))
  /\ cell_registers (solver w')
     = cell_registers s
       ++ [["e__0_8"; "type"; "boundary"; "boundary-list"; "(A B)"];
           ["e__0_5"; "type"; "boundary"; "boundary-list"; "(C)"]]
  /\ named_expressions (solver w')
     = <["emiss" :=
           "IF(AND(overlay<2,e__0_8),0.8,0)+IF(AND(overlay<2,e__0_5),0.5,0)"]>
         (<["overlay" := "IF(e__0_8,1,0)+IF(e__0_5,1,0)"]> (named_expressions s))
  /\ contour (solver w')
     = <["contour_emissivity" :=
           ContourPlotManager.contour_emissivity ["A"; "B"; "C"]]> (contour s)
  /\ surfaces_list (ContourPlotManager.contour_emissivity ["A"; "B"; "C"])
     = ["A"; "B"; "C"]
  /\ displayed (solver w') = displayed s ++ ["contour_emissivity"].
Proof.
  intros s Hbc Hwalls w'.
  split; [intros w Hw; apply scenario_collect; now rewrite Hw|].
  set (w0 := {| solver := s; stdout := []; stdin := lines |}).
  destruct (solver_prepared_fields w0) as (_ & Hw & Hne & Hcr & Hco & Hdi).
  assert (Hrun : visualize_loaded w0
                 = (match stdin w0 with [] => Raise EOFError | _ => Ok tt end,
                    finished scenario_groups w0)).
  { apply visualize_loaded_spec; [exact Hbc|].
    rewrite scenario_collect; [reflexivity|]. now rewrite Hw. }
  subst w'. unfold visualize_e. fold s. fold w0. rewrite Hrun.
  unfold finished, synthesized.
  cbn [snd solver cell_registers named_expressions contour displayed].
  rewrite Hcr, Hne, Hco, Hdi.
  assert (Hregs : registers_of scenario_groups
                  = [["e__0_8"; "type"; "boundary"; "boundary-list"; "(A B)"];
                     ["e__0_5"; "type"; "boundary"; "boundary-list"; "(C)"]])
    by (vm_compute; reflexivity).
  assert (Hoverlay : overlay_of scenario_groups = "IF(e__0_8,1,0)+IF(e__0_5,1,0)")
    by (vm_compute; reflexivity).
  assert (Hemiss : emiss_of scenario_groups
                   = "IF(AND(overlay<2,e__0_8),0.8,0)+IF(AND(overlay<2,e__0_5),0.5,0)")
    by (vm_compute; reflexivity).
  rewrite Hregs, Hoverlay, Hemiss. repeat split; reflexivity.
Qed.

End RunProperties.

(** *** The claims at concrete sessions *)

Lemma inactive_boundary_conditions_abort_witness :
  fst (visualize_e (fun _ _ _ _ => inactive_session) (fun s _ => s)
         "case.cas" 1 false ["go"])
  = Raise (BoundaryConditionError [ArgStr "Load case file first."]).
Proof.
  pose proof (inactive_boundary_conditions_abort
                (fun _ _ _ _ => inactive_session) (fun s _ => s)
                "case.cas" 1 false ["go"] eq_refl) as H.
  cbv zeta in H. destruct H as [H _]. rewrite H. reflexivity.
Defined.

Lemma unsupported_value_rejected_witness :
  fst (visualize_e (fun _ _ _ _ => unsupported_session) (fun s _ => s)
         "case.cas" 1 false ["go"])
  = Raise (ValueError [ArgStr "Unsupported emissivity type: "; ArgType TStr;
                       ArgStr " value: "; ArgValue (PyStr "steel")]).
Proof.
  assert (Hpre : Forall (normalizable unsupported_session)
                   [("A", radiating emissivity_0_8)]).
  { repeat constructor. intros emiss He. injection He as <-.
    eexists. vm_compute. reflexivity. }
  pose proof (unsupported_value_rejected
                (fun _ _ _ _ => unsupported_session) (fun s _ => s)
                "case.cas" 1 false ["go"]
                [("A", radiating emissivity_0_8)] "B" (PyStr "steel")
                [("C", radiating emissivity_0_5)]
                eq_refl eq_refl Hpre eq_refl) as H.
  cbv zeta in H. destruct H as (_ & w' & H & _). rewrite H. reflexivity.
Defined.

Lemma empty_grouping_run_witness :
  named_expressions
    (solver (snd (visualize_e (fun _ _ _ _ => dark_session) (fun s _ => s)
                    "case.cas" 1 false ["go"])))
  = <["emiss" := ""]> (<["overlay" := ""]> ∅).
Proof.
  assert (Hnone : Forall (fun item : string * WallData => in_emiss (snd item) = None)
                    (walls dark_session)).
  { repeat constructor. }
  pose proof (empty_grouping_run
                (fun _ _ _ _ => dark_session) (fun s _ => s)
                "case.cas" 1 false ["go"] eq_refl Hnone) as H.
  cbv zeta in H. destruct H as (_ & _ & H & _). exact H.
Defined.

Lemma end_to_end_scenario_witness :
  cell_registers
    (solver (snd (visualize_e (fun _ _ _ _ => scenario_session) (fun s _ => s)
                    "case.cas" 1 false ["go"])))
  = [["e__0_8"; "type"; "boundary"; "boundary-list"; "(A B)"];
     ["e__0_5"; "type"; "boundary"; "boundary-list"; "(C)"]].
Proof.
  pose proof (end_to_end_scenario
                (fun _ _ _ _ => scenario_session) (fun s _ => s)
                "case.cas" 1 false ["go"] eq_refl eq_refl) as H.
  cbv zeta in H. destruct H as (_ & H & _). exact H.
Defined.

(** ** Further properties of the classes

    Properties of the code beside the claims: the grouping
    [collect_emissivities] builds, what normalization returns and raises,
    the names, the creating steps, and every way a run ends. *)

(** *** [==] on floats *)

(** [==] on floats: the same float, NaN apart, or two zeros. *)
Lemma float_eq_spec (x y : Py.float) :
  Py.float_eq x y = true
  <-> (x = y /\ x <> S754_nan) \/ (exists a b, x = S754_zero a /\ y = S754_zero b).
Proof.
  unfold Py.float_eq, SFeqb. split.
  - destruct x as [[|]|[|]| |[|] m e], y as [[|]|[|]| |[|] n f]; simpl;
      try discriminate;
      try (intros _; right; eexists _, _; split; reflexivity);
      try (intros _; left; split; [reflexivity|discriminate]).
    + destruct (Z.compare_spec e f) as [->|?|?]; simpl; try discriminate.
      change (Pos.compare_cont Eq m n) with (Pos.compare m n).
      destruct (Pos.compare_spec m n) as [->|?|?]; simpl; try discriminate.
      intros _. left. split; [reflexivity|discriminate].
    + destruct (Z.compare_spec e f) as [->|?|?]; simpl; try discriminate.
      change (Pos.compare_cont Eq m n) with (Pos.compare m n).
      destruct (Pos.compare_spec m n) as [->|?|?]; simpl; try discriminate.
      intros _. left. split; [reflexivity|discriminate].
  - intros [[<- Hx]|(a & b & -> & ->)]; [|reflexivity].
    now apply float_eq_refl.
Qed.

Lemma float_eq_sym (x y : Py.float) : Py.float_eq x y = Py.float_eq y x.
Proof.
  apply eq_true_iff_eq. rewrite !float_eq_spec. split.
  - intros [[<- H]|(a & b & -> & ->)]; [now left|right; eauto].
  - intros [[<- H]|(a & b & -> & ->)]; [now left|right; eauto].
Qed.

Lemma float_eq_trans (x y z : Py.float) :
  Py.float_eq x y = true -> Py.float_eq y z = true -> Py.float_eq x z = true.
Proof.
  rewrite !float_eq_spec.
  intros [[<- Hx]|(a & b & -> & ->)] [[<- Hy]|(c & d & E & ->)]; eauto 10.
Qed.

(** *** One step of the grouping *)

Lemma get_setdefault_append (q x : Py.float) (w : string)
    (d : list (Py.float * list string)) :
  get q (EmissivityManager.setdefault_append x w d)
  = get q d ++ (if Py.float_eq q x then [w] else []).
Proof.
  unfold get. induction d as [|[k ws] d IH]; simpl.
  - rewrite (float_eq_sym x q). now destruct (Py.float_eq q x).
  - destruct (Py.float_eq k x) eqn:Ekx; simpl.
    + destruct (Py.float_eq k q) eqn:Ekq; simpl.
      * rewrite (float_eq_sym q x), (float_eq_trans x k q); [reflexivity| |exact Ekq].
        now rewrite float_eq_sym.
      * destruct (Py.float_eq q x) eqn:Eqx; [|now rewrite app_nil_r].
        rewrite (float_eq_trans k x q) in Ekq; [discriminate Ekq|exact Ekx|].
        now rewrite float_eq_sym.
    + destruct (Py.float_eq k q) eqn:Ekq; simpl; [|exact IH].
      destruct (Py.float_eq q x) eqn:Eqx; [|now rewrite app_nil_r].
      rewrite (float_eq_trans k q x Ekq Eqx) in Ekx. discriminate Ekx.
Qed.

Lemma walls_at_snoc (q : Py.float) (l : list (string * Py.float)) (w : string)
    (x : Py.float) :
  walls_at q (l ++ [(w, x)])
  = walls_at q l ++ (if Py.float_eq q x then [w] else []).
Proof.
  unfold walls_at. rewrite filter_app, map_app. f_equal.
  rewrite filter_cons, filter_nil. simpl.
  destruct (Py.float_eq q x); [now rewrite decide_True|now rewrite decide_False].
Qed.

Lemma add_walls_snoc (l : list (string * Py.float)) (w : string) (x : Py.float)
    (d : list (Py.float * list string)) :
  add_walls (l ++ [(w, x)]) d
  = EmissivityManager.setdefault_append x w (add_walls l d).
Proof. unfold add_walls. now rewrite fold_left_app. Qed.

(** What [d.get(q, [])] returns after the walls [l] are added. *)
Lemma get_add_walls (q : Py.float) (l : list (string * Py.float))
    (d : list (Py.float * list string)) :
  get q (add_walls l d) = get q d ++ walls_at q l.
Proof.
  induction l as [|[w x] l IH] using rev_ind.
  - unfold walls_at. simpl. now rewrite app_nil_r.
  - rewrite add_walls_snoc, get_setdefault_append, IH, walls_at_snoc.
    now rewrite app_assoc.
Qed.

(** *** The groups after the walls are added *)

(** The keys after one wall is added: a new key goes last. *)
Lemma keys_setdefault_append (x : Py.float) (w : string)
    (d : list (Py.float * list string)) :
  map fst (EmissivityManager.setdefault_append x w d)
  = if existsb (fun k => Py.float_eq k x) (map fst d)
    then map fst d else map fst d ++ [x].
Proof.
  induction d as [|[k ws] d IH]; simpl; [reflexivity|].
  destruct (Py.float_eq k x); simpl; [reflexivity|].
  rewrite IH. now destruct (existsb _ _).
Qed.

Lemma distinct_keys_snoc (ks : list Py.float) (x : Py.float) :
  distinct_keys ks -> Forall (fun k => Py.float_eq k x = false) ks ->
  distinct_keys (ks ++ [x]).
Proof.
  induction ks as [|k ks IH]; simpl; intros Hd Hx.
  - split; [constructor|exact I].
  - destruct Hd as [Hk Hd]. apply Forall_cons in Hx. destruct Hx as [Hkx Hx].
    split; [|now apply IH].
    apply Forall_app. split; [exact Hk|]. now repeat constructor.
Qed.

Lemma distinct_keys_add_walls (l : list (string * Py.float)) :
  distinct_keys (map fst (add_walls l [])).
Proof.
  induction l as [|[w x] l IH] using rev_ind; [exact I|].
  rewrite add_walls_snoc, keys_setdefault_append.
  destruct (existsb _ _) eqn:E; [exact IH|].
  apply distinct_keys_snoc; [exact IH|].
  apply Forall_forall. intros k Hk.
  destruct (Py.float_eq k x) eqn:Ekx; [|reflexivity].
  rewrite <- E. symmetry. apply existsb_exists. exists k.
  split; [now apply list_elem_of_In|exact Ekx].
Qed.

Lemma keys_add_walls_sublist (l : list (string * Py.float)) :
  map fst (add_walls l []) `sublist_of` map snd l.
Proof.
  induction l as [|[w x] l IH] using rev_ind; [constructor|].
  rewrite add_walls_snoc, keys_setdefault_append, map_app. simpl.
  destruct (existsb _ _).
  - now apply sublist_inserts_r.
  - now apply sublist_app.
Qed.

Lemma group_of_walls_mono (l l' : list (string * Py.float))
    (g : Py.float * list string) :
  group_of_walls l g -> group_of_walls (l ++ l') g.
Proof.
  intros (w0 & rest & Hg & H0 & Hrest). exists w0, rest.
  split; [exact Hg|]. split; [apply elem_of_app; now left|].
  eapply Forall_impl; [exact Hrest|]. intros w (x & Hx & Hkx).
  exists x. split; [apply elem_of_app; now left|exact Hkx].
Qed.

Lemma groups_setdefault_append (l : list (string * Py.float)) (w : string)
    (x : Py.float) (d : list (Py.float * list string)) :
  Forall (group_of_walls l) d ->
  Forall (group_of_walls (l ++ [(w, x)])) (EmissivityManager.setdefault_append x w d).
Proof.
  assert (Hlast : (w, x) ∈ l ++ [(w, x)]).
  { apply elem_of_app. right. apply list_elem_of_here. }
  induction d as [|[k ws] d IH]; intros Hd; simpl.
  - repeat constructor. exists w, []. simpl. repeat split; [exact Hlast|constructor].
  - apply Forall_cons in Hd. destruct Hd as [Hg Hd].
    destruct (Py.float_eq k x) eqn:Ekx.
    + constructor.
      * destruct Hg as (w0 & rest & Hws & H0 & Hrest). simpl in *. subst ws.
        exists w0, (rest ++ [w]). simpl. split; [reflexivity|].
        split; [apply elem_of_app; now left|].
        apply Forall_app. split.
        -- eapply Forall_impl; [exact Hrest|]. intros w' (x' & Hx' & Hkx').
           exists x'. split; [apply elem_of_app; now left|exact Hkx'].
        -- repeat constructor. exists x. now split.
      * eapply Forall_impl; [exact Hd|]. intros g. apply group_of_walls_mono.
    + constructor; [now apply group_of_walls_mono|now apply IH].
Qed.

Lemma groups_add_walls (l : list (string * Py.float)) :
  Forall (group_of_walls l) (add_walls l []).
Proof.
  induction l as [|[w x] l IH] using rev_ind; [constructor|].
  rewrite add_walls_snoc. now apply groups_setdefault_append.
Qed.

(** *** The loop of [collect_emissivities], as [add_walls] *)

Lemma add_walls_cons (w : string) (x : Py.float) (l : list (string * Py.float))
    (d : list (Py.float * list string)) :
  add_walls ((w, x) :: l) d
  = add_walls l (EmissivityManager.setdefault_append x w d).
Proof. reflexivity. Qed.

Lemma keyed_walls_cons (s : Solver) (wall : string) (wall_data : WallData)
    (walls : list (string * WallData)) :
  keyed_walls s ((wall, wall_data) :: walls)
  = match in_emiss wall_data with
    | Some emiss =>
        match normalized s (value emiss) with
        | Ok x => (wall, x) :: keyed_walls s walls
        | Raise _ => keyed_walls s walls
        end
    | None => keyed_walls s walls
    end.
Proof.
  unfold keyed_walls, wall_key. simpl.
  destruct (in_emiss wall_data) as [emiss|]; [|reflexivity].
  now destruct (normalized s (value emiss)).
Qed.

Lemma collect_add_walls walls : forall self self' (w w' : World),
  for_fold EmissivityManager.collect_wall walls self w = (Ok self', w') ->
  EmissivityManager.e_dict self'
  = add_walls (keyed_walls (solver w) walls) (EmissivityManager.e_dict self).
Proof.
  induction walls as [|[wall wall_data] walls IH]; intros self self' w w' H.
  - injection H as <- _. reflexivity.
  - cbn [for_fold] in H. unfold mbind, M_bind in H.
    rewrite collect_wall_normalized in H. rewrite keyed_walls_cons.
    destruct (in_emiss wall_data) as [emiss|].
    + destruct (normalized (solver w) (value emiss)) as [x|e]; [|discriminate H].
      rewrite add_walls_cons. apply IH in H. exact H.
    + apply IH in H. exact H.
Qed.

Lemma keyed_walls_elem (s : Solver) (walls : list (string * WallData))
    (wall : string) (x : Py.float) :
  (wall, x) ∈ keyed_walls s walls
  <-> exists wall_data emiss,
        (wall, wall_data) ∈ walls /\ in_emiss wall_data = Some emiss
        /\ normalized s (value emiss) = Ok x.
Proof.
  unfold keyed_walls. rewrite list_elem_of_omap. split.
  - intros ([wall' wall_data] & Hin & H). unfold wall_key in H. simpl in H.
    destruct (in_emiss wall_data) as [emiss|] eqn:He; [|discriminate H].
    destruct (normalized s (value emiss)) as [y|e] eqn:Hn; [|discriminate H].
    simpl in H. injection H as -> ->. eauto.
  - intros (wall_data & emiss & Hin & He & Hn). exists (wall, wall_data).
    split; [exact Hin|]. unfold wall_key. simpl. now rewrite He, Hn.
Qed.

Lemma get_member (d : list (Py.float * list string)) (k : Py.float)
    (ws : list string) :
  distinct_keys (map fst d) -> (k, ws) ∈ d -> Py.float_eq k k = true ->
  get k d = ws.
Proof.
  unfold get. induction d as [|[k0 ws0] d IH]; intros Hd Hin Hk.
  - inversion Hin.
  - simpl in Hd. destruct Hd as [Hk0 Hd]. simpl.
    apply elem_of_cons in Hin. destruct Hin as [Heq|Hin].
    + injection Heq as <- <-. now rewrite Hk.
    + rewrite Forall_forall in Hk0.
      rewrite (Hk0 k); [now apply IH|].
      apply list_elem_of_fmap. now exists (k, ws).
Qed.

Lemma get_group (q : Py.float) (d : list (Py.float * list string)) :
  get q d <> [] -> exists k, (k, get q d) ∈ d /\ Py.float_eq k q = true.
Proof.
  unfold get. destruct (find _ d) as [[k ws]|] eqn:E; [|now intros H].
  intros _. apply find_some in E. destruct E as [Hin Hk].
  exists k. split; [now apply list_elem_of_In|exact Hk].
Qed.

Lemma walls_at_elem (q : Py.float) (l : list (string * Py.float)) (w : string) :
  w ∈ walls_at q l <-> exists x, (w, x) ∈ l /\ Py.float_eq q x = true.
Proof.
  unfold walls_at. rewrite list_elem_of_fmap. split.
  - intros ([w' x] & -> & H). apply list_elem_of_filter in H. exists x.
    destruct H as [H1 H2]. now split.
  - intros (x & Hin & Hx). exists (w, x). split; [reflexivity|].
    apply list_elem_of_filter. now split.
Qed.

Lemma keyed_walls_names (s : Solver) (walls : list (string * WallData)) :
  map fst (keyed_walls s walls) `sublist_of` map fst walls.
Proof.
  induction walls as [|[wall wall_data] walls IH]; [constructor|].
  rewrite keyed_walls_cons. simpl.
  destruct (in_emiss wall_data) as [emiss|]; [|now constructor].
  destruct (normalized s (value emiss)); simpl; now constructor.
Qed.

Lemma keyed_walls_functional (s : Solver) (walls : list (string * WallData))
    (wall : string) (x y : Py.float) :
  NoDup (map fst walls) ->
  (wall, x) ∈ keyed_walls s walls -> (wall, y) ∈ keyed_walls s walls -> x = y.
Proof.
  intros Hnd.
  assert (H : NoDup (map fst (keyed_walls s walls))).
  { eapply sublist_NoDup; [exact Hnd|apply keyed_walls_names]. }
  revert H. generalize (keyed_walls s walls). intros l.
  induction l as [|[w0 x0] l IH]; intros Hl Hx Hy; [inversion Hx|].
  simpl in Hl. apply NoDup_cons in Hl. destruct Hl as [Hout Hl].
  apply elem_of_cons in Hx. apply elem_of_cons in Hy.
  destruct Hx as [Hx|Hx], Hy as [Hy|Hy].
  - congruence.
  - exfalso. apply Hout. injection Hx as <- _.
    apply list_elem_of_fmap. now exists (wall, y).
  - exfalso. apply Hout. injection Hy as <- _.
    apply list_elem_of_fmap. now exists (wall, x).
  - now apply IH.
Qed.

Lemma collected_groups (self m : EmissivityManager.t) (w w' : World) :
  EmissivityManager.collect_emissivities self w = (Ok m, w') ->
  EmissivityManager.e_dict m
  = add_walls (keyed_walls (solver w) (walls (solver w)))
      (EmissivityManager.e_dict self).
Proof.
  unfold EmissivityManager.collect_emissivities, mbind, M_bind, gets. simpl.
  apply collect_add_walls.
Qed.

Lemma distinct_keys_lookup (ks : list Py.float) :
  distinct_keys ks ->
  forall (i j : nat) (a b : Py.float),
    (i < j)%nat -> ks !! i = Some a -> ks !! j = Some b -> Py.float_eq a b = false.
Proof.
  induction ks as [|k ks IH]; intros Hd i j a b Hij Ha Hb; [discriminate Ha|].
  destruct Hd as [Hk Hd]. destruct j as [|j]; [lia|]. simpl in Hb.
  destruct i as [|i].
  - injection Ha as <-. rewrite Forall_forall in Hk. apply Hk.
    eapply list_elem_of_lookup_2. exact Hb.
  - simpl in Ha. apply (IH Hd i j); [lia|exact Ha|exact Hb].
Qed.

Lemma collect_ok_normalizable walls : forall self self' (w w' : World),
  for_fold EmissivityManager.collect_wall walls self w = (Ok self', w') ->
  Forall (normalizable (solver w)) walls.
Proof.
  induction walls as [|[wall wall_data] walls IH]; intros self self' w w' H.
  - constructor.
  - cbn [for_fold] in H. unfold mbind, M_bind in H.
    rewrite collect_wall_normalized in H.
    destruct (in_emiss wall_data) as [emiss|] eqn:He.
    + destruct (normalized (solver w) (value emiss)) as [x|e] eqn:Hn;
        [|discriminate H].
      constructor; [|exact (IH _ _ _ _ H)].
      intros emiss' He'. simpl in He'. rewrite He in He'. injection He' as <-.
      now exists x.
    + constructor; [|exact (IH _ _ _ _ H)].
      intros emiss' He'. simpl in He'. rewrite He in He'. discriminate He'.
Qed.

Lemma setdefault_append_keeps (x : Py.float) (w : string)
    (d : list (Py.float * list string)) (i : nat) (k : Py.float)
    (ws : list string) :
  d !! i = Some (k, ws) ->
  exists ws', EmissivityManager.setdefault_append x w d !! i = Some (k, ws ++ ws').
Proof.
  revert i. induction d as [|[k0 ws0] d IH]; intros i Hi; [discriminate Hi|].
  simpl. destruct (Py.float_eq k0 x).
  - destruct i as [|i]; simpl in *.
    + injection Hi as <- <-. now exists [w].
    + exists []. now rewrite app_nil_r.
  - destruct i as [|i]; simpl in *.
    + injection Hi as <- <-. exists []. now rewrite app_nil_r.
    + now apply IH.
Qed.

Lemma add_walls_keeps (l : list (string * Py.float))
    (d : list (Py.float * list string)) (i : nat) (k : Py.float)
    (ws : list string) :
  d !! i = Some (k, ws) ->
  exists ws', add_walls l d !! i = Some (k, ws ++ ws').
Proof.
  revert d ws. induction l as [|[w x] l IH]; intros d ws Hi.
  - exists []. now rewrite app_nil_r.
  - rewrite add_walls_cons.
    destruct (setdefault_append_keeps x w d i k ws Hi) as [ws1 H1].
    destruct (IH _ _ H1) as [ws2 H2]. exists (ws1 ++ ws2).
    now rewrite app_assoc.
Qed.

(** A key of a grouping is the normalized value of a setting. *)
Lemma collected_key (w w' : World) (m : EmissivityManager.t) (k : Py.float)
    (ws : list string) :
  EmissivityManager.collect_emissivities EmissivityManager.init w = (Ok m, w') ->
  (k, ws) ∈ EmissivityManager.e_dict m ->
  exists v, normalized (solver w) v = Ok k.
Proof.
  intros Hc Hin. apply collected_groups in Hc. simpl in Hc. rewrite Hc in Hin.
  pose proof (groups_add_walls (keyed_walls (solver w) (walls (solver w)))) as Hg.
  rewrite Forall_forall in Hg.
  destruct (Hg _ Hin) as (first & rest & _ & Hfirst & _). simpl in Hfirst.
  apply keyed_walls_elem in Hfirst.
  destruct Hfirst as (wall_data & emiss & _ & _ & H). now exists (value emiss).
Qed.

Lemma groups_length (l : list (string * Py.float))
    (d : list (Py.float * list string)) :
  Forall (group_of_walls l) d -> (length d <= length (grouped_walls d))%nat.
Proof.
  unfold grouped_walls. induction 1 as [|[k ws] d Hg _ IH]; simpl; [lia|].
  destruct Hg as (first & rest & Hws & _). simpl in Hws. subst ws.
  rewrite length_app. simpl. lia.
Qed.

(** *** The grouping [collect_emissivities] builds *)

(** X1: a group of a fresh manager's grouping lists exactly the walls whose
    normalized emissivity is [==] to its key, in the order in which the solver
    lists its walls (a NaN key, which is [==] to nothing, apart). *)
Theorem group_lists_walls_of_its_key (w w' : World) (e_manager : EmissivityManager.t)
    (key : Py.float) (wall_list : list string) :
  EmissivityManager.collect_emissivities EmissivityManager.init w
  = (Ok e_manager, w') ->
  (key, wall_list) ∈ EmissivityManager.e_dict e_manager ->
  key <> S754_nan ->
  wall_list = walls_at key (keyed_walls (solver w) (walls (solver w))).
Proof.
  intros Hc Hin Hk. apply collected_groups in Hc. simpl in Hc.
  rewrite Hc in Hin.
  rewrite <- (get_member _ key wall_list (distinct_keys_add_walls _) Hin)
    by now apply float_eq_refl.
  now rewrite get_add_walls.
Qed.

Lemma group_lists_walls_of_its_key_witness :
  ["A"; "B"] = walls_at emissivity_0_8 (keyed_walls scenario_session scenario_walls).
Proof.
  apply (group_lists_walls_of_its_key
           {| solver := scenario_session; stdout := []; stdin := [] |}
           {| solver := scenario_session; stdout := []; stdin := [] |}
           {| EmissivityManager.e_dict := scenario_groups |}
           emissivity_0_8 ["A"; "B"]).
  - reflexivity.
  - apply list_elem_of_here.
  - vm_compute. discriminate.
Defined.

(** X2: no group of a fresh manager's grouping is empty: the key of a group is
    the normalized emissivity of the first wall of its list, and the normalized
    emissivity of every other wall of the list is [==] to it. *)
Theorem group_key_is_first_wall (w w' : World) (e_manager : EmissivityManager.t)
    (key : Py.float) (wall_list : list string) :
  EmissivityManager.collect_emissivities EmissivityManager.init w
  = (Ok e_manager, w') ->
  (key, wall_list) ∈ EmissivityManager.e_dict e_manager ->
  exists first rest,
    wall_list = first :: rest
    /\ (exists wall_data emiss,
          (first, wall_data) ∈ walls (solver w)
          /\ in_emiss wall_data = Some emiss
          /\ normalized (solver w) (value emiss) = Ok key)
    /\ Forall (fun wall =>
                 exists wall_data emiss x,
                   (wall, wall_data) ∈ walls (solver w)
                   /\ in_emiss wall_data = Some emiss
                   /\ normalized (solver w) (value emiss) = Ok x
                   /\ Py.float_eq key x = true) rest.
Proof.
  intros Hc Hin. apply collected_groups in Hc. simpl in Hc. rewrite Hc in Hin.
  pose proof (groups_add_walls (keyed_walls (solver w) (walls (solver w)))) as Hg.
  rewrite Forall_forall in Hg.
  destruct (Hg _ Hin) as (first & rest & Hws & Hfirst & Hrest). simpl in *.
  exists first, rest. split; [exact Hws|]. split.
  - now apply keyed_walls_elem.
  - eapply Forall_impl; [exact Hrest|]. intros wall (x & Hx & Hkx).
    apply keyed_walls_elem in Hx. destruct Hx as (wall_data & emiss & H1 & H2 & H3).
    now exists wall_data, emiss, x.
Qed.

Lemma group_key_is_first_wall_witness :
  exists first rest,
    ["A"; "B"] = first :: rest
    /\ (exists wall_data emiss,
          (first, wall_data) ∈ scenario_walls
          /\ in_emiss wall_data = Some emiss
          /\ normalized scenario_session (value emiss) = Ok emissivity_0_8)
    /\ Forall (fun wall =>
                 exists wall_data emiss x,
                   (wall, wall_data) ∈ scenario_walls
                   /\ in_emiss wall_data = Some emiss
                   /\ normalized scenario_session (value emiss) = Ok x
                   /\ Py.float_eq emissivity_0_8 x = true) rest.
Proof.
  apply (group_key_is_first_wall
           {| solver := scenario_session; stdout := []; stdin := [] |}
           {| solver := scenario_session; stdout := []; stdin := [] |}
           {| EmissivityManager.e_dict := scenario_groups |}
           emissivity_0_8 ["A"; "B"]).
  - reflexivity.
  - apply list_elem_of_here.
Defined.

(** X3: the keys of a fresh manager's grouping: no key is [==] to a later one,
    and the keys stand in the order in which the solver lists the walls that
    brought them. *)
Theorem group_keys_distinct_in_order (w w' : World) (e_manager : EmissivityManager.t) :
  EmissivityManager.collect_emissivities EmissivityManager.init w
  = (Ok e_manager, w') ->
  let keys := map fst (EmissivityManager.e_dict e_manager) in
  (forall (i j : nat) (a b : Py.float),
     (i < j)%nat -> keys !! i = Some a -> keys !! j = Some b ->
     Py.float_eq a b = false)
  /\ keys `sublist_of` map snd (keyed_walls (solver w) (walls (solver w))).
Proof.
  intros Hc keys. apply collected_groups in Hc. simpl in Hc.
  unfold keys. rewrite Hc. split.
  - apply distinct_keys_lookup, distinct_keys_add_walls.
  - apply keys_add_walls_sublist.
Qed.

Lemma group_keys_distinct_in_order_witness :
  Py.float_eq emissivity_0_8 emissivity_0_5 = false.
Proof.
  apply (proj1 (group_keys_distinct_in_order
                  {| solver := scenario_session; stdout := []; stdin := [] |}
                  {| solver := scenario_session; stdout := []; stdin := [] |}
                  {| EmissivityManager.e_dict := scenario_groups |} eq_refl)
           0%nat 1%nat); [lia|reflexivity|reflexivity].
Defined.

(** X4: two different walls share a group of a fresh manager's grouping exactly
    when their normalized emissivities are [==]. *)
Theorem walls_share_group_iff_equal_keys (w w' : World)
    (e_manager : EmissivityManager.t) (a b : string) (xa xb : Py.float) :
  NoDup (map fst (walls (solver w))) ->
  EmissivityManager.collect_emissivities EmissivityManager.init w
  = (Ok e_manager, w') ->
  (a, xa) ∈ keyed_walls (solver w) (walls (solver w)) ->
  (b, xb) ∈ keyed_walls (solver w) (walls (solver w)) ->
  a <> b ->
  (exists g, g ∈ EmissivityManager.e_dict e_manager /\ a ∈ snd g /\ b ∈ snd g)
  <-> Py.float_eq xa xb = true.
Proof.
  intros Hnd Hc Ha Hb Hab. apply collected_groups in Hc. simpl in Hc. rewrite Hc.
  set (L := keyed_walls (solver w) (walls (solver w))) in *.
  assert (Hfun : forall wall x y, (wall, x) ∈ L -> (wall, y) ∈ L -> x = y).
  { intros wall x y. now apply keyed_walls_functional. }
  split.
  - intros ([k ws] & Hg & Hna & Hnb). simpl in *.
    pose proof (groups_add_walls L) as HG. rewrite Forall_forall in HG.
    destruct (HG _ Hg) as (first & rest & Hws & Hfirst & Hrest). simpl in *.
    subst ws.
    rewrite Forall_forall in Hrest.
    apply elem_of_cons in Hna. apply elem_of_cons in Hnb.
    destruct Hna as [->|Hna], Hnb as [->|Hnb].
    + now contradiction Hab.
    + destruct (Hrest _ Hnb) as (x & Hx & Hkx).
      now rewrite (Hfun _ _ _ Ha Hfirst), (Hfun _ _ _ Hb Hx).
    + destruct (Hrest _ Hna) as (x & Hx & Hkx).
      rewrite (Hfun _ _ _ Hb Hfirst), (Hfun _ _ _ Ha Hx).
      now rewrite float_eq_sym.
    + destruct (Hrest _ Hna) as (x & Hx & Hkx).
      destruct (Hrest _ Hnb) as (y & Hy & Hky).
      rewrite (Hfun _ _ _ Ha Hx), (Hfun _ _ _ Hb Hy).
      apply (float_eq_trans x k y); [now rewrite float_eq_sym|exact Hky].
  - intros Heq.
    assert (Haa : Py.float_eq xa xa = true).
    { apply (float_eq_trans xa xb xa); [exact Heq|now rewrite float_eq_sym]. }
    assert (Hwa : a ∈ get xa (add_walls L [])).
    { rewrite get_add_walls. apply walls_at_elem. now exists xa. }
    assert (Hwb : b ∈ get xa (add_walls L [])).
    { rewrite get_add_walls. apply walls_at_elem. now exists xb. }
    destruct (get_group xa (add_walls L [])) as (k & Hk & _).
    { intros Hnil. rewrite Hnil in Hwa. inversion Hwa. }
    now exists (k, get xa (add_walls L [])).
Qed.

Lemma walls_share_group_iff_equal_keys_witness :
  exists g, g ∈ scenario_groups /\ "A" ∈ snd g /\ "B" ∈ snd g.
Proof.
  apply (walls_share_group_iff_equal_keys
           {| solver := scenario_session; stdout := []; stdin := [] |}
           {| solver := scenario_session; stdout := []; stdin := [] |}
           {| EmissivityManager.e_dict := scenario_groups |}
           "A" "B" emissivity_0_8 emissivity_0_8).
  - apply (bool_decide_unpack _). vm_compute. exact I.
  - reflexivity.
  - apply list_elem_of_here.
  - apply list_elem_of_further, list_elem_of_here.
  - discriminate.
  - reflexivity.
Defined.

(** X5: [collect_emissivities] does not start from an empty grouping: called on
    a manager that already holds groups, it keeps each of them at its place,
    with its key, and extends its list; and the walls it adds are the walls of
    the session that have a setting, each once more. *)
Theorem collect_emissivities_accumulates (self self' : EmissivityManager.t)
    (w w' : World) :
  EmissivityManager.collect_emissivities self w = (Ok self', w') ->
  (forall (i : nat) (key : Py.float) (wall_list : list string),
     EmissivityManager.e_dict self !! i = Some (key, wall_list) ->
     exists added,
       EmissivityManager.e_dict self' !! i = Some (key, wall_list ++ added))
  /\ grouped_walls (EmissivityManager.e_dict self')
     ≡ₚ radiating_walls (walls (solver w))
        ++ grouped_walls (EmissivityManager.e_dict self).
Proof.
  intros Hc. split.
  - intros i key wall_list Hi. rewrite (collected_groups _ _ _ _ Hc).
    now apply add_walls_keeps.
  - unfold EmissivityManager.collect_emissivities, mbind, M_bind, gets in Hc.
    simpl in Hc. exact (collected_walls _ _ _ _ _ Hc).
Qed.

Lemma collect_emissivities_accumulates_witness :
  grouped_walls [(emissivity_0_8, ["A"; "B"; "A"; "B"]); (emissivity_0_5, ["C"; "C"])]
  ≡ₚ radiating_walls scenario_walls ++ grouped_walls scenario_groups.
Proof.
  apply (proj2 (collect_emissivities_accumulates
                  {| EmissivityManager.e_dict := scenario_groups |}
                  {| EmissivityManager.e_dict :=
                       [(emissivity_0_8, ["A"; "B"; "A"; "B"]);
                        (emissivity_0_5, ["C"; "C"])] |}
                  {| solver := scenario_session; stdout := []; stdin := [] |}
                  {| solver := scenario_session; stdout := []; stdin := [] |}
                  eq_refl)).
Defined.

(** X6: a second call of [collect_emissivities] on the same manager and session
    succeeds as the first did and lists every wall once more: each wall of the
    grouping is then listed twice as often. *)
Theorem second_collection_doubles (w w1 : World) (first : EmissivityManager.t) :
  EmissivityManager.collect_emissivities EmissivityManager.init w
  = (Ok first, w1) ->
  exists second,
    EmissivityManager.collect_emissivities first w1 = (Ok second, w)
    /\ forall wall : string,
         count_occ string_dec (grouped_walls (EmissivityManager.e_dict second)) wall
         = (2 * count_occ string_dec
                  (grouped_walls (EmissivityManager.e_dict first)) wall)%nat.
Proof.
  intros Hc.
  assert (Hw : w1 = w).
  { pose proof (read_only_collect_emissivities EmissivityManager.init w) as H.
    rewrite Hc in H. exact H. }
  subst w1.
  unfold EmissivityManager.collect_emissivities, mbind, M_bind, gets in *.
  simpl in *.
  destruct (collect_normalizable (walls (solver w)) first w
              (collect_ok_normalizable _ _ _ _ _ Hc)) as [second Hs].
  exists second. split; [exact Hs|]. intros wall.
  apply collected_walls in Hc. apply collected_walls in Hs.
  rewrite (Permutation_count_occ string_dec) in Hc, Hs.
  rewrite Hs, count_occ_app, Hc, count_occ_app. simpl. lia.
Qed.

Lemma second_collection_doubles_witness :
  exists second,
    EmissivityManager.collect_emissivities
      {| EmissivityManager.e_dict := scenario_groups |}
      {| solver := scenario_session; stdout := []; stdin := [] |}
    = (Ok second, {| solver := scenario_session; stdout := []; stdin := [] |})
    /\ forall wall : string,
         count_occ string_dec (grouped_walls (EmissivityManager.e_dict second)) wall
         = (2 * count_occ string_dec (grouped_walls scenario_groups) wall)%nat.
Proof.
  apply (second_collection_doubles
           {| solver := scenario_session; stdout := []; stdin := [] |}
           {| solver := scenario_session; stdout := []; stdin := [] |}
           {| EmissivityManager.e_dict := scenario_groups |}).
  reflexivity.
Defined.

(** X7: a fresh manager's grouping has at most as many groups as there are walls
    with a setting, and it is empty exactly when no wall has one. *)
Theorem group_count_bound (w w' : World) (e_manager : EmissivityManager.t) :
  EmissivityManager.collect_emissivities EmissivityManager.init w
  = (Ok e_manager, w') ->
  (length (EmissivityManager.e_dict e_manager)
   <= length (radiating_walls (walls (solver w))))%nat
  /\ (EmissivityManager.e_dict e_manager = []
      <-> radiating_walls (walls (solver w)) = []).
Proof.
  intros Hc.
  assert (Hperm : grouped_walls (EmissivityManager.e_dict e_manager)
                  ≡ₚ radiating_walls (walls (solver w))).
  { unfold EmissivityManager.collect_emissivities, mbind, M_bind, gets in Hc.
    simpl in Hc. apply collected_walls in Hc. simpl in Hc.
    now rewrite app_nil_r in Hc. }
  assert (Hlen : (length (EmissivityManager.e_dict e_manager)
                  <= length (radiating_walls (walls (solver w))))%nat).
  { rewrite <- Hperm. apply collected_groups in Hc. simpl in Hc. rewrite Hc.
    apply (groups_length (keyed_walls (solver w) (walls (solver w)))).
    apply groups_add_walls. }
  split; [exact Hlen|]. split.
  - intros Hd. rewrite Hd in Hperm. now apply Permutation_nil.
  - intros Hr. rewrite Hr in Hlen. simpl in Hlen.
    destruct (EmissivityManager.e_dict e_manager); [reflexivity|simpl in Hlen; lia].
Qed.

Lemma group_count_bound_witness :
  (length scenario_groups <= length (radiating_walls scenario_walls))%nat.
Proof.
  exact (proj1 (group_count_bound
                  {| solver := scenario_session; stdout := []; stdin := [] |}
                  {| solver := scenario_session; stdout := []; stdin := [] |}
                  {| EmissivityManager.e_dict := scenario_groups |} eq_refl)).
Defined.

(** *** Normalization, case by case *)

Lemma normalized_cases (s : Solver) (v : PyValue) :
  normalized s v
  = match v with
    | PyFloat x => Ok (Py.round x 3)
    | PyInt n =>
        match Py.float_of_int n with Some x => Ok x | None => Raise too_large end
    | PyBool b =>
        match Py.float_of_int (Z.b2z b) with
        | Some x => Ok x
        | None => Raise too_large
        end
    | PyStr name =>
        match named_expressions s !! name with
        | Some _ => Ok (Py.round (expression_value s name) 3)
        | None => Raise (unsupported_error v)
        end
    | PyNone => Raise (unsupported_error v)
    end.
Proof.
  unfold normalized, normalize, EmissivityProcessorFactory.create.
  destruct v as [x|n|b|name|]; try reflexivity; simpl;
    unfold mbind, M_bind, gets; simpl.
  - unfold IntEmissivityProcessor.process. now destruct (Py.float_of_int n).
  - unfold IntEmissivityProcessor.process. now destruct (Py.float_of_int (Z.b2z b)).
  - destruct (named_expressions s !! name) as [def|] eqn:E.
    + rewrite !bool_decide_eq_true_2 by eauto. simpl.
      unfold NamedExpressionEmissivityProcessor.process, mbind, M_bind, gets.
      simpl. now rewrite E.
    + rewrite !bool_decide_eq_false_2 by (intros [? ?]; discriminate).
      reflexivity.
Qed.

Lemma round_of_integer (s : bool) (N : Z) :
  Py.round (Py.round_ratio s N 1) 3 = Py.round_ratio s N 1.
Proof.
  rewrite <- (Numerals.round_ratio_scale s N 1 1000) by lia.
  change (1 * 1000)%Z with 1000%Z. apply PyFacts.round_of_thousandths.
Qed.

Lemma float_of_int_ratio (n : Z) (x : Py.float) :
  Py.float_of_int n = Some x -> x = Py.round_ratio (n <? 0)%Z (Z.abs n) 1.
Proof.
  unfold Py.float_of_int.
  destruct (Py.round_ratio (n <? 0)%Z (Z.abs n) 1); congruence.
Qed.

Lemma normalized_round (s : Solver) (v : PyValue) (x : Py.float) :
  normalized s v = Ok x -> Py.round x 3 = x.
Proof.
  rewrite normalized_cases. destruct v as [y|n|b|name|].
  - intros H. injection H as <-. apply PyFacts.round_idempotent.
  - destruct (Py.float_of_int n) as [y|] eqn:E; [|discriminate].
    intros H. injection H as <-. rewrite (float_of_int_ratio _ _ E).
    apply round_of_integer.
  - destruct (Py.float_of_int (Z.b2z b)) as [y|] eqn:E; [|discriminate].
    intros H. injection H as <-. rewrite (float_of_int_ratio _ _ E).
    apply round_of_integer.
  - destruct (named_expressions s !! name); [|discriminate].
    intros H. injection H as <-. apply PyFacts.round_idempotent.
  - discriminate.
Qed.

Lemma normalized_binary64 (s : Solver) (v : PyValue) (x : Py.float) :
  normalized s v = Ok x -> Py.is_binary64 x = true.
Proof.
  intros H. rewrite <- (normalized_round s v x H). apply round_is_binary64.
Qed.

(** *** The integers [float] converts *)

Module FloatOfInt.
Local Open Scope Z_scope.

Lemma floor_log2_integer (N : Z) :
  (0 < N)%Z ->
  let lg := Py.floor_log2_ratio N 1 in
  (0 <= lg /\ 2 ^ lg <= N < 2 ^ (lg + 1))%Z.
Proof.
  intros HN lg.
  destruct (PyFacts.floor_log2_ratio_spec N 1 HN ltac:(lia)) as [Hl Hl1].
  fold lg in Hl, Hl1.
  assert (H0 : (0 <= lg)%Z).
  { destruct (Z.lt_ge_cases lg 0) as [Hneg|Hpos]; [|exact Hpos].
    exfalso. apply Hl1. apply (PyFacts.ratio_ge_pow2_mono _ 0); [lia|lia|].
    unfold Py.ratio_ge_pow2. change (1 * 1 <= N * 1)%Z. lia. }
  split; [exact H0|].
  unfold Py.ratio_ge_pow2 in Hl, Hl1.
  rewrite (Z.max_r 0 lg), (Z.max_l 0 (- lg)) in Hl by lia.
  rewrite (Z.max_r 0 (lg + 1)), (Z.max_l 0 (- (lg + 1))) in Hl1 by lia.
  change (2 ^ 0)%Z with 1%Z in Hl, Hl1. lia.
Qed.

(** [float(n)] overflows from [2^1024 - 2^970] on, the midpoint of the
    largest float and [2^1024]. *)
Lemma round_ratio_overflow (s : bool) (N : Z) :
  (0 <= N)%Z ->
  (exists s', Py.round_ratio s N 1 = S754_infinity s')
  <-> (2 ^ 1024 - 2 ^ 970 <= N)%Z.
Proof.
  intros HN0.
  assert (HD : exists D : Z,
            (0 < D /\ 2 ^ 970 = D /\ 2 ^ 971 = 2 * D /\ 2 ^ 1023 = 2 ^ 53 * D
             /\ 2 ^ 1024 = 2 ^ 54 * D)%Z).
  { exists (2 ^ 970)%Z. repeat split; reflexivity. }
  destruct HD as (D & HD & E970 & E971 & E1023 & E1024).
  destruct (Z.eq_dec N 0) as [->|HNz].
  { rewrite PyFacts.round_ratio_zero by lia. split.
    - intros [s' H]. discriminate H.
    - rewrite E1024, <- E970. change (2 ^ 54)%Z with 18014398509481984%Z. lia. }
  assert (HN : (0 < N)%Z) by lia.
  pose proof (floor_log2_integer N HN) as Hlg.
  pose proof (PyFacts.normal_quotient_range N 1 HN ltac:(lia)) as Hq.
  cbv zeta in Hlg, Hq.
  unfold Py.round_ratio. rewrite (proj2 (Z.leb_gt N 0) HN).
  set (lg := Py.floor_log2_ratio N 1) in *.
  destruct Hlg as (Hlg0 & Hlo & Hhi).
  rewrite (Z.max_l (lg - 52) (-1074)) by lia.
  set (q := Py.div_half_even _ _) in *.
  assert (Hshape : forall m e', (if (q =? 2 ^ 53)%Z then (2 ^ 52, lg - 52 + 1)%Z
                                 else (q, lg - 52)%Z) = (m, e') ->
            (0 < m)%Z /\ (e' = lg - 52 + 1 /\ q = 2 ^ 53 \/ e' = lg - 52 /\ q <> 2 ^ 53)%Z).
  { intros m e' H. destruct (q =? 2 ^ 53)%Z eqn:Eq.
    - apply Z.eqb_eq in Eq. injection H as <- <-. split; [reflexivity|now left].
    - apply Z.eqb_neq in Eq. injection H as <- <-. split; [lia|now right]. }
  destruct (if (q =? 2 ^ 53)%Z then _ else _) as [m e'] eqn:Em.
  destruct (Hshape m e' eq_refl) as [Hm He']. clear Hshape Em.
  destruct m as [|p|p]; try lia.
  assert (Hinf : (exists s', (if (e' <=? 971)%Z then S754_finite s p e'
                             else S754_infinity s) = S754_infinity s')
                 <-> (971 < e')%Z).
  { destruct (e' <=? 971)%Z eqn:E.
    - apply Z.leb_le in E. split; [intros [s' H]; discriminate H|lia].
    - apply Z.leb_gt in E. split; [intros _; exact E|intros _; now exists s]. }
  rewrite Hinf. clear Hinf.
  destruct (Z.lt_trichotomy lg 1023) as [Hlt|[Heq|Hgt]].
  - (* below 2^1023 *)
    assert (HNlt : (N < 2 ^ 1023)%Z).
    { eapply Z.lt_le_trans; [exact Hhi|]. apply Z.pow_le_mono_r; lia. }
    rewrite E1024, <- E970. rewrite E1023 in HNlt.
    change (2 ^ 53)%Z with 9007199254740992%Z in HNlt.
    change (2 ^ 54)%Z with 18014398509481984%Z. lia.
  - (* between 2^1023 and 2^1024 *)
    subst q. rewrite Heq in *.
    change (Z.max 0 (- (1023 - 52)))%Z with 0%Z in *.
    change (Z.max 0 (1023 - 52))%Z with 971%Z in *.
    change (2 ^ 0)%Z with 1%Z in *. rewrite Z.mul_1_r, Z.mul_1_l in *.
    pose proof (PyFacts.div_half_even_bounds N (2 ^ 971)%Z ltac:(lia)) as Hb.
    destruct (Z.eq_dec N (2 ^ 1024 - 2 ^ 970)%Z) as [HT|HT].
    + subst N.
      assert (Py.div_half_even (2 ^ 1024 - 2 ^ 970) (2 ^ 971) = 2 ^ 53)%Z as Htie
        by (vm_compute; reflexivity).
      rewrite Htie in He'. split; [lia|]. intros _. lia.
    + set (q := Py.div_half_even N (2 ^ 971)) in *.
      rewrite E971 in Hb. rewrite E1024, <- E970 in HT |- *.
      change (2 ^ 53)%Z with 9007199254740992%Z in *.
      change (2 ^ 54)%Z with 18014398509481984%Z in *.
      set (P := (q * D)%Z) in *.
      replace (q * (2 * D))%Z with (2 * P)%Z in Hb by (unfold P; ring).
      split.
      * intros He. assert (Hq53 : q = 9007199254740992%Z) by lia.
        unfold P in Hb. rewrite Hq53 in Hb. lia.
      * intros HNT.
        assert (HP : (9007199254740991 * D < P)%Z) by lia.
        assert (Hq53 : (9007199254740991 < q)%Z).
        { unfold P in HP. apply Z.mul_lt_mono_pos_r in HP; [exact HP|exact HD]. }
        lia.
  - (* 2^1024 and above *)
    assert (HNge : (2 ^ 1024 <= N)%Z).
    { eapply Z.le_trans; [|exact Hlo]. apply Z.pow_le_mono_r; lia. }
    split; [intros _|intros _; lia].
    rewrite E1024, <- E970 in *.
    change (2 ^ 54)%Z with 18014398509481984%Z in *. lia.
Qed.

Lemma float_of_int_overflow (n : Z) :
  Py.float_of_int n = None <-> (2 ^ 1024 - 2 ^ 970 <= Z.abs n)%Z.
Proof.
  rewrite <- (round_ratio_overflow (n <? 0)%Z (Z.abs n)) by lia.
  unfold Py.float_of_int.
  destruct (Py.round_ratio (n <? 0)%Z (Z.abs n) 1) as [a|a| |a m e]; split;
    try discriminate; try (intros [s' H]; discriminate H); eauto.
Qed.

End FloatOfInt.

(** *** What normalization returns and raises *)

(** X8: normalization leaves the world as it is, returns a float exactly for the
    values the factory has a processor for, and raises nothing but the factory's
    [ValueError], for a value it has no processor for, and [OverflowError], for
    an [int]: the lookup of the named expression and the call of the processor
    never fail after the factory's tests. *)
Theorem normalize_outcomes (v : PyValue) (w : World) :
  exists r,
    normalize v w = (r, w)
    /\ match r with
       | Ok _ => supported (solver w) v = true
       | Raise e =>
           (supported (solver w) v = false /\ e = unsupported_error v)
           \/ (supported (solver w) v = true /\ isinstance v TInt = true
               /\ e = too_large)
       end.
Proof.
  exists (normalized (solver w) v). split; [apply normalize_normalized|].
  rewrite normalized_cases. unfold supported.
  destruct v as [x|n|b|name|]; simpl.
  - reflexivity.
  - destruct (Py.float_of_int n); [reflexivity|]. right. now repeat split.
  - destruct (Py.float_of_int (Z.b2z b)); [reflexivity|]. right. now repeat split.
  - destruct (named_expressions (solver w) !! name) as [def|] eqn:E.
    + apply bool_decide_eq_true_2. eauto.
    + left. split; [|reflexivity].
      apply bool_decide_eq_false_2. intros [? ?]. discriminate.
  - left. now split.
Qed.

(** X9: whatever the kind of the input (a float, an int, the name of an
    expression), the float it is normalized to is normalized to itself: an int,
    which is converted and not rounded, gives a float that rounding to 3 places
    leaves alone. *)
Theorem normalize_fixed_point (v : PyValue) (x : Py.float) (w w' : World) :
  normalize v w = (Ok x, w') ->
  normalize (PyFloat x) w = (Ok x, w).
Proof.
  rewrite normalize_normalized. intros H. injection H as H _.
  rewrite normalize_normalized, normalized_cases.
  now rewrite (normalized_round _ _ _ H).
Qed.

Lemma normalize_fixed_point_witness :
  let w := {| solver := scenario_session; stdout := []; stdin := [] |} in
  normalize (PyFloat Py.one) w = (Ok Py.one, w).
Proof.
  intros w. apply (normalize_fixed_point (PyInt 1) Py.one w w). reflexivity.
Defined.

(** X10: an [int] is converted to the float nearest to it, up to the midpoint of
    the largest float and [2^1024]; from there on [float] raises
    [OverflowError], and so does normalization. *)
Theorem normalize_int_overflow (n : Z) (w : World) :
  ((Z.abs n < 2 ^ 1024 - 2 ^ 970)%Z ->
   normalize (PyInt n) w
   = (Ok (Py.round_ratio (n <? 0)%Z (Z.abs n) 1), w))
  /\ ((2 ^ 1024 - 2 ^ 970 <= Z.abs n)%Z ->
      normalize (PyInt n) w = (Raise too_large, w)).
Proof.
  rewrite normalize_normalized, normalized_cases.
  pose proof (FloatOfInt.float_of_int_overflow n) as Hn.
  destruct (Py.float_of_int n) as [x|] eqn:E.
  - split.
    + intros _. now rewrite (float_of_int_ratio _ _ E).
    + intros H. apply Hn in H. discriminate H.
  - split.
    + intros H. pose proof (proj1 Hn eq_refl). lia.
    + reflexivity.
Qed.

Lemma normalize_int_overflow_witness :
  let w := {| solver := scenario_session; stdout := []; stdin := [] |} in
  normalize (PyInt 1) w = (Ok Py.one, w)
  /\ normalize (PyInt (2 ^ 1024)) w = (Raise too_large, w).
Proof.
  intros w. split.
  - apply (proj1 (normalize_int_overflow 1 w)). reflexivity.
  - apply (proj2 (normalize_int_overflow (2 ^ 1024) w)). vm_compute. discriminate.
Defined.

(** X11: a float of the physical range of an emissivity, [0 <= x <= 1], the
    negative zero included, is normalized to a float of that range. *)
Theorem normalize_keeps_unit_interval (x : Py.float) (w : World) :
  unit_interval x = true ->
  exists y, normalize (PyFloat x) w = (Ok y, w) /\ unit_interval y = true.
Proof.
  intros Hx. exists (Py.round x 3). split; [reflexivity|].
  destruct (Py.float_same x (S754_zero true)) eqn:Ezero.
  - destruct x as [[|]|[|]| |[|] m e]; try discriminate Ezero. reflexivity.
  - pose proof unit_keys_in_range as Hall. rewrite forallb_forall in Hall.
    apply Hall, list_elem_of_In, round_unit_interval; [exact Hx|].
    intros ->. discriminate Ezero.
Qed.

Lemma normalize_keeps_unit_interval_witness :
  exists y,
    normalize (PyFloat emissivity_0_8)
      {| solver := scenario_session; stdout := []; stdin := [] |}
    = (Ok y, {| solver := scenario_session; stdout := []; stdin := [] |})
    /\ unit_interval y = true.
Proof.
  apply (normalize_keeps_unit_interval emissivity_0_8). reflexivity.
Defined.

(** *** The characters of a group name *)

(** X12: a group name holds no decimal point, and it is an identifier of the
    expression language exactly when the text of the value holds no sign:
    neither the minus sign of a negative value nor the sign of an exponent. *)
Theorem name_emiss_identifier_iff_unsigned (emiss : Py.float) :
  all_chars (fun c => negb (Ascii.eqb c ".")) (EmissivityManager.name_emiss emiss)
  = true
  /\ is_identifier (EmissivityManager.name_emiss emiss)
     = all_chars is_unsigned_char (Py.str emiss).
Proof.
  unfold EmissivityManager.name_emiss.
  change ("e__" +:+ Py.replace "." "_" (Py.str emiss))
    with (String "e" (String "_" (String "_" (Py.replace "." "_" (Py.str emiss))))).
  split.
  - cbn [all_chars]. now rewrite replace_no_old.
  - cbn [is_identifier all_chars].
    fold is_identifier_char.
    change (all_chars (fun c => is_letter c || is_digit c || Ascii.eqb c "_"))
      with (all_chars is_identifier_char).
    rewrite identifier_chars_replaced by apply str_chars. reflexivity.
Qed.

(** *** The creating steps *)


Lemma names_distinct (ks : list Py.float) :
  distinct_keys ks ->
  Forall (fun k => Py.is_binary64 k = true /\ k <> S754_nan) ks ->
  NoDup (map EmissivityManager.name_emiss ks).
Proof.
  induction ks as [|k ks IH]; intros Hd Hks; simpl; [constructor|].
  destruct Hd as [Hk Hd]. apply Forall_cons in Hks. destruct Hks as [[Hb Hn] Hks].
  constructor; [|now apply IH].
  intros Hin. apply list_elem_of_fmap in Hin. destruct Hin as (k' & Hnames & Hk').
  rewrite Forall_forall in Hk, Hks. destruct (Hks _ Hk') as [Hb' _].
  apply name_emiss_injective in Hnames; [|exact Hb|exact Hb'].
  subst k'. specialize (Hk _ Hk'). rewrite float_eq_refl in Hk by exact Hn.
  discriminate Hk.
Qed.

(** *** The registers, the expressions and their names *)

(** X13: the cell registers of a fresh manager's grouping have names of their
    own: no two groups share a name, when no key is NaN. *)
Theorem register_names_distinct (w w' : World) (e_manager : EmissivityManager.t) :
  EmissivityManager.collect_emissivities EmissivityManager.init w
  = (Ok e_manager, w') ->
  Forall (fun key => key <> S754_nan) (map fst (EmissivityManager.e_dict e_manager)) ->
  NoDup (map (fun g => EmissivityManager.name_emiss (fst g))
           (EmissivityManager.e_dict e_manager)).
Proof.
  intros Hc Hnan. rewrite <- (map_map fst EmissivityManager.name_emiss).
  apply names_distinct.
  - apply collected_groups in Hc. simpl in Hc. rewrite Hc.
    apply distinct_keys_add_walls.
  - rewrite Forall_forall in Hnan |- *. intros k Hk. split; [|now apply Hnan].
    apply list_elem_of_fmap in Hk. destruct Hk as ([k' ws] & -> & Hg).
    destruct (collected_key _ _ _ _ _ Hc Hg) as (v & H).
    exact (normalized_binary64 _ _ _ H).
Qed.

Lemma register_names_distinct_witness :
  NoDup (map (fun g => EmissivityManager.name_emiss (fst g)) scenario_groups).
Proof.
  apply (register_names_distinct
           {| solver := scenario_session; stdout := []; stdin := [] |}
           {| solver := scenario_session; stdout := []; stdin := [] |}
           {| EmissivityManager.e_dict := scenario_groups |}).
  - reflexivity.
  - repeat constructor; vm_compute; discriminate.
Defined.

(** X14: [create_emissivities_cell_registers] never fails; it adds one cell
    register for each group, after the registers of the session and in the order
    of the groups, with the group's name and its walls between parentheses, and
    it changes nothing else. *)
Theorem create_emissivities_cell_registers_appends
    (self : EmissivityManager.t) (w : World) :
  exists w',
    EmissivityManager.create_emissivities_cell_registers self w = (Ok tt, w')
    /\ cell_registers (solver w')
       = cell_registers (solver w)
         ++ map (fun g : Py.float * list string =>
                   [EmissivityManager.name_emiss (fst g); "type"; "boundary";
                    "boundary-list"; "(" +:+ Py.join " " (snd g) +:+ ")"])
              (EmissivityManager.e_dict self)
    /\ named_expressions (solver w') = named_expressions (solver w)
    /\ contour (solver w') = contour (solver w)
    /\ displayed (solver w') = displayed (solver w)
    /\ walls (solver w') = walls (solver w)
    /\ initializations (solver w') = initializations (solver w)
    /\ stdout w' = stdout w /\ stdin w' = stdin w.
Proof.
  destruct self as [d]. eexists. split; [apply create_registers_spec|].
  unfold with_solver. simpl. rewrite cell_registers_fold. simpl. repeat split.
  f_equal. unfold registers_of. apply map_ext. now intros [k ws].
Qed.


(** *** The run, for every session *)

Lemma keyed_walls_prepared (w : World) (walls : list (string * WallData)) :
  keyed_walls (solver (prepared w)) walls = keyed_walls (solver w) walls.
Proof.
  induction walls as [|[wall wall_data] walls IH]; [reflexivity|].
  rewrite !keyed_walls_cons, IH.
  destruct (in_emiss wall_data) as [emiss|]; [|reflexivity].
  now rewrite normalized_prepared.
Qed.

Lemma grouping_prepared (w : World) :
  grouping (solver (prepared w)) = grouping (solver w).
Proof.
  unfold grouping. destruct (solver_prepared_fields w) as (_ & -> & _).
  now rewrite keyed_walls_prepared.
Qed.

Lemma collect_grouping (w : World) :
  Forall (normalizable (solver w)) (walls (solver w)) ->
  EmissivityManager.collect_emissivities EmissivityManager.init w
  = (Ok {| EmissivityManager.e_dict := grouping (solver w) |}, w).
Proof.
  intros H.
  unfold EmissivityManager.collect_emissivities, mbind, M_bind, gets. simpl.
  destruct (collect_normalizable _ EmissivityManager.init w H) as [self' Hs].
  rewrite Hs. f_equal. f_equal.
  apply collect_add_walls in Hs. destruct self' as [d]. simpl in Hs.
  now rewrite Hs.
Qed.

(** The walls are all normalizable, or there is a first one that is not. *)
Lemma first_failure (s : Solver) (walls : list (string * WallData)) :
  Forall (normalizable s) walls
  \/ exists pre wall emiss post e,
       walls = pre ++ (wall, {| in_emiss := Some emiss |}) :: post
       /\ Forall (normalizable s) pre
       /\ normalized s (value emiss) = Raise e.
Proof.
  induction walls as [|[wall [[emiss|]]] walls IH].
  - left. constructor.
  - destruct (normalized s (value emiss)) as [x|e] eqn:E.
    + destruct IH as [IH|(pre & wall' & emiss' & post & e & -> & Hpre & He)].
      * left. constructor; [|exact IH].
        intros emiss' H. injection H as <-. now exists x.
      * right. exists ((wall, {| in_emiss := Some emiss |}) :: pre), wall', emiss',
          post, e.
        split; [reflexivity|]. split; [|exact He].
        constructor; [|exact Hpre].
        intros emiss'' H. injection H as <-. now exists x.
    + right. exists [], wall, emiss, walls, e. repeat split; [constructor|exact E].
  - destruct IH as [IH|(pre & wall' & emiss' & post & e & -> & Hpre & He)].
    + left. constructor; [|exact IH]. intros emiss' H. discriminate H.
    + right. exists ((wall, {| in_emiss := None |}) :: pre), wall', emiss', post, e.
      split; [reflexivity|]. split; [|exact He].
      constructor; [|exact Hpre]. intros emiss'' H. discriminate H.
Qed.

Lemma visualize_loaded_grouping (w : World) :
  bc_active (solver w) = true ->
  Forall (normalizable (solver w)) (walls (solver w)) ->
  visualize_loaded w
  = (match stdin w with [] => Raise EOFError | _ => Ok tt end,
     finished (grouping (solver w)) w).
Proof.
  intros Hbc Hn. apply visualize_loaded_spec; [exact Hbc|].
  rewrite collect_grouping.
  - simpl. now rewrite grouping_prepared.
  - destruct (solver_prepared_fields w) as (_ & -> & _).
    eapply Forall_impl; [exact Hn|]. intros item. apply normalizable_prepared.
Qed.

Lemma visualize_loaded_raises (w : World) pre wall emiss post e :
  bc_active (solver w) = true ->
  walls (solver w) = pre ++ (wall, {| in_emiss := Some emiss |}) :: post ->
  Forall (normalizable (solver w)) pre ->
  normalized (solver w) (value emiss) = Raise e ->
  visualize_loaded w = (Raise e, prepared w).
Proof.
  intros Hbc Hwalls Hpre He. unfold visualize_loaded.
  rewrite (bind_ok _ _ tt w w (check_BCs_active w Hbc)).
  rewrite session_checks. apply bind_raise.
  unfold EmissivityManager.collect_emissivities, mbind, M_bind, gets.
  destruct (solver_prepared_fields w) as (_ & Hw & _).
  rewrite Hw. simpl walls. rewrite Hwalls.
  apply collect_raises.
  - eapply Forall_impl; [exact Hpre|]. intros item. apply normalizable_prepared.
  - now rewrite normalized_prepared.
Qed.

Lemma visualize_loaded_inactive (w : World) :
  bc_active (solver w) = false ->
  visualize_loaded w
  = (Raise (BoundaryConditionError [ArgStr "Load case file first."]), w).
Proof.
  intros Hbc. unfold visualize_loaded. apply bind_raise.
  now apply check_BCs_inactive.
Qed.


(** The three ways a run goes. *)
Lemma visualize_loaded_cases (w : World) :
  (bc_active (solver w) = false
   /\ visualize_loaded w
      = (Raise (BoundaryConditionError [ArgStr "Load case file first."]), w))
  \/ (bc_active (solver w) = true
      /\ exists wall wall_data emiss e,
           (wall, wall_data) ∈ walls (solver w)
           /\ in_emiss wall_data = Some emiss
           /\ normalized (solver w) (value emiss) = Raise e
           /\ visualize_loaded w = (Raise e, prepared w))
  \/ (bc_active (solver w) = true
      /\ Forall (normalizable (solver w)) (walls (solver w))
      /\ visualize_loaded w
         = (match stdin w with [] => Raise EOFError | _ => Ok tt end,
            finished (grouping (solver w)) w)).
Proof.
  destruct (bc_active (solver w)) eqn:Hbc.
  - right.
    destruct (first_failure (solver w) (walls (solver w)))
      as [Hall|(pre & wall & emiss & post & e & Hwalls & Hpre & He)].
    + right. split; [reflexivity|]. split; [exact Hall|].
      now apply visualize_loaded_grouping.
    + left. split; [reflexivity|].
      exists wall, {| in_emiss := Some emiss |}, emiss, e.
      split; [|split; [reflexivity|split; [exact He|]]].
      * rewrite Hwalls. apply elem_of_app. right. apply list_elem_of_here.
      * now apply (visualize_loaded_raises w pre wall emiss post e).
  - left. split; [reflexivity|]. now apply visualize_loaded_inactive.
Qed.

(** *** The run of [visualize_e] *)

Section RunFacts.

Variable launch_fluent : string -> Z -> string -> bool -> Solver.
Variable read_case : Solver -> string -> Solver.

(** X16: a run on a session with active boundary conditions, all of whose wall
    settings normalization accepts, and with a line to read at the prompt,
    succeeds: it adds the registers of the grouping of the walls after those of
    the case, binds [overlay] and [emiss], creates and displays the contour over
    the walls of the groups, and reads one line. *)
Theorem run_succeeds
    (case_file : string) (cores : Z) (gui_mode : bool)
    (line : string) (rest : list string) :
  let s := loaded launch_fluent read_case case_file cores gui_mode in
  bc_active s = true ->
  Forall (normalizable s) (walls s) ->
  exists w',
    visualize_e launch_fluent read_case case_file cores gui_mode (line :: rest)
    = (Ok tt, w')
    /\ (forall w, solver w = s ->
          EmissivityManager.collect_emissivities EmissivityManager.init w
          = (Ok {| EmissivityManager.e_dict := grouping s |}, w))
    /\ cell_registers (solver w') = cell_registers s ++ registers_of (grouping s)
    /\ named_expressions (solver w')
       = <["emiss" := emiss_of (grouping s)]>
           (<["overlay" := overlay_of (grouping s)]> (named_expressions s))
    /\ contour (solver w')
       = <["contour_emissivity" :=
             ContourPlotManager.contour_emissivity (grouped_walls (grouping s))]>
           (contour s)
    /\ displayed (solver w') = displayed s ++ ["contour_emissivity"]
    /\ stdin w' = rest.
Proof.
  intros s Hbc Hn.
  set (w0 := {| solver := s; stdout := []; stdin := line :: rest |}).
  exists (finished (grouping s) w0). split.
  - unfold visualize_e. fold s. fold w0.
    now rewrite (visualize_loaded_grouping w0 Hbc Hn).
  - split.
    + intros w Hw. rewrite <- Hw. apply collect_grouping. now rewrite Hw.
    + destruct (solver_prepared_fields w0) as (_ & Hw & Hne & Hcr & Hco & Hdi).
      simpl. now rewrite Hcr, Hne, Hco, Hdi.
Qed.

(** X17: what a run that gets past the collection writes and reads: the three
    lines of the initialization when the session has no results, then the
    prompt; the solution is initialized once in that case and not at all
    otherwise; and one line of input is consumed. *)
Theorem run_console
    (case_file : string) (cores : Z) (gui_mode : bool) (lines : list string) :
  let s := loaded launch_fluent read_case case_file cores gui_mode in
  bc_active s = true ->
  Forall (normalizable s) (walls s) ->
  let w' := snd (visualize_e launch_fluent read_case case_file cores gui_mode lines) in
  stdout w'
  = (if contour_active s then []
     else ["No data available."; "Initialization..."; "Initialized."])
    ++ ["Press Enter to continue..."]
  /\ initializations (solver w')
     = (if contour_active s then initializations s else S (initializations s))
  /\ stdin w' = tail lines.
Proof.
  intros s Hbc Hn w'.
  set (w0 := {| solver := s; stdout := []; stdin := lines |}).
  subst w'. unfold visualize_e. fold s. fold w0.
  rewrite (visualize_loaded_grouping w0 Hbc Hn). simpl.
  unfold prepared. simpl. now destruct (contour_active s).
Qed.

(** X18: with nothing to read at the prompt the run ends with [EOFError], after
    everything is created: the session it leaves is the one a run with input
    leaves. *)
Theorem run_without_input
    (case_file : string) (cores : Z) (gui_mode : bool) (lines : list string) :
  let s := loaded launch_fluent read_case case_file cores gui_mode in
  bc_active s = true ->
  Forall (normalizable s) (walls s) ->
  fst (visualize_e launch_fluent read_case case_file cores gui_mode [])
  = Raise EOFError
  /\ solver (snd (visualize_e launch_fluent read_case case_file cores gui_mode []))
     = solver (snd (visualize_e launch_fluent read_case case_file cores gui_mode
                      lines))
  /\ displayed
       (solver (snd (visualize_e launch_fluent read_case case_file cores
                       gui_mode [])))
     = displayed s ++ ["contour_emissivity"].
Proof.
  intros s Hbc Hn. unfold visualize_e. fold s.
  rewrite (visualize_loaded_grouping {| solver := s; stdout := []; stdin := [] |}
             Hbc Hn).
  rewrite (visualize_loaded_grouping {| solver := s; stdout := []; stdin := lines |}
             Hbc Hn).
  simpl. split; [reflexivity|]. split.
  - unfold prepared. simpl. now destruct (contour_active s).
  - f_equal. unfold prepared. simpl. now destruct (contour_active s).
Qed.

(** X19: the contour a run displays is drawn over the walls that have an
    emissivity setting and over no other surface, each of them once when the
    names of the walls are distinct. *)
Theorem run_displays_radiating_walls
    (case_file : string) (cores : Z) (gui_mode : bool) (lines : list string) :
  let s := loaded launch_fluent read_case case_file cores gui_mode in
  bc_active s = true ->
  Forall (normalizable s) (walls s) ->
  let w' := snd (visualize_e launch_fluent read_case case_file cores gui_mode lines) in
  exists c,
    contour (solver w') !! "contour_emissivity" = Some c
    /\ surfaces_list c ≡ₚ radiating_walls (walls s)
    /\ (NoDup (map fst (walls s)) -> NoDup (surfaces_list c)).
Proof.
  intros s Hbc Hn w'.
  set (w0 := {| solver := s; stdout := []; stdin := lines |}).
  subst w'. unfold visualize_e. fold s. fold w0.
  rewrite (visualize_loaded_grouping w0 Hbc Hn). simpl.
  eexists. split; [apply lookup_insert_eq|]. simpl.
  assert (Hperm : grouped_walls (grouping s) ≡ₚ radiating_walls (walls s)).
  { pose proof (collect_grouping w0 Hn) as Hc.
    unfold EmissivityManager.collect_emissivities, mbind, M_bind, gets in Hc.
    simpl in Hc. apply collected_walls in Hc. simpl in Hc.
    now rewrite app_nil_r in Hc. }
  split; [exact Hperm|].
  intros Hnd. rewrite Hperm. now apply radiating_walls_NoDup.
Qed.


(** X21: whatever the session and however the run ends, it keeps what it does
    not own: the walls and the boundary conditions, every named expression other
    than [overlay] and [emiss], every graphics object other than
    [contour_emissivity], and the cell registers and displayed contours of the
    case, to which it only appends. *)
Theorem run_keeps_the_rest
    (case_file : string) (cores : Z) (gui_mode : bool) (lines : list string) :
  let s := loaded launch_fluent read_case case_file cores gui_mode in
  let w' := snd (visualize_e launch_fluent read_case case_file cores gui_mode lines) in
  walls (solver w') = walls s
  /\ bc_active (solver w') = bc_active s
  /\ (forall name : string,
        name <> "overlay" -> name <> "emiss" ->
        named_expressions (solver w') !! name = named_expressions s !! name)
  /\ (forall name : string,
        name <> "contour_emissivity" ->
        contour (solver w') !! name = contour s !! name)
  /\ cell_registers s `prefix_of` cell_registers (solver w')
  /\ displayed s `prefix_of` displayed (solver w').
Proof.
  intros s w'.
  set (w0 := {| solver := s; stdout := []; stdin := lines |}).
  destruct (solver_prepared_fields w0) as (Hb & Hw & Hne & Hcr & Hco & Hdi).
  subst w'. unfold visualize_e. fold s. fold w0.
  destruct (visualize_loaded_cases w0)
    as [[Hbc ->]|[(Hbc & wall & wall_data & emiss & e & Hin & He & Hr & ->)
                 |(Hbc & Hn & ->)]]; simpl.
  - now repeat split.
  - rewrite Hw, Hb, Hne, Hco, Hcr, Hdi. now repeat split.
  - rewrite Hw, Hb, Hne, Hco, Hcr, Hdi. repeat split.
    + intros name H1 H2. now rewrite !lookup_insert_ne by congruence.
    + intros name H1. now rewrite lookup_insert_ne by congruence.
    + now apply prefix_app_r.
    + now apply prefix_app_r.
Qed.

End RunFacts.

(** *** The run at the scenario *)

Lemma scenario_normalizable :
  Forall (normalizable scenario_session) scenario_walls.
Proof.
  repeat constructor; intros emiss H; simpl in H;
    first [discriminate H | injection H as <-; eexists; reflexivity].
Qed.

Lemma run_succeeds_witness :
  exists w',
    visualize_e (fun _ _ _ _ => scenario_session) (fun s _ => s)
      "case.cas" 1 false ["go"]
    = (Ok tt, w')
    /\ stdin w' = [].
Proof.
  destruct (run_succeeds (fun _ _ _ _ => scenario_session) (fun s _ => s)
              "case.cas" 1 false "go" [] eq_refl scenario_normalizable)
    as (w' & Hrun & _ & _ & _ & _ & _ & Hin).
  exists w'. now split.
Defined.

Lemma run_console_witness :
  stdout (snd (visualize_e (fun _ _ _ _ => scenario_session) (fun s _ => s)
                 "case.cas" 1 false ["go"]))
  = ["No data available."; "Initialization..."; "Initialized.";
     "Press Enter to continue..."].
Proof.
  exact (proj1 (run_console (fun _ _ _ _ => scenario_session) (fun s _ => s)
                  "case.cas" 1 false ["go"] eq_refl scenario_normalizable)).
Defined.

Lemma run_without_input_witness :
  fst (visualize_e (fun _ _ _ _ => scenario_session) (fun s _ => s)
         "case.cas" 1 false [])
  = Raise EOFError.
Proof.
  exact (proj1 (run_without_input (fun _ _ _ _ => scenario_session) (fun s _ => s)
                  "case.cas" 1 false ["go"] eq_refl scenario_normalizable)).
Defined.

Lemma run_displays_radiating_walls_witness :
  exists c,
    contour
      (solver (snd (visualize_e (fun _ _ _ _ => scenario_session) (fun s _ => s)
                      "case.cas" 1 false ["go"])))
    !! "contour_emissivity" = Some c
    /\ surfaces_list c ≡ₚ ["A"; "B"; "C"].
Proof.
  destruct (run_displays_radiating_walls
              (fun _ _ _ _ => scenario_session) (fun s _ => s)
              "case.cas" 1 false ["go"] eq_refl scenario_normalizable)
    as (c & Hc & Hperm & _).
  exists c. split; [exact Hc|exact Hperm].
Defined.
